(** * small-cuckoo: a cuckoo hash table for small tables

    A shallow embedding of [small-cuckoo.c] / [small-cuckoo.h] / [bithacks.h]
    and the properties of the table that its description states.

    Conventions of the embedding.
    - C's unsigned integers are [Z] with the wrap-around written out
      ([u16], [u32], [u64]); [size_t] is 64 bits wide.
    - The host is little-endian ([htole16], [htole64], [le16toh], [le64toh]
      are the identity, and byte 0 of a [uint64_t] is its least significant).
    - Arrays are lists.  Reading or writing outside an allocation, a failed
      [ENSURE], and a shift of an [int] by 31 or more have no defined result:
      the embedding returns [None] there.  [None] is also what a recursive
      function returns when its fuel runs out, so [None] reads as "does not
      return normally (within the fuel)".
    - Memory obtained from [malloc] and [realloc] is not initialised.  Its
      contents are read from oracles ([heap_entry], [heap_slot]); the bytes
      that lie after a local variable on the stack from [stack_word]. *)

From Stdlib Require Import ZArith Lia.
From stdpp Require Import base tactics option list numbers.

Local Open Scope Z_scope.

(** ** Machine integers *)

Definition u8 (x : Z) : Z := x mod 2 ^ 8.
Definition u16 (x : Z) : Z := x mod 2 ^ 16.
Definition u32 (x : Z) : Z := x mod 2 ^ 32.
Definition u64 (x : Z) : Z := x mod 2 ^ 64.

(** [1 << s] where [1] is an [int]: defined only when the result fits. *)
Definition shl_int_1 (s : Z) : option Z :=
  if decide (0 <= s < 31) then Some (Z.shiftl 1 s) else None.

(** ** Arrays *)

Definition load {A} (l : list A) (i : Z) : option A :=
  if decide (0 <= i) then l !! Z.to_nat i else None.

Definition store {A} (l : list A) (i : Z) (x : A) : option (list A) :=
  if decide (0 <= i < Z.of_nat (length l)) then Some (<[Z.to_nat i := x]> l)
  else None.

(** [calloc (n, _)]: [n] zeroed cells. *)
Definition calloc (n : Z) : list Z := replicate (Z.to_nat n) 0.

Arguments calloc : simpl never.

(** [malloc] and [realloc] of [n] cells: the old cells that fit are kept, the
    others hold whatever the oracle [junk] says. *)
Definition realloc {A} (junk : nat -> A) (l : list A) (n : Z) : list A :=
  take (Z.to_nat n) l ++ (junk <$> seq (length l) (Z.to_nat n - length l)).

Definition malloc {A} (junk : nat -> A) (n : Z) : list A := realloc junk [] n.

(** ** bithacks.h *)

Definition ceil_pow2 (x : Z) : Z :=
  let x := u64 (x - 1) in
  let x := Z.lor x (Z.shiftr x 1) in
  let x := Z.lor x (Z.shiftr x 2) in
  let x := Z.lor x (Z.shiftr x 4) in
  let x := Z.lor x (Z.shiftr x 8) in
  let x := Z.lor x (Z.shiftr x 16) in
  u64 (x + 1).

Definition reverse_nibbles_64 (v : Z) : Z :=
  let v := Z.lor (Z.shiftr (Z.land v 0xf0f0f0f0f0f0f0f0) 4)
             (u64 (Z.shiftl (Z.land v 0x0f0f0f0f0f0f0f0f) 4)) in
  let v := Z.lor (Z.shiftr (Z.land v 0xff00ff00ff00ff00) 8)
             (u64 (Z.shiftl (Z.land v 0x00ff00ff00ff00ff) 8)) in
  let v := Z.lor (Z.shiftr (Z.land v 0xffff0000ffff0000) 16)
             (u64 (Z.shiftl (Z.land v 0x0000ffff0000ffff) 16)) in
  let v := Z.lor (Z.shiftr (Z.land v 0xffffffff00000000) 32)
             (u64 (Z.shiftl (Z.land v 0x00000000ffffffff) 32)) in
  v.

(** [ffs] of [<strings.h>], which [bitmap_next] calls: one plus the index of
    the least significant bit set in an [int], and 0 when no bit is set. *)
Fixpoint ffs_from (n : nat) (j : Z) (t : Z) : Z :=
  match n with
  | O => 0
  | S n => if Z.testbit t j then j + 1 else ffs_from n (j + 1) t
  end.

Definition ffs (t : Z) : Z := ffs_from 32 0 t.

(** [bitmap_next]: the bitmap [*p] after the call, and the value returned. *)
Definition bitmap_next (p : Z) : Z * Z :=
  let t := Z.land p (u32 (- p)) in
  (Z.lxor p t, u32 (ffs t - 1)).

(** ** small-cuckoo.h *)

Record entry := Entry { key : Z; value : Z }.

Record small_cuckoo := SmallCuckoo {
  table_size : Z;
  table : list Z;
  n_entries : Z;
  entries_len : Z;
  entries : list entry
}.

Record small_cuckoo_iter := SmallCuckooIter {
  iter_sc : small_cuckoo;
  iter_i : Z
}.

Definition with_table (s : small_cuckoo) (ts : Z) (t : list Z) : small_cuckoo :=
  SmallCuckoo ts t (n_entries s) (entries_len s) (entries s).

(** ** Hash selectors *)

(** Byte [j] of a [uint64_t] in memory. *)
Definition byte_of (k : Z) (j : Z) : Z := Z.land (Z.shiftr k (8 * j)) 255.

Definition M : Z := 101.

Definition larsons_hash (k : Z) : Z :=
  let h := 3735928559 in
  let h := u32 (h * M + byte_of k 0) in
  let h := u32 (h * M + byte_of k 1) in
  let h := u32 (h * M + byte_of k 2) in
  let h := u32 (h * M + byte_of k 3) in
  let h := u32 (h * M + byte_of k 4) in
  let h := u32 (h * M + byte_of k 5) in
  let h := u32 (h * M + byte_of k 6) in
  u16 (Z.lxor h (Z.shiftr h 16)).

Definition hash_1 (n : Z) (k : Z) : Z :=
  u16 (Z.shiftl (Z.land (larsons_hash k) (u64 (Z.shiftr n 1 - 1))) 1).

(** Bob Jenkins's [hashword], the build without SSE4.2. *)
Definition rot (x k : Z) : Z := Z.lor (u32 (Z.shiftl x k)) (Z.shiftr x (32 - k)).

Definition mix (abc : Z * Z * Z) : Z * Z * Z :=
  let '(a, b, c) := abc in
  let a := u32 (a - c) in let a := Z.lxor a (rot c 4) in let c := u32 (c + b) in
  let b := u32 (b - a) in let b := Z.lxor b (rot a 6) in let a := u32 (a + c) in
  let c := u32 (c - b) in let c := Z.lxor c (rot b 8) in let b := u32 (b + a) in
  let a := u32 (a - c) in let a := Z.lxor a (rot c 16) in let c := u32 (c + b) in
  let b := u32 (b - a) in let b := Z.lxor b (rot a 19) in let a := u32 (a + c) in
  let c := u32 (c - b) in let c := Z.lxor c (rot b 4) in let b := u32 (b + a) in
  (a, b, c).

Definition final (abc : Z * Z * Z) : Z * Z * Z :=
  let '(a, b, c) := abc in
  let c := Z.lxor c b in let c := u32 (c - rot b 14) in
  let a := Z.lxor a c in let a := u32 (a - rot c 11) in
  let b := Z.lxor b a in let b := u32 (b - rot a 25) in
  let c := Z.lxor c b in let c := u32 (c - rot b 16) in
  let a := Z.lxor a c in let a := u32 (a - rot c 4) in
  let b := Z.lxor b a in let b := u32 (b - rot a 14) in
  let c := Z.lxor c b in let c := u32 (c - rot b 24) in
  (a, b, c).

(** The loop of [hashword] over the words that remain, three at a time, and
    the [switch] on the last one to three of them. *)
Fixpoint hashword_loop (k : list Z) (abc : Z * Z * Z) : Z :=
  let '(a, b, c) := abc in
  match k with
  | k0 :: k1 :: k2 :: ((_ :: _) as rest) =>
      hashword_loop rest (mix (u32 (a + k0), u32 (b + k1), u32 (c + k2)))
  | [k0; k1; k2] => snd (final (u32 (a + k0), u32 (b + k1), u32 (c + k2)))
  | [k0; k1] => snd (final (u32 (a + k0), u32 (b + k1), c))
  | [k0] => snd (final (u32 (a + k0), b, c))
  | [] => c
  end.

Definition hashword (k : list Z) (initval : Z) : Z :=
  let a := u32 (3735928559 + u32 (Z.shiftl (u32 (Z.of_nat (length k))) 2) + initval) in
  hashword_loop k (a, a, a).

(** The 32-bit hash under [hash_2] in the build without SSE4.2:
    [hashword ((const uint32_t * ) &key, 2, 0x55555555)]. *)
Definition jenkins (k : Z) : Z :=
  hashword [u32 k; u32 (Z.shiftr k 32)] 1431655765.

(** The 32-bit hash under [hash_2] in the build with SSE4.2:
    [_mm_crc32_u64 (-1, key)].  The intrinsic is the processor's CRC32
    instruction and not code of the repository; this is its definition
    (CRC-32C, polynomial 0x11EDC6F41, bits reflected, 0x82F63B78, the eight
    bytes of the operand taken from the least significant). *)
Definition crc32c_bit (crc : Z) : Z :=
  Z.lxor (Z.shiftr crc 1) (if Z.odd crc then 2197175160 else 0).

Definition crc32c_u8 (crc b : Z) : Z := Nat.iter 8 crc32c_bit (Z.lxor crc b).

Definition mm_crc32_u64 (crc v : Z) : Z :=
  foldl crc32c_u8 (u32 crc) (byte_of v <$> [0; 1; 2; 3; 4; 5; 6; 7]).

Definition crc32 (k : Z) : Z := mm_crc32_u64 (-1) k.

(** ** The key generator of the unit tests

    [fnv_hash (data, n)] over the [n] bytes [data]. *)
Definition fnv_hash (data : list Z) : Z :=
  foldl
    (fun h b =>
       let h := Z.lxor h b in
       u64 (h + u64 (u64 (u64 (u64 (u64 (u64 (Z.shiftl h 1) + u64 (Z.shiftl h 4))
                                      + u64 (Z.shiftl h 5))
                                 + u64 (Z.shiftl h 7))
                            + u64 (Z.shiftl h 8))
                       + u64 (Z.shiftl h 40))))
    14695981039346656037 data.

(** ** The table

    The section is parametric in the 32-bit hash [word_hash] that [hash_2]
    post-processes ([_mm_crc32_u64 (-1, key)] with SSE4.2, [jenkins]
    without), and in the contents of uninitialised memory. *)

Section SmallCuckoo.

Variable word_hash : Z -> Z.
Variable heap_entry : nat -> entry.
Variable heap_slot : nat -> Z.
Variable stack_word : nat -> Z.

Definition hash_2 (n : Z) (k : Z) : Z :=
  let h := u32 (word_hash k) in
  let h := Z.lxor h (Z.shiftr h 16) in
  u16 (1 + Z.shiftl (Z.land h (u64 (Z.shiftr n 1 - 1))) 1).

Definition small_cuckoo_new (initial_size : Z) : option small_cuckoo :=
  ts ← shl_int_1 (u64 (ceil_pow2 initial_size + 1));
  let len := u16 (1 + initial_size) in
  Some (SmallCuckoo ts (calloc ts) 1 len (malloc heap_entry len)).

Definition MAX_LOOPS : nat := 20.

(** The macro [X] of [insert]: exchange the index in hand with the slot that
    [fn] selects for its key.  The result is the table and the index now in
    hand. *)
Definition X (fn : Z -> Z -> Z) (s : small_cuckoo) (i : Z)
    : option (small_cuckoo * Z) :=
  e ← load (entries s) i;
  let h := fn (table_size s) (key e) in
  t ← load (table s) h;
  let i := Z.lxor i t in
  let t := Z.lxor t i in
  let i := Z.lxor i t in
  t' ← store (table s) h t;
  Some (with_table s (table_size s) t', i).

(** How the [for] loop of [insert] ends: by its [return], or by running out
    of rounds with an index still in hand. *)
Inductive eviction := Placed (s : small_cuckoo) | InHand (s : small_cuckoo) (i : Z).

Fixpoint eviction_loop (n : nat) (s : small_cuckoo) (i : Z) : option eviction :=
  match n with
  | O => Some (InHand s i)
  | S n =>
      '(s, i) ← X hash_1 s i;
      if decide (i = 0) then Some (Placed s) else
      '(s, i) ← X hash_2 s i;
      if decide (i = 0) then Some (Placed s) else
      eviction_loop n s i
  end.

(** [insert], [double_size] and the [for] loop of [double_size].  The loop
    reads its bound [sc->table_size>>1] from the table at every round, and
    its counter is an [unsigned]. *)
Fixpoint insert (fuel : nat) (s : small_cuckoo) (i : Z) : option small_cuckoo :=
  match fuel with
  | O => None
  | S fuel =>
      r ← eviction_loop MAX_LOOPS s i;
      match r with
      | Placed s => Some s
      | InHand s i => s ← double_size fuel s; insert fuel s i
      end
  end
with double_size (fuel : nat) (s : small_cuckoo) : option small_cuckoo :=
  match fuel with
  | O => None
  | S fuel =>
      let prev_table := table s in
      let ts := u64 (Z.shiftl (table_size s) 1) in
      double_size_loop fuel prev_table 0 (with_table s ts (calloc ts))
  end
with double_size_loop (fuel : nat) (prev_table : list Z) (i : Z) (s : small_cuckoo)
    : option small_cuckoo :=
  match fuel with
  | O => None
  | S fuel =>
      if decide (i < Z.shiftr (table_size s) 1) then
        k ← load prev_table i;
        s ← (if decide (k = 0) then Some s else insert fuel s k);
        double_size_loop fuel prev_table (u32 (i + 1)) s
      else Some s
  end.

(** The first half of [small_cuckoo_insert]: the new entry is stored at index
    [n_entries], after the entry store was doubled when it is full. *)
Definition append (s : small_cuckoo) (k v : Z) : option (small_cuckoo * Z) :=
  let i := n_entries s in
  if decide (i > 0) then
    let n := u16 (n_entries s + 1) in
    let len := if decide (n >= entries_len s)
               then u16 (Z.shiftl (entries_len s) 1) else entries_len s in
    let es := if decide (n >= entries_len s)
              then realloc heap_entry (entries s) len else entries s in
    es ← store es i (Entry k v);
    Some (SmallCuckoo (table_size s) (table s) n len es, i)
  else None.

Definition small_cuckoo_insert (fuel : nat) (s : small_cuckoo) (k v : Z)
    : option small_cuckoo :=
  '(s, i) ← append s k v;
  insert fuel s i.

(** [small_cuckoo_find]: [Some (Some v)] when it returns [true] with [v] in
    [*value], [Some None] when it returns [false]. *)
Definition probe (s : small_cuckoo) (h : Z) (k : Z) : option (option Z) :=
  i ← load (table s) h;
  if decide (i = 0) then Some None else
  e ← load (entries s) i;
  if decide (key e = k) then Some (Some (value e)) else Some None.

Definition small_cuckoo_find (s : small_cuckoo) (k : Z) : option (option Z) :=
  r ← probe s (hash_1 (table_size s) k) k;
  match r with
  | Some v => Some (Some v)
  | None => probe s (hash_2 (table_size s) k) k
  end.

(** [small_cuckoo_free]: both arrays are released and the structure is
    zeroed; the null pointers are arrays of no cell. *)
Definition small_cuckoo_free (s : small_cuckoo) : small_cuckoo :=
  SmallCuckoo 0 [] 0 0 [].

(** ** Serialisation *)

Fixpoint le_bytes (n : nat) (x : Z) : list Z :=
  match n with
  | O => []
  | S n => x mod 256 :: le_bytes n (x / 256)
  end.

Definition le_value (bs : list Z) : Z := foldr (fun b acc => u8 b + 256 * acc) 0 bs.

(** [WRITE_UNDER (t, x, n)]: [x] is stored in a [uint32_t u] and [n] bytes
    are written from the address of [u].  The bytes past the fourth are what
    follows [u] on the stack; [c] numbers the write. *)
Definition WRITE_UNDER (c : nat) (x : Z) (n : nat) : list Z :=
  take n (le_bytes 4 (u32 x) ++ le_bytes 4 (u32 (stack_word c))).

Fixpoint serialize_entries (c : nat) (es : list entry) : list Z :=
  match es with
  | [] => []
  | e :: es =>
      WRITE_UNDER c (key e) 8 ++ WRITE_UNDER (S c) (value e) 8
        ++ serialize_entries (S (S c)) es
  end.

(** The bytes written to [fd].  The loop runs over the indices
    [0 .. n_entries - 1] of the entry store. *)
Definition small_cuckoo_serialize (s : small_cuckoo) : option (list Z) :=
  if decide (0 <= n_entries s <= Z.of_nat (length (entries s))) then
    Some (WRITE_UNDER 0 (n_entries s) 2
            ++ serialize_entries 1 (take (Z.to_nat (n_entries s)) (entries s)))
  else None.

(** [READ_AND (then, v, n)]: [n] bytes are read to the address of a
    [uint32_t u] that holds 0, and [v] is [u].  A short read fails the
    [ENSURE].  The bytes past the fourth land outside [u]: they are consumed
    from the stream and do not reach [v]. *)
Definition READ_AND (n : nat) (fd : list Z) : option (Z * list Z) :=
  if decide (n <= length fd)%nat then Some (le_value (take (min n 4) fd), drop n fd)
  else None.

Fixpoint read_entries (n : nat) (fd : list Z) : option (list entry) :=
  match n with
  | O => Some []
  | S n =>
      '(k, fd) ← READ_AND 8 fd;
      '(v, fd) ← READ_AND 8 fd;
      es ← read_entries n fd;
      Some (Entry k v :: es)
  end.

(** [small_cuckoo_deserialize] up to its last loop: the table as it is when
    the first [insert] is called. *)
Definition deserialize_read (fd : list Z) : option small_cuckoo :=
  '(n, fd) ← READ_AND 2 fd;
  let n := u16 n in
  ts ← shl_int_1 (u64 (ceil_pow2 n + 1));
  es ← read_entries (Z.to_nat n) fd;
  Some (SmallCuckoo ts (u16 <$> malloc heap_slot ts) n 0 es).

(** The last loop: [insert (sc, i)] for [i] from 0 to [n_entries - 1]. *)
Fixpoint reinsert (fuel : nat) (idx : list Z) (s : small_cuckoo) : option small_cuckoo :=
  match idx with
  | [] => Some s
  | i :: idx => s ← insert fuel s i; reinsert fuel idx s
  end.

Definition small_cuckoo_deserialize (fuel : nat) (fd : list Z) : option small_cuckoo :=
  s ← deserialize_read fd;
  reinsert fuel (Z.of_nat <$> seq 0 (Z.to_nat (n_entries s))) s.

(** ** Iteration *)

Definition small_cuckoo_iterate (s : small_cuckoo) : small_cuckoo_iter :=
  SmallCuckooIter s 0.

Fixpoint small_cuckoo_iter_has_next (fuel : nat) (it : small_cuckoo_iter)
    : option (bool * small_cuckoo_iter) :=
  match fuel with
  | O => None
  | S fuel =>
      if decide (iter_i it < table_size (iter_sc it)) then
        j ← load (table (iter_sc it)) (iter_i it);
        if decide (j = 0)
        then small_cuckoo_iter_has_next fuel
               (SmallCuckooIter (iter_sc it) (u16 (iter_i it + 1)))
        else Some (true, it)
      else Some (false, it)
  end.

(** [small_cuckoo_iter_next]: the pair at the first occupied slot from the
    cursor on; [ENSURE (false)] when there is none. *)
Fixpoint small_cuckoo_iter_next (fuel : nat) (it : small_cuckoo_iter)
    : option (Z * Z * small_cuckoo_iter) :=
  match fuel with
  | O => None
  | S fuel =>
      if decide (iter_i it < table_size (iter_sc it)) then
        j ← load (table (iter_sc it)) (iter_i it);
        if decide (j = 0)
        then small_cuckoo_iter_next fuel
               (SmallCuckooIter (iter_sc it) (u16 (iter_i it + 1)))
        else
          e ← load (entries (iter_sc it)) j;
          Some (key e, value e, SmallCuckooIter (iter_sc it) (u16 (iter_i it + 1)))
      else None
  end.

(** A sequence of calls of [small_cuckoo_insert]. *)
Fixpoint insert_all (fuel : nat) (s : small_cuckoo) (kvs : list (Z * Z))
    : option small_cuckoo :=
  match kvs with
  | [] => Some s
  | (k, v) :: kvs => s ← small_cuckoo_insert fuel s k v; insert_all fuel s kvs
  end.

(** ** Predicates of the specification *)

(** The indices other than 0 of a list of slots. *)
Definition occupied (l : list Z) : list Z := filter (fun j => j <> 0) l.

(** The slot table is an allocation of [table_size] slots, a power of two. *)
Definition table_ok (s : small_cuckoo) : Prop :=
  exists m, 0 <= m <= 63 /\ table_size s = 2 ^ m /\
    Z.of_nat (length (table s)) = table_size s.

(** Slot [h] holds the index [j] of a live entry whose key hashes to [h]
    under the selector of the parity of [h]. *)
Definition slot_ok (s : small_cuckoo) (h : nat) (j : Z) : Prop :=
  0 < j < n_entries s /\
  exists e, load (entries s) j = Some e /\
    (if Z.even (Z.of_nat h) then hash_1 (table_size s) (key e)
     else hash_2 (table_size s) (key e)) = Z.of_nat h.

Definition slot_invariant (s : small_cuckoo) : Prop :=
  forall h j, table s !! h = Some j -> j <> 0 -> slot_ok s h j.

(** The table after [small_cuckoo_new] and one [small_cuckoo_insert] per
    pair of [kvs]: pair [j] is entry [j + 1], and the slot table holds each
    of the indices [1 .. length kvs] once. *)
Definition built (s : small_cuckoo) (kvs : list (Z * Z)) : Prop :=
  table_ok s /\ slot_invariant s /\
  n_entries s = 1 + Z.of_nat (length kvs) /\
  Z.of_nat (length (entries s)) = entries_len s /\
  0 <= entries_len s < 65536 /\
  (forall j k v, kvs !! j = Some (k, v) -> entries s !! S j = Some (Entry k v)) /\
  occupied (table s) ≡ₚ (Z.of_nat <$> seq 1 (length kvs)).

(** The 32-bit hash of [hash_2] after [h ^= (h>>16)]. *)
Definition folded (k : Z) : Z :=
  Z.lxor (u32 (word_hash k)) (Z.shiftr (u32 (word_hash k)) 16).

(** Two keys with the same two candidate slots in a table of any size. *)
Definition same_slots (k k' : Z) : Prop :=
  forall n, hash_1 n k = hash_1 n k' /\ hash_2 n k = hash_2 n k'.

(** C1 at one sequence of pairs: the insertions into a table made with
    [initial_size] return, and [find] then succeeds on every pair. *)
Definition finds_all (initial_size : Z) (kvs : list (Z * Z)) : Prop :=
  exists fuel s0 s,
    small_cuckoo_new initial_size = Some s0 /\
    insert_all fuel s0 kvs = Some s /\
    forall k v, (k, v) ∈ kvs -> small_cuckoo_find s k = Some (Some v).

(** The entry store of a table made with hint 0 is a power of two that
    [n_entries] has not outgrown, and [n_entries] is below [2 ^ 15]. *)
Definition store_ok (s : small_cuckoo) : Prop :=
  exists p, 0 <= p <= 15 /\ entries_len s = 2 ^ p /\
    0 < n_entries s <= entries_len s /\ entries_len s <= 2 * n_entries s /\
    n_entries s < 32768 /\ Z.of_nat (length (entries s)) = entries_len s.

(** The tables that the public operations make. *)
Inductive reachable : small_cuckoo -> Prop :=
  | reachable_new initial_size s :
      small_cuckoo_new initial_size = Some s -> reachable s
  | reachable_insert fuel s k v s' :
      reachable s -> small_cuckoo_insert fuel s k v = Some s' -> reachable s'
  | reachable_deserialize fuel fd s :
      small_cuckoo_deserialize fuel fd = Some s -> reachable s.

(** A fresh iterator run for at most [steps] pairs: the pairs it delivered,
    and whether [small_cuckoo_iter_has_next] said no in the end (the iterator
    is exhausted) or the run was cut after [steps] pairs. *)
Fixpoint iterate_from (steps fuel : nat) (it : small_cuckoo_iter)
    : option (list (Z * Z) * bool) :=
  match steps with
  | O => Some ([], false)
  | S steps =>
      '(more, it) ← small_cuckoo_iter_has_next fuel it;
      if more : bool then
        '(k, v, it) ← small_cuckoo_iter_next fuel it;
        '(kvs, exhausted) ← iterate_from steps fuel it;
        Some ((k, v) :: kvs, exhausted)
      else Some ([], true)
  end.

Definition iterate_all (steps fuel : nat) (s : small_cuckoo)
    : option (list (Z * Z) * bool) :=
  iterate_from steps fuel (small_cuckoo_iterate s).

(** A table of [2 ^ 16] slots or more whose only occupied slot among the
    first [2 ^ 16] is [h], with index [j]. *)
Definition one_slot (s : small_cuckoo) (h j : Z) : Prop :=
  0 <= h < 65536 /\ 65536 <= table_size s /\
  load (table s) h = Some j /\ j <> 0 /\
  forall x, 0 <= x < 65536 -> x <> h -> load (table s) x = Some 0.

(** [insert] leaves everything but the slot table alone. *)
Definition same_store (s s' : small_cuckoo) : Prop :=
  n_entries s' = n_entries s /\ entries_len s' = entries_len s /\
  entries s' = entries s.

(** What [small_cuckoo_find] and the iterator rely on in a table that holds
    the pairs [kvs]: [built] without the size of the entry store. *)
Definition indexed (s : small_cuckoo) (kvs : list (Z * Z)) : Prop :=
  table_ok s /\ slot_invariant s /\
  n_entries s = 1 + Z.of_nat (length kvs) /\
  (forall j k v, kvs !! j = Some (k, v) -> entries s !! S j = Some (Entry k v)) /\
  occupied (table s) ≡ₚ (Z.of_nat <$> seq 1 (length kvs)).

(** The pair that the iterator delivers for the entry index [j]. *)
Definition pair_at (s : small_cuckoo) (j : Z) : Z * Z :=
  match load (entries s) j with
  | Some e => (key e, value e)
  | None => (0, 0)
  end.

(** An entry as it comes back from the stream: the low 32 bits of its key
    and of its value. *)
Definition low_words (e : entry) : entry := Entry (u32 (key e)) (u32 (value e)).

(** Bit [n] of [x] or one of the [w - 1] bits above it is set. *)
Definition covers (x w n : Z) : Prop :=
  exists d, 0 <= d < w /\ Z.testbit x (n + d) = true.

(** The masks of a line select the blocks whose index has the bit of [w]
    set, and those that have it clear. *)
Definition swaps (hi lo w : Z) (n : Z) : bool :=
  (0 <=? Z.lxor n w) && (Z.lxor n w <? 64) &&
  ((Z.testbit hi (n + w) && negb (Z.testbit lo (n - w)) && (Z.lxor n w =? n + w))
   || (negb (Z.testbit hi (n + w)) && Z.testbit lo (n - w) && (Z.lxor n w =? n - w))).

Arguments insert : simpl never.
Arguments double_size : simpl never.
Arguments double_size_loop : simpl never.

(** * Properties *)

(** ** Arrays and exclusive-or *)

Lemma load_Some {A} (l : list A) i x :
  load l i = Some x <-> 0 <= i /\ l !! Z.to_nat i = Some x.
Proof.
  unfold load. destruct (decide (0 <= i)) as [Hi | Hi].
  - split; [by intros -> | by intros [_ ->]].
  - split; [done | by intros [? _]].
Qed.

Lemma load_nat {A} (l : list A) (h : nat) : load l (Z.of_nat h) = l !! h.
Proof. unfold load. case_decide; [by rewrite Nat2Z.id | lia]. Qed.

Lemma store_Some {A} (l l' : list A) i x :
  store l i x = Some l' <->
  (0 <= i < Z.of_nat (length l)) /\ l' = <[Z.to_nat i := x]> l.
Proof.
  unfold store. destruct (decide (0 <= i < Z.of_nat (length l))) as [Hi | Hi].
  - split; [by intros [= <-] | by intros [_ ->]].
  - split; [done | by intros [? _]].
Qed.

Lemma load_store {A} (l : list A) i x y :
  load l i = Some y -> store l i x = Some (<[Z.to_nat i := x]> l).
Proof.
  rewrite load_Some. intros [Hi Hl]. apply lookup_lt_Some in Hl.
  apply store_Some. split; [lia | done].
Qed.

(** The three exclusive-ors of [X] exchange the two indices. *)
Lemma xor_swap i t :
  Z.lxor t (Z.lxor i t) = i /\ Z.lxor (Z.lxor i t) (Z.lxor t (Z.lxor i t)) = t.
Proof.
  assert (Z.lxor t (Z.lxor i t) = i) as E.
  { rewrite (Z.lxor_comm i t), <- Z.lxor_assoc, Z.lxor_nilpotent.
    apply Z.lxor_0_l. }
  split; [exact E |]. rewrite E.
  rewrite (Z.lxor_comm i t), Z.lxor_assoc, Z.lxor_nilpotent. apply Z.lxor_0_r.
Qed.

(** The cell written and the cell read by an exchange make a permutation. *)
Lemma exchange_Permutation {A} (l : list A) (h : nat) (i t : A) :
  l !! h = Some t -> t :: <[h := i]> l ≡ₚ i :: l.
Proof.
  revert h. induction l as [| x l IH]; intros [| h] Hl; simplify_eq/=.
  - apply Permutation_swap.
  - etrans; [apply Permutation_swap |].
    etrans; [apply Permutation_skip, (IH h Hl) |]. apply Permutation_swap.
Qed.

Lemma occupied_replicate n : occupied (replicate n 0) = [].
Proof.
  induction n as [| n IH]; [done |]. unfold occupied in *. simpl.
  rewrite filter_cons_False; [exact IH | intros H; by apply H].
Qed.

Lemma elem_of_occupied l j : j ∈ occupied l <-> j <> 0 /\ j ∈ l.
Proof. unfold occupied. by rewrite list_elem_of_filter. Qed.

Lemma occupied_snoc l j :
  occupied (l ++ [j]) = occupied l ++ (if decide (j = 0) then [] else [j]).
Proof.
  unfold occupied. rewrite list.filter_app. f_equal.
  destruct (decide (j = 0)) as [-> | Hj].
  - by rewrite filter_cons_False by (intros H; by apply H).
  - by rewrite filter_cons_True by done.
Qed.

(** ** The hash selectors *)

Lemma u16_range x : 0 <= u16 x < 65536.
Proof. unfold u16. change (2 ^ 16) with 65536. apply Z.mod_pos_bound. lia. Qed.

Lemma u32_range x : 0 <= u32 x < 2 ^ 32.
Proof. unfold u32. apply Z.mod_pos_bound. lia. Qed.

Lemma u16_small x : 0 <= x < 65536 -> u16 x = x.
Proof. intros. unfold u16. apply Z.mod_small. change (2 ^ 16) with 65536. lia. Qed.

Lemma u32_small x : 0 <= x < 2 ^ 32 -> u32 x = x.
Proof. intros. unfold u32. by apply Z.mod_small. Qed.

Lemma u64_small x : 0 <= x < 2 ^ 64 -> u64 x = x.
Proof. intros. unfold u64. by apply Z.mod_small. Qed.

Lemma hash_1_even n k : Z.even (hash_1 n k) = true.
Proof.
  unfold hash_1, u16. rewrite Z.shiftl_mul_pow2 by lia.
  change (2 ^ 1) with 2. change (2 ^ 16) with (2 * 32768).
  rewrite (Z.mul_comm _ 2), Z.mul_mod_distr_l by lia.
  by rewrite Z.even_mul.
Qed.

Lemma hash_2_odd n k : Z.odd (hash_2 n k) = true.
Proof.
  unfold hash_2, u16. rewrite Z.shiftl_mul_pow2 by lia.
  change (2 ^ 1) with 2. rewrite <- Z.bit0_odd.
  rewrite Z.mod_pow2_bits_low by lia. rewrite Z.bit0_odd.
  by rewrite (Z.mul_comm _ 2), Z.odd_add_mul_2.
Qed.

(** For a table of [2 ^ m] slots, [m >= 1], both selectors stay inside. *)
Lemma mask_range x m :
  0 <= x -> 1 <= m <= 63 ->
  0 <= Z.land x (u64 (Z.shiftr (2 ^ m) 1 - 1)) <= 2 ^ (m - 1) - 1.
Proof.
  intros Hx Hm.
  assert (Z.shiftr (2 ^ m) 1 = 2 ^ (m - 1)) as ->.
  { rewrite Z.shiftr_div_pow2 by lia. change (2 ^ 1) with 2.
    replace m with (m - 1 + 1) at 1 by lia.
    rewrite Z.pow_add_r by lia. change (2 ^ 1) with 2.
    by rewrite Z.div_mul by lia. }
  assert (0 < 2 ^ (m - 1) <= 2 ^ 62).
  { split; [apply Z.pow_pos_nonneg; lia |].
    apply Z.pow_le_mono_r; lia. }
  rewrite u64_small by (change (2 ^ 64) with (4 * 2 ^ 62); lia).
  split; [apply Z.land_nonneg; lia |].
  destruct (Z.le_gt_cases (Z.land x (2 ^ (m - 1) - 1)) (2 ^ (m - 1) - 1))
    as [? | Hgt]; [done | exfalso].
  assert (0 <= Z.land x (2 ^ (m - 1) - 1)) as Hl by (apply Z.land_nonneg; lia).
  assert (Z.land x (2 ^ (m - 1) - 1) = Z.land x (Z.ones (m - 1))) as E.
  { by rewrite Z.ones_equiv, Z.sub_1_r. }
  rewrite E, Z.land_ones in Hgt by lia.
  pose proof (Z.mod_pos_bound x (2 ^ (m - 1))). lia.
Qed.

Lemma hash_1_range m k :
  1 <= m <= 63 -> 0 <= hash_1 (2 ^ m) k < 2 ^ m.
Proof.
  intros Hm. unfold hash_1.
  assert (0 <= larsons_hash k) as Hl by apply u16_range.
  pose proof (mask_range (larsons_hash k) m Hl Hm) as Hr.
  set (y := Z.land _ _) in *. rewrite Z.shiftl_mul_pow2 by lia.
  change (2 ^ 1) with 2.
  assert (2 ^ m = 2 * 2 ^ (m - 1)) as E.
  { replace m with (1 + (m - 1)) at 1 by lia. by rewrite Z.pow_add_r by lia. }
  split; [apply u16_range |].
  unfold u16. pose proof (Z.mod_le (y * 2) (2 ^ 16)).
  assert (0 < 2 ^ 16) by done. lia.
Qed.

Lemma hash_2_range m k :
  1 <= m <= 63 -> 0 <= hash_2 (2 ^ m) k < 2 ^ m.
Proof.
  intros Hm. unfold hash_2.
  set (h := Z.lxor _ _).
  assert (0 <= h) as Hh.
  { subst h. apply Z.lxor_nonneg. pose proof (u32_range (word_hash k)).
    split; intros _; [apply Z.shiftr_nonneg|]; lia. }
  pose proof (mask_range h m Hh Hm) as Hr.
  set (y := Z.land _ _) in *. rewrite Z.shiftl_mul_pow2 by lia.
  change (2 ^ 1) with 2.
  assert (2 ^ m = 2 * 2 ^ (m - 1)) as E.
  { replace m with (1 + (m - 1)) at 1 by lia. by rewrite Z.pow_add_r by lia. }
  split; [apply u16_range |].
  unfold u16. pose proof (Z.mod_le (1 + y * 2) (2 ^ 16)).
  assert (0 < 2 ^ 16) by done. lia.
Qed.

(** ** One exchange *)

Definition hand_ok (s : small_cuckoo) (i : Z) : Prop := i = 0 \/ 0 < i < n_entries s.

(** [fn] is one of the two selectors, told apart by the parity of the slot. *)
Definition selector (fn : Z -> Z -> Z) : Prop :=
  forall n k, 0 <= fn n k /\
    (if Z.even (fn n k) then hash_1 n k else hash_2 n k) = fn n k.

Lemma selector_hash_1 : selector hash_1.
Proof.
  intros n k. split; [apply u16_range | by rewrite hash_1_even].
Qed.

Lemma selector_hash_2 : selector hash_2.
Proof.
  intros n k. split; [apply u16_range |].
  by rewrite <- Z.negb_odd, hash_2_odd.
Qed.

Lemma occupied_Permutation l1 l2 : l1 ≡ₚ l2 -> occupied l1 ≡ₚ occupied l2.
Proof. intros H. unfold occupied. by rewrite H. Qed.

Lemma occupied_cons j l :
  occupied (j :: l) = (if decide (j = 0) then [] else [j]) ++ occupied l.
Proof.
  unfold occupied. destruct (decide (j = 0)) as [-> | Hj].
  - by rewrite filter_cons_False by (intros H; by apply H).
  - by rewrite filter_cons_True by done.
Qed.

Lemma X_Some fn s i s' i' :
  X fn s i = Some (s', i') ->
  exists e h,
    load (entries s) i = Some e /\ Z.of_nat h = fn (table_size s) (key e) /\
    table s !! h = Some i' /\
    s' = with_table s (table_size s) (<[h := i]> (table s)).
Proof.
  unfold X. intros H.
  destruct (load (entries s) i) as [e |] eqn:He; simplify_eq/=.
  destruct (load (table s) _) as [t |] eqn:Ht; simplify_eq/=.
  destruct (xor_swap i t) as [E1 E2]. rewrite E2, E1 in H.
  rewrite (load_store _ _ _ _ Ht) in H. simplify_eq/=.
  apply load_Some in Ht as [Hh Ht].
  exists e, (Z.to_nat (fn (table_size s) (key e))).
  rewrite Z2Nat.id by done. done.
Qed.

(** What one exchange keeps. *)
Definition step_post (s : small_cuckoo) (i : Z) (s' : small_cuckoo) (i' : Z) : Prop :=
  table_size s' = table_size s /\ length (table s') = length (table s) /\
  same_store s s' /\
  occupied (i' :: table s') ≡ₚ occupied (i :: table s) /\
  (slot_invariant s -> hand_ok s i -> slot_invariant s' /\ hand_ok s' i').

Lemma step_post_refl s i : step_post s i s i.
Proof. unfold step_post, same_store. by split_and!. Qed.

Lemma step_post_trans s1 i1 s2 i2 s3 i3 :
  step_post s1 i1 s2 i2 -> step_post s2 i2 s3 i3 -> step_post s1 i1 s3 i3.
Proof.
  intros (Ha & Hb & (Hc1 & Hc2 & Hc3) & Hd & He)
         (Ha' & Hb' & (Hc1' & Hc2' & Hc3') & Hd' & He').
  unfold step_post, same_store. split_and!; try congruence.
  - by rewrite Hd'.
  - intros Hs Hi. destruct (He Hs Hi) as [Hs2 Hi2]. by apply He'.
Qed.

Lemma X_post fn s i s' i' :
  selector fn -> X fn s i = Some (s', i') -> step_post s i s' i'.
Proof.
  intros Hfn H. apply X_Some in H as (e & h & He & Hh & Ht & ->).
  unfold step_post, same_store. split_and!; simpl; try done.
  - by rewrite length_insert.
  - apply occupied_Permutation, exchange_Permutation, Ht.
  - intros Hs Hi. split.
    + intros h' j Hj Hnz. simpl in Hj.
      destruct (decide (h = h')) as [<- | Hne].
      * rewrite list_lookup_insert_eq in Hj by (by eapply lookup_lt_Some).
        simplify_eq. destruct Hi as [? | Hi]; [done |].
        split; [done |]. exists e. split; [done |]. simpl.
        rewrite Hh. apply Hfn.
      * rewrite list_lookup_insert_ne in Hj by done.
        destruct (Hs h' j Hj Hnz) as (? & e' & ? & ?).
        split; [done |]. by exists e'.
    + destruct (decide (i' = 0)) as [-> | Hnz]; [by left | right].
      by destruct (Hs h i' Ht Hnz).
Qed.

(** ** The bounded eviction loop *)

Lemma eviction_loop_post n s i r :
  eviction_loop n s i = Some r ->
  match r with
  | Placed s' => step_post s i s' 0
  | InHand s' i' => step_post s i s' i'
  end.
Proof.
  revert s i. induction n as [| n IH]; intros s i H; simpl in H.
  - simplify_eq. apply step_post_refl.
  - destruct (X hash_1 s i) as [[s1 i1] |] eqn:H1; simplify_eq/=.
    pose proof (X_post _ _ _ _ _ selector_hash_1 H1) as P1.
    destruct (decide (i1 = 0)) as [-> | Hi1]; [by simplify_eq |].
    destruct (X hash_2 s1 i1) as [[s2 i2] |] eqn:H2; simplify_eq/=.
    pose proof (X_post _ _ _ _ _ selector_hash_2 H2) as P2.
    pose proof (step_post_trans _ _ _ _ _ _ P1 P2) as P12.
    destruct (decide (i2 = 0)) as [-> | Hi2]; [by simplify_eq |].
    specialize (IH _ _ H).
    destruct r; by eapply step_post_trans.
Qed.

Lemma eviction_loop_S n s i :
  eviction_loop (S n) s i =
  ('(s, i) ← X hash_1 s i;
   if decide (i = 0) then Some (Placed s) else
   '(s, i) ← X hash_2 s i;
   if decide (i = 0) then Some (Placed s) else
   eviction_loop n s i).
Proof. done. Qed.

Arguments eviction_loop : simpl never.

(** ** [insert] and [double_size] *)

Lemma insert_S fuel s i :
  insert (S fuel) s i =
  (r ← eviction_loop MAX_LOOPS s i;
   match r with
   | Placed s => Some s
   | InHand s i => s ← double_size fuel s; insert fuel s i
   end).
Proof. done. Qed.

Lemma double_size_S fuel s :
  double_size (S fuel) s =
  double_size_loop fuel (table s) 0
    (with_table s (u64 (Z.shiftl (table_size s) 1))
       (calloc (u64 (Z.shiftl (table_size s) 1)))).
Proof. done. Qed.

Lemma double_size_loop_S fuel prev i s :
  double_size_loop (S fuel) prev i s =
  (if decide (i < Z.shiftr (table_size s) 1) then
     k ← load prev i;
     s ← (if decide (k = 0) then Some s else insert fuel s k);
     double_size_loop fuel prev (u32 (i + 1)) s
   else Some s).
Proof. done. Qed.

(** What a call of [insert] that returns has done. *)
Definition insert_post (s : small_cuckoo) (i : Z) (s' : small_cuckoo) : Prop :=
  table_ok s' /\ table_size s <= table_size s' /\ same_store s s' /\
  occupied (table s') ≡ₚ occupied (i :: table s) /\
  (slot_invariant s -> hand_ok s i -> slot_invariant s').

(** What the loop of [double_size] has done from round [j] on, when no
    reinsertion grew the table again. *)
Definition loop_post (prev : list Z) (j : nat) (s s' : small_cuckoo) : Prop :=
  table_ok s' /\ table_size s' = table_size s /\ same_store s s' /\
  occupied (table s') ≡ₚ occupied (table s) ++ occupied (drop j prev) /\
  (slot_invariant s -> Forall (hand_ok s) (drop j prev) -> slot_invariant s').

(** What [double_size] has done: the table is twice as large and holds the
    indices it held; or [table_size] was [2 ^ 63] and is 0 now. *)
Definition double_size_post (s s' : small_cuckoo) : Prop :=
  (table_size s = 2 ^ 63 /\ table s' = []) \/
  (table_ok s' /\ table_size s' = 2 * table_size s /\ same_store s s' /\
   occupied (table s') ≡ₚ occupied (table s) /\
   (slot_invariant s -> slot_invariant s')).

Lemma X_nil fn s i : table s = [] -> X fn s i = None.
Proof.
  intros Ht. unfold X. destruct (load (entries s) i) as [e |]; [| done].
  simpl. rewrite Ht. unfold load. by destruct (decide _).
Qed.

Lemma insert_nil fuel s i : table s = [] -> insert fuel s i = None.
Proof.
  intros Ht. destruct fuel as [| fuel]; [done |].
  rewrite insert_S. change MAX_LOOPS with (S 19).
  by rewrite eviction_loop_S, X_nil.
Qed.

Lemma pow2_lt_twice a b :
  0 <= a -> 0 <= b -> 2 ^ a < 2 ^ b -> 2 * 2 ^ a <= 2 ^ b.
Proof.
  intros Ha Hb Hlt. apply Z.pow_lt_mono_r_iff in Hlt; [| lia | lia].
  replace (2 * 2 ^ a) with (2 ^ (a + 1)) by (rewrite Z.pow_add_r by lia; lia).
  apply Z.pow_le_mono_r; lia.
Qed.

Lemma shiftr_1 x : Z.shiftr x 1 = x / 2.
Proof. by rewrite Z.shiftr_div_pow2. Qed.

Lemma shiftl_1 x : Z.shiftl x 1 = 2 * x.
Proof. rewrite Z.shiftl_mul_pow2 by lia. change (2 ^ 1) with 2. lia. Qed.

Lemma table_ok_pos s : table_ok s -> 0 < table_size s <= 2 ^ 63.
Proof.
  intros (m & Hm & -> & _). split; [apply Z.pow_pos_nonneg; lia |].
  apply Z.pow_le_mono_r; lia.
Qed.

Lemma table_ok_step s s' :
  table_ok s -> table_size s' = table_size s ->
  length (table s') = length (table s) -> table_ok s'.
Proof. intros (m & ? & ? & ?) E1 E2. exists m. rewrite E1, E2. done. Qed.

Lemma table_ok_grown s1 s2 :
  table_ok s1 -> table_ok s2 -> table_size s1 < table_size s2 ->
  table_size s1 <= Z.shiftr (table_size s2) 1.
Proof.
  intros (m1 & ? & E1 & _) (m2 & ? & E2 & _) Hlt. rewrite E1, E2 in *.
  rewrite shiftr_1. apply Z.div_le_lower_bound; [lia |].
  apply pow2_lt_twice; lia.
Qed.

Lemma slot_invariant_calloc s ts :
  slot_invariant (with_table s ts (calloc ts)).
Proof.
  intros h j Hj Hnz. simpl in Hj. unfold calloc in Hj.
  apply lookup_replicate in Hj as [-> _]. done.
Qed.

Lemma slot_invariant_hands s :
  slot_invariant s -> Forall (hand_ok s) (table s).
Proof.
  intros Hs. apply Forall_lookup. intros h j Hj.
  destruct (decide (j = 0)) as [-> | Hnz]; [by left | right].
  by destruct (Hs h j Hj Hnz).
Qed.

Lemma same_store_refl s : same_store s s.
Proof. by unfold same_store. Qed.

Lemma same_store_trans s1 s2 s3 :
  same_store s1 s2 -> same_store s2 s3 -> same_store s1 s3.
Proof. unfold same_store. intros (? & ? & ?) (? & ? & ?). split_and!; congruence. Qed.

Lemma hand_ok_same_store s s' i : same_store s s' -> hand_ok s i -> hand_ok s' i.
Proof. unfold hand_ok. intros (-> & _). done. Qed.

Lemma insert_correct fuel :
  (forall s i s', table_ok s -> insert fuel s i = Some s' -> insert_post s i s') /\
  (forall s s', table_ok s -> double_size fuel s = Some s' -> double_size_post s s') /\
  (forall prev (j : nat) s s',
     table_ok s -> Z.shiftr (table_size s) 1 = Z.of_nat (length prev) ->
     Z.of_nat (length prev) < 2 ^ 32 -> (j <= length prev)%nat ->
     double_size_loop fuel prev (Z.of_nat j) s = Some s' ->
     loop_post prev j s s') /\
  (forall prev j s,
     table_ok s ->
     Z.of_nat (length prev) < Z.shiftr (table_size s) 1 \/
       2 ^ 32 <= Z.shiftr (table_size s) 1 ->
     0 <= j <= Z.of_nat (length prev) -> j < 2 ^ 32 ->
     double_size_loop fuel prev j s = None).
Proof.
  induction fuel as [| fuel (IHi & IHd & IHl & IHa)]; [done |].
  split; [| split; [| split]].
  - (* insert *)
    intros s i s' Hok H. rewrite insert_S in H.
    destruct (eviction_loop MAX_LOOPS s i) as [r |] eqn:Hr; [| done].
    apply eviction_loop_post in Hr. simpl in H.
    destruct r as [s1 | s1 i1].
    + injection H as ->. destruct Hr as (Hts & Hlen & Hst & Hocc & Hinv).
      split; [by eapply table_ok_step |].
      split; [lia |]. split; [done |].
      split; [by rewrite <- Hocc, occupied_cons |].
      intros Hs Hi. by apply Hinv.
    + destruct Hr as (Hts & Hlen & Hst & Hocc & Hinv).
      assert (table_ok s1) as Hok1 by (by eapply table_ok_step).
      destruct (double_size fuel s1) as [s2 |] eqn:Hd; [| done]. simpl in H.
      destruct (IHd _ _ Hok1 Hd)
        as [[_ Hnil] | (Hok2 & Hts2 & Hst2 & Hocc2 & Hinv2)].
      { by rewrite insert_nil in H. }
      destruct (IHi _ _ _ Hok2 H) as (Hok' & Hts' & Hst' & Hocc' & Hinv').
      pose proof (table_ok_pos _ Hok1).
      split; [done |]. split; [lia |].
      split; [eauto using same_store_trans |].
      split.
      * rewrite Hocc', <- Hocc. rewrite !occupied_cons. by rewrite Hocc2.
      * intros Hs Hi. destruct (Hinv Hs Hi) as [Hs1 Hi1].
        apply Hinv'; [by apply Hinv2 |]. by eapply hand_ok_same_store.
  - (* double_size *)
    intros s s' Hok H. rewrite double_size_S in H.
    destruct Hok as (m & Hm & Hts & Hlen). rewrite Hts in H.
    rewrite shiftl_1 in H.
    destruct (decide (m = 63)) as [-> | Hm63].
    + left. split; [done |]. change (u64 (2 * 2 ^ 63)) with 0 in H.
      destruct fuel as [| fuel]; [done |].
      rewrite double_size_loop_S in H. simpl in H. by injection H as <-.
    + right.
      assert (0 < 2 ^ m <= 2 ^ 62) as Hp.
      { split; [apply Z.pow_pos_nonneg; lia | apply Z.pow_le_mono_r; lia]. }
      rewrite u64_small in H by (change (2 ^ 64) with (4 * 2 ^ 62); lia).
      set (s1 := with_table s (2 * 2 ^ m) (calloc (2 * 2 ^ m))) in *.
      assert (table_ok s1) as Hok1.
      { exists (m + 1). split; [lia |]. simpl. unfold calloc.
        rewrite length_replicate, Z2Nat.id by lia.
        rewrite Z.pow_add_r by lia. split; lia. }
      assert (Z.shiftr (table_size s1) 1 = Z.of_nat (length (table s))) as Hsh.
      { simpl. rewrite shiftr_1, Hlen, Hts, Z.mul_comm, Z.div_mul by lia. done. }
      destruct (decide (Z.of_nat (length (table s)) < 2 ^ 32)) as [Hsmall | Hbig].
      * destruct (IHl (table s) 0%nat s1 s' Hok1 Hsh Hsmall ltac:(lia) H)
          as (Hok' & Hts' & Hst' & Hocc' & Hinv').
        split; [done |]. split; [rewrite Hts'; simpl; lia |].
        split; [done |]. split.
        -- rewrite Hocc'. simpl. unfold calloc. by rewrite occupied_replicate.
        -- intros Hs. apply Hinv'; [apply slot_invariant_calloc |].
           rewrite drop_0.
           generalize (slot_invariant_hands s Hs).
           apply List.Forall_impl. intros x Hx. exact Hx.
      * rewrite IHa in H; [done | done | right; lia | lia | done].
  - (* the loop, no growth inside *)
    intros prev j s s' Hok Hsh Hsmall Hj H.
    rewrite double_size_loop_S in H. rewrite Hsh in H.
    destruct (decide (Z.of_nat j < Z.of_nat (length prev))) as [Hlt | Hge].
    + destruct (lookup_lt_is_Some_2 prev j ltac:(lia)) as [k Hk].
      rewrite load_nat, Hk in H. simpl in H.
      unfold loop_post. rewrite (drop_S _ _ _ Hk).
      assert (u32 (Z.of_nat j + 1) = Z.of_nat (S j)) as Hu
        by (rewrite u32_small by lia; lia).
      rewrite Hu in H.
      destruct (decide (k = 0)) as [-> | Hnz]; simpl in H.
      * destruct (IHl prev (S j) s s' Hok Hsh Hsmall ltac:(lia) H)
          as (Hok' & Hts' & Hst' & Hocc' & Hinv').
        split; [done |]. split; [done |]. split; [done |]. split.
        -- by rewrite occupied_cons.
        -- intros Hs Hf. apply Hinv'; [done |]. by inversion Hf.
      * destruct (insert fuel s k) as [s1 |] eqn:Hi; [| done]. simpl in H.
        destruct (IHi _ _ _ Hok Hi) as (Hok1 & Hts1 & Hst1 & Hocc1 & Hinv1).
        destruct (decide (table_size s1 = table_size s)) as [Heq | Hne].
        -- rewrite <- Heq in Hsh.
           destruct (IHl prev (S j) s1 s' Hok1 Hsh Hsmall ltac:(lia) H)
             as (Hok' & Hts' & Hst' & Hocc' & Hinv').
           split; [done |]. split; [congruence |].
           split; [eauto using same_store_trans |]. split.
           ++ rewrite Hocc', Hocc1. rewrite !occupied_cons.
              rewrite (decide_False (P := k = 0)) by done. simpl.
              by rewrite Permutation_middle.
           ++ intros Hs Hf. inversion Hf as [| ? ? Hk' Hf']; subst.
              apply Hinv'; [by apply Hinv1 |].
              revert Hf'. apply List.Forall_impl.
              intros x Hx. by eapply hand_ok_same_store.
        -- exfalso.
           pose proof (table_ok_grown _ _ Hok Hok1 ltac:(lia)) as Hg.
           pose proof (table_ok_pos _ Hok) as Hp.
           assert (Z.shiftr (table_size s) 1 < table_size s) as Hhalf.
           { rewrite shiftr_1. apply Z.div_lt; lia. }
           rewrite IHa in H; [done | done | left; lia | lia | lia].
    + injection H as <-. assert (j = length prev) as -> by lia.
      unfold loop_post. rewrite drop_all.
      split; [done |]. split; [done |]. split; [apply same_store_refl |].
      split; [by rewrite app_nil_r | done].
  - (* the loop, once the table is larger than [double_size] made it *)
    intros prev j s Hok Han Hj Hj32.
    rewrite double_size_loop_S.
    rewrite decide_True by lia.
    destruct (load prev j) as [k |] eqn:Hk; [| done]. simpl.
    apply load_Some in Hk as [_ Hk]. apply lookup_lt_Some in Hk.
    assert (0 <= u32 (j + 1) <= Z.of_nat (length prev) /\ u32 (j + 1) < 2 ^ 32)
      as [Hj' Hj32'].
    { pose proof (u32_range (j + 1)). unfold u32 in *.
      pose proof (Z.mod_le (j + 1) (2 ^ 32)). lia. }
    destruct (decide (k = 0)) as [-> | Hnz]; simpl.
    + by apply IHa.
    + destruct (insert fuel s k) as [s1 |] eqn:Hi; [| done]. simpl.
      destruct (IHi _ _ _ Hok Hi) as (Hok1 & Hts1 & _).
      apply IHa; try done.
      assert (Z.shiftr (table_size s) 1 <= Z.shiftr (table_size s1) 1).
      { rewrite !shiftr_1. apply Z.div_le_mono; lia. }
      lia.
Qed.

(** ** Construction and insertion *)

Lemma length_realloc {A} (junk : nat -> A) l n :
  0 <= n -> Z.of_nat (length (realloc junk l n)) = n.
Proof.
  intros Hn. unfold realloc.
  rewrite length_app, length_take, length_fmap, length_seq. lia.
Qed.

Lemma lookup_realloc {A} (junk : nat -> A) l n (j : nat) :
  (j < length l)%nat -> Z.of_nat j < n -> realloc junk l n !! j = l !! j.
Proof.
  intros Hj Hn. unfold realloc.
  rewrite lookup_app_l by (rewrite length_take; lia).
  apply lookup_take_lt. lia.
Qed.

Lemma shl_int_1_Some s ts :
  shl_int_1 s = Some ts -> 0 <= s < 31 /\ ts = 2 ^ s.
Proof.
  unfold shl_int_1. destruct (decide _) as [Hs | ]; [| done].
  intros [= <-]. split; [done |].
  rewrite Z.shiftl_mul_pow2 by lia. lia.
Qed.

Lemma table_ok_calloc (m : Z) s :
  0 <= m <= 63 -> table_size s = 2 ^ m -> table s = calloc (2 ^ m) -> table_ok s.
Proof.
  intros Hm Hts Ht. exists m. split; [done |]. split; [done |].
  rewrite Ht, Hts. unfold calloc. rewrite length_replicate.
  apply Z2Nat.id. apply Z.pow_nonneg. lia.
Qed.

Lemma built_new initial_size s :
  small_cuckoo_new initial_size = Some s -> built s [].
Proof.
  unfold small_cuckoo_new. intros H.
  destruct (shl_int_1 _) as [ts |] eqn:Hts; [| done].
  apply shl_int_1_Some in Hts as [Hsh ->]. injection H as <-.
  pose proof (u16_range (1 + initial_size)).
  unfold built. simpl. split_and!.
  - by apply (table_ok_calloc (u64 (ceil_pow2 initial_size + 1))); [lia | |].
  - intros h j Hj Hnz. simpl in Hj. unfold calloc in Hj.
    by apply lookup_replicate in Hj as [-> _].
  - done.
  - unfold malloc. apply length_realloc. lia.
  - lia.
  - lia.
  - done.
  - unfold calloc. by rewrite occupied_replicate.
Qed.

Lemma built_append s kvs k v s1 i :
  built s kvs -> append s k v = Some (s1, i) ->
  i = 1 + Z.of_nat (length kvs) /\
  table_ok s1 /\ slot_invariant s1 /\ hand_ok s1 i /\
  table s1 = table s /\
  n_entries s1 = 1 + Z.of_nat (length (kvs ++ [(k, v)])) /\
  Z.of_nat (length (entries s1)) = entries_len s1 /\
  0 <= entries_len s1 < 65536 /\
  (forall j k' v', (kvs ++ [(k, v)]) !! j = Some (k', v') ->
     entries s1 !! S j = Some (Entry k' v')).
Proof.
  intros (Hok & Hinv & Hn & Hlen & Hlen16 & Hent & Hocc) H.
  unfold append in H. destruct (decide (n_entries s > 0)) as [Hpos |]; [| done].
  remember (u16 (n_entries s + 1)) as n eqn:En.
  remember (if decide (n >= entries_len s)
            then u16 (Z.shiftl (entries_len s) 1) else entries_len s)
    as len eqn:Elen.
  remember (if decide (n >= entries_len s)
            then realloc heap_entry (entries s) len else entries s)
    as es eqn:Ees.
  destruct (store es (n_entries s) (Entry k v)) as [es' |] eqn:Hst; [| done].
  simpl in H. injection H as <- <-.
  apply store_Some in Hst as [Hi ->].
  assert (0 <= len < 65536) as Hlen'.
  { subst len. destruct (decide _); [apply u16_range | done]. }
  assert (Z.of_nat (length es) = len) as Hes.
  { subst es. destruct (decide _); [| by subst len].
    apply length_realloc. lia. }
  assert (n = n_entries s + 1) as Hn'.
  { subst n. apply u16_small. lia. }
  assert (forall j : nat,
            0 < Z.of_nat j < n_entries s -> es !! j = entries s !! j) as Hkeep.
  { intros j Hj. subst es. destruct (decide _); [| done].
    destruct j as [| j]; [lia |].
    destruct (lookup_lt_is_Some_2 kvs j ltac:(lia)) as [[k' v'] Hkv].
    apply Hent, lookup_lt_Some in Hkv.
    apply lookup_realloc; [done | lia]. }
  rewrite length_app. simpl.
  split; [lia |].
  split; [destruct Hok as (m & ? & ? & ?); by exists m |].
  split.
  { intros h j Hj Hnz. simpl in Hj.
    destruct (Hinv h j Hj Hnz) as (Hj' & e & He & Hh).
    split; [simpl; lia |]. exists e. split; [| done].
    simpl. apply load_Some in He as [? He]. apply load_Some. split; [done |].
    rewrite list_lookup_insert_ne by lia.
    rewrite Hkeep by lia. done. }
  split; [right; simpl; lia |].
  split; [done |].
  split; [lia |].
  split; [by rewrite length_insert |].
  split; [done |].
  intros j k' v' Hj.
  destruct (decide (j = length kvs)) as [-> | Hne].
  - rewrite lookup_app_r, Nat.sub_diag in Hj by lia. simpl in Hj.
    injection Hj as <- <-.
    replace (S (length kvs)) with (Z.to_nat (n_entries s)) by lia.
    apply list_lookup_insert_eq. lia.
  - assert (j < length kvs)%nat as Hlt.
    { apply lookup_lt_Some in Hj. rewrite length_app in Hj. simpl in Hj. lia. }
    rewrite lookup_app_l in Hj by done.
    rewrite list_lookup_insert_ne by lia.
    rewrite Hkeep by lia. by apply Hent.
Qed.

Lemma built_insert fuel s kvs k v s' :
  built s kvs -> small_cuckoo_insert fuel s k v = Some s' ->
  built s' (kvs ++ [(k, v)]).
Proof.
  intros Hb H. unfold small_cuckoo_insert in H.
  destruct (append s k v) as [[s1 i] |] eqn:Ha; [| done]. simpl in H.
  destruct (built_append _ _ _ _ _ _ Hb Ha)
    as (Hi & Hok1 & Hinv1 & Hh1 & Ht1 & Hn1 & Hl1 & Hl16 & Hent1).
  destruct (insert_correct fuel) as (Hins & _).
  destruct (Hins _ _ _ Hok1 H) as (Hok' & _ & (En & El & Ee) & Hocc' & Hinv').
  destruct Hb as (_ & _ & _ & _ & _ & _ & Hocc).
  unfold built. rewrite En, El, Ee.
  split; [done |]. split; [by apply Hinv' |].
  split; [done |]. split; [done |]. split; [done |]. split; [done |].
  rewrite Hocc', occupied_cons, Ht1, Hocc.
  rewrite decide_False by lia. simpl.
  rewrite length_app. simpl. rewrite Nat.add_1_r, seq_S, fmap_app. simpl.
  rewrite <- Permutation_cons_append. f_equiv. lia.
Qed.

Lemma built_insert_all fuel kvs' s kvs s' :
  built s kvs -> insert_all fuel s kvs' = Some s' -> built s' (kvs ++ kvs').
Proof.
  revert s kvs. induction kvs' as [| [k v] kvs' IH]; intros s kvs Hb H; simpl in H.
  - injection H as <-. by rewrite app_nil_r.
  - destruct (small_cuckoo_insert fuel s k v) as [s1 |] eqn:H1; [| done].
    simpl in H. rewrite (cons_middle _ kvs kvs'), app_assoc.
    eapply IH; [| done]. by eapply built_insert.
Qed.

(** ** [small_cuckoo_find] *)

Lemma probe_hit s (h : nat) i k v :
  table s !! h = Some i -> i <> 0 -> load (entries s) i = Some (Entry k v) ->
  probe s (Z.of_nat h) k = Some (Some v).
Proof.
  intros Ht Hnz He. unfold probe. rewrite load_nat, Ht. simpl.
  rewrite decide_False by done. rewrite He. simpl.
  by rewrite decide_True.
Qed.

(** In a built table with distinct keys a probe for the key of pair [j]
    finds the value of pair [j] or nothing. *)
Lemma probe_sound s kvs (h : nat) t j k v :
  built s kvs -> NoDup kvs.*1 -> kvs !! j = Some (k, v) ->
  table s !! h = Some t ->
  probe s (Z.of_nat h) k = Some None \/ probe s (Z.of_nat h) k = Some (Some v).
Proof.
  intros (Hok & Hinv & Hn & _ & _ & Hent & _) Hnd Hj Ht.
  unfold probe. rewrite load_nat, Ht. simpl.
  destruct (decide (t = 0)) as [| Hnz]; [by left |].
  destruct (Hinv h t Ht Hnz) as (Hr & e & He & _). rewrite He. simpl.
  destruct (decide (key e = k)) as [Hk | ]; [right | by left].
  apply load_Some in He as [_ He].
  destruct (Z.to_nat t) as [| j'] eqn:Et; [lia |].
  destruct (lookup_lt_is_Some_2 kvs j' ltac:(lia)) as [[k' v'] Hj'].
  rewrite (Hent _ _ _ Hj') in He. injection He as <-. simpl in Hk. subst k'.
  assert (j' = j) as ->.
  { eapply NoDup_lookup; [exact Hnd | |]; rewrite list_lookup_fmap.
    - by rewrite Hj'.
    - by rewrite Hj. }
  rewrite Hj in Hj'. by injection Hj' as ->.
Qed.

Lemma find_built s kvs j k v :
  built s kvs -> NoDup kvs.*1 -> kvs !! j = Some (k, v) ->
  small_cuckoo_find s k = Some (Some v).
Proof.
  intros Hb Hnd Hj.
  pose proof Hb as (Hok & Hinv & Hn & _ & _ & Hent & Hocc).
  assert (Z.of_nat (S j) ∈ occupied (table s)) as Hin.
  { rewrite Hocc. apply list_elem_of_fmap. exists (S j). split; [done |].
    apply elem_of_seq. apply lookup_lt_Some in Hj. lia. }
  apply elem_of_occupied in Hin as [Hnz Hin].
  apply list_elem_of_lookup in Hin as [h Hh].
  destruct (Hinv h _ Hh Hnz) as (_ & e & He & Hsel).
  assert (e = Entry k v) as ->.
  { apply load_Some in He as [_ He]. rewrite Nat2Z.id in He.
    rewrite (Hent _ _ _ Hj) in He. by injection He. }
  simpl in Hsel. unfold small_cuckoo_find.
  destruct (Z.even (Z.of_nat h)) eqn:Hpar.
  - rewrite Hsel. by rewrite (probe_hit _ _ _ _ _ Hh Hnz He).
  - destruct Hok as (m & Hm & Hts & Hlen).
    assert (1 <= m) as Hm1.
    { destruct (decide (m = 0)) as [-> | ]; [| lia].
      apply lookup_lt_Some in Hh. rewrite Hts in Hlen.
      assert (h = 0%nat) as -> by lia. done. }
    pose proof (hash_1_range m k ltac:(lia)) as Hr. rewrite <- Hts in Hr.
    destruct (lookup_lt_is_Some_2 (table s)
                (Z.to_nat (hash_1 (table_size s) k)) ltac:(lia)) as [t Ht].
    rewrite <- (Z2Nat.id (hash_1 (table_size s) k)) by lia.
    destruct (probe_sound _ _ _ _ _ _ _ Hb Hnd Hj Ht) as [-> | ->]; simpl.
    + rewrite Hsel. by rewrite (probe_hit _ _ _ _ _ Hh Hnz He).
    + done.
Qed.

(** C1, as amended: when every insertion of a sequence of pairs with
    distinct keys into a freshly constructed table has returned, [find]
    on each of the keys succeeds with the value inserted with it. *)
Theorem find_after_inserts initial_size fuel kvs s0 s k v :
  small_cuckoo_new initial_size = Some s0 ->
  insert_all fuel s0 kvs = Some s ->
  NoDup kvs.*1 -> (k, v) ∈ kvs ->
  small_cuckoo_find s k = Some (Some v).
Proof.
  intros Hnew Hall Hnd Hin.
  apply built_new in Hnew.
  pose proof (built_insert_all _ _ _ _ _ Hnew Hall) as Hb. simpl in Hb.
  apply list_elem_of_lookup in Hin as [j Hj].
  by eapply find_built.
Qed.

(** ** Keys that share both candidate slots *)

(** The slot computed from a hash value depends on its low 15 bits only,
    whatever the size of the table. *)
Lemma slot_low15 x y n :
  x mod 2 ^ 15 = y mod 2 ^ 15 ->
  Z.shiftl (Z.land x n) 1 mod 2 ^ 16 = Z.shiftl (Z.land y n) 1 mod 2 ^ 16.
Proof.
  intros E. rewrite !shiftl_1.
  change (2 ^ 16) with (2 * 2 ^ 15). rewrite !Z.mul_mod_distr_l by lia.
  f_equal. rewrite <- !Z.land_ones by lia.
  rewrite <- !Z.land_assoc, !(Z.land_comm n), !Z.land_assoc.
  rewrite !Z.land_ones by lia. by rewrite E.
Qed.

Lemma hash_1_low15 n k k' :
  larsons_hash k mod 2 ^ 15 = larsons_hash k' mod 2 ^ 15 ->
  hash_1 n k = hash_1 n k'.
Proof. intros E. unfold hash_1, u16. by apply slot_low15. Qed.

Lemma hash_2_low15 n k k' :
  folded k mod 2 ^ 15 = folded k' mod 2 ^ 15 -> hash_2 n k = hash_2 n k'.
Proof.
  intros E. unfold hash_2, u16. fold (folded k) (folded k').
  rewrite (Z.add_mod 1), (Z.add_mod 1 (Z.shiftl (Z.land (folded k') _) _)) by lia.
  by rewrite (slot_low15 _ _ _ E).
Qed.

Lemma same_slots_low15 k k' :
  larsons_hash k mod 2 ^ 15 = larsons_hash k' mod 2 ^ 15 ->
  folded k mod 2 ^ 15 = folded k' mod 2 ^ 15 ->
  same_slots k k'.
Proof. intros E1 E2 n. split; [by apply hash_1_low15 | by apply hash_2_low15]. Qed.

(** The slot of pair [j] of a built table. *)
Lemma built_slot s kvs j k v :
  built s kvs -> kvs !! j = Some (k, v) ->
  exists h : nat, table s !! h = Some (Z.of_nat (S j)) /\
    (Z.of_nat h = hash_1 (table_size s) k \/ Z.of_nat h = hash_2 (table_size s) k).
Proof.
  intros (Hok & Hinv & Hn & _ & _ & Hent & Hocc) Hj.
  assert (Z.of_nat (S j) ∈ occupied (table s)) as Hin.
  { rewrite Hocc. apply list_elem_of_fmap. exists (S j). split; [done |].
    apply elem_of_seq. apply lookup_lt_Some in Hj. lia. }
  apply elem_of_occupied in Hin as [Hnz Hin].
  apply list_elem_of_lookup in Hin as [h Hh].
  destruct (Hinv h _ Hh Hnz) as (_ & e & He & Hsel).
  apply load_Some in He as [_ He]. rewrite Nat2Z.id in He.
  rewrite (Hent _ _ _ Hj) in He. injection He as <-. simpl in Hsel.
  exists h. split; [done |]. destruct (Z.even _); auto.
Qed.

(** Three entries whose keys share both candidate slots do not fit. *)
Lemma three_in_two_slots s kvs j1 j2 j3 k1 k2 k3 v1 v2 v3 :
  built s kvs ->
  kvs !! j1 = Some (k1, v1) -> kvs !! j2 = Some (k2, v2) ->
  kvs !! j3 = Some (k3, v3) ->
  j1 <> j2 -> j1 <> j3 -> j2 <> j3 ->
  same_slots k1 k2 -> same_slots k1 k3 -> False.
Proof.
  intros Hb H1 H2 H3 N12 N13 N23 S12 S13.
  destruct (built_slot _ _ _ _ _ Hb H1) as (h1 & T1 & C1).
  destruct (built_slot _ _ _ _ _ Hb H2) as (h2 & T2 & C2).
  destruct (built_slot _ _ _ _ _ Hb H3) as (h3 & T3 & C3).
  destruct (S12 (table_size s)) as [E1 E2]. rewrite <- E1, <- E2 in C2.
  destruct (S13 (table_size s)) as [E3 E4]. rewrite <- E3, <- E4 in C3.
  assert (h1 = h2 \/ h1 = h3 \/ h2 = h3) as [-> | [-> | ->]] by lia.
  - rewrite T1 in T2. injection T2. lia.
  - rewrite T1 in T3. injection T3. lia.
  - rewrite T2 in T3. injection T3. lia.
Qed.

(** ** Growth *)


(** ** The entry store *)

(** [insert] leaves the entry store alone, whatever the table. *)
Lemma insert_same_store fuel :
  (forall s i s', insert fuel s i = Some s' -> same_store s s') /\
  (forall s s', double_size fuel s = Some s' -> same_store s s') /\
  (forall prev j s s', double_size_loop fuel prev j s = Some s' -> same_store s s').
Proof.
  induction fuel as [| fuel (IHi & IHd & IHl)]; [done |].
  split; [| split].
  - intros s i s' H. rewrite insert_S in H.
    destruct (eviction_loop MAX_LOOPS s i) as [r |] eqn:Hr; [| done].
    apply eviction_loop_post in Hr. simpl in H.
    destruct r as [s1 | s1 i1]; destruct Hr as (_ & _ & Hst & _).
    + by injection H as <-.
    + destruct (double_size fuel s1) as [s2 |] eqn:Hd; [| done]. simpl in H.
      eauto using same_store_trans.
  - intros s s' H. rewrite double_size_S in H. by apply IHl in H.
  - intros prev j s s' H. rewrite double_size_loop_S in H.
    destruct (decide _); [| by injection H as <-; apply same_store_refl].
    destruct (load prev j) as [k |]; [| done]. simpl in H.
    destruct (decide (k = 0)); simpl in H; [by eapply IHl |].
    destruct (insert fuel s k) as [s1 |] eqn:Hi; [| done]. simpl in H.
    eauto using same_store_trans.
Qed.

(** C9: a call of [small_cuckoo_insert] that returns has stored its pair at
    index [n_entries], has left the entries below it as they were, and has
    added one to [n_entries]; it never looks for the key.  So two calls with
    the same key leave two entries with that key. *)
Theorem insert_appends fuel s k v s' :
  Z.of_nat (length (entries s)) <= 65535 ->
  small_cuckoo_insert fuel s k v = Some s' ->
  n_entries s' = n_entries s + 1 /\
  load (entries s') (n_entries s) = Some (Entry k v) /\
  Z.of_nat (length (entries s')) <= 65535 /\
  (forall j e, 0 <= j < n_entries s ->
     load (entries s) j = Some e -> load (entries s') j = Some e) /\
  (forall fuel' v' s'',
     small_cuckoo_insert fuel' s' k v' = Some s'' ->
     n_entries s'' = n_entries s + 2 /\
     load (entries s'') (n_entries s) = Some (Entry k v) /\
     load (entries s'') (n_entries s + 1) = Some (Entry k v')).
Proof.
  assert (forall fuel s k v s',
    Z.of_nat (length (entries s)) <= 65535 ->
    small_cuckoo_insert fuel s k v = Some s' ->
    0 < n_entries s /\
    n_entries s' = n_entries s + 1 /\
    load (entries s') (n_entries s) = Some (Entry k v) /\
    Z.of_nat (length (entries s')) <= 65535 /\
    (forall j e, 0 <= j < n_entries s ->
       load (entries s) j = Some e -> load (entries s') j = Some e)) as Hone.
  { clear. intros fuel s k v s' Hlen H. unfold small_cuckoo_insert in H.
    destruct (append s k v) as [[s1 i] |] eqn:Ha; [| done]. simpl in H.
    destruct (insert_same_store fuel) as (Hfr & _).
    destruct (Hfr _ _ _ H) as (-> & _ & ->). clear H Hfr.
    unfold append in Ha.
    destruct (decide (n_entries s > 0)) as [Hpos |]; [| done].
    remember (u16 (n_entries s + 1)) as n eqn:En.
    remember (if decide (n >= entries_len s)
              then u16 (Z.shiftl (entries_len s) 1) else entries_len s)
      as len eqn:Elen.
    remember (if decide (n >= entries_len s)
              then realloc heap_entry (entries s) len else entries s)
      as es eqn:Ees.
    destruct (store es (n_entries s) (Entry k v)) as [es' |] eqn:Hst; [| done].
    simpl in Ha. injection Ha as <- <-. simpl.
    apply store_Some in Hst as [Hi ->].
    assert (Z.of_nat (length es) <= 65535) as Hes.
    { subst es. destruct (decide _); [| done].
      pose proof (u16_range (Z.shiftl (entries_len s) 1)).
      pose proof (length_realloc heap_entry (entries s) len). lia. }
    assert (forall j e, 0 <= j < n_entries s ->
              load (entries s) j = Some e -> load es j = Some e) as Hkeep.
    { intros j e Hj He. subst es. destruct (decide _); [| done].
      apply load_Some in He as [_ He]. apply load_Some. split; [lia |].
      pose proof (length_realloc heap_entry (entries s) len) as Hl.
      pose proof (u16_range (Z.shiftl (entries_len s) 1)).
      rewrite lookup_realloc; [done | by eapply lookup_lt_Some | lia]. }
    split; [lia |]. split; [subst n; apply u16_small; lia |].
    split. { apply load_Some. split; [lia |]. apply list_lookup_insert_eq. lia. }
    split; [by rewrite length_insert |].
    intros j e Hj He. apply Hkeep in He; [| done].
    apply load_Some in He as [? He]. apply load_Some. split; [done |].
    rewrite list_lookup_insert_ne by lia. done. }
  intros Hlen H.
  destruct (Hone _ _ _ _ _ Hlen H) as (Hpos & Hn & Hat & Hlen' & Hold).
  split; [done |]. split; [done |]. split; [done |]. split; [done |].
  intros fuel' v' s'' H'.
  destruct (Hone _ _ _ _ _ Hlen' H') as (_ & Hn' & Hat' & _ & Hold').
  rewrite Hn in Hn', Hat'. split; [lia |]. split; [| done].
  apply Hold'; [lia | done].
Qed.

Lemma store_ok_new s : small_cuckoo_new 0 = Some s -> store_ok s.
Proof.
  unfold small_cuckoo_new. intros H.
  destruct (shl_int_1 _) as [ts |]; [| done]. injection H as <-.
  exists 0. simpl. split_and!; try done.
Qed.

Lemma pow2_le_15 p : 0 <= p <= 15 -> 2 ^ p < 32768 -> 2 * 2 ^ p <= 32768.
Proof.
  intros Hp Hlt. change 32768 with (2 ^ 15) in *.
  apply pow2_lt_twice; lia.
Qed.

(** One more entry: the store stays well-formed below [2 ^ 15 - 1] entries,
    and entry [2 ^ 15 - 1] cannot be stored, because [entries_len <<= 1]
    turns [2 ^ 15] into 0. *)
Lemma store_ok_insert fuel s k v s' :
  store_ok s -> small_cuckoo_insert fuel s k v = Some s' ->
  store_ok s' /\ n_entries s' = n_entries s + 1.
Proof.
  intros (p & Hp & Hlen & Hn & Hn2 & Hn15 & Hes) H.
  unfold small_cuckoo_insert in H.
  destruct (append s k v) as [[s1 i] |] eqn:Ha; [| done]. simpl in H.
  destruct (insert_same_store fuel) as (Hfr & _).
  destruct (Hfr _ _ _ H) as (En & El & Ee). clear H Hfr.
  unfold store_ok. rewrite En, El, Ee. clear En El Ee s'.
  unfold append in Ha. rewrite decide_True in Ha by lia.
  rewrite (u16_small (n_entries s + 1)) in Ha by lia.
  assert (0 < 2 ^ p) as Hpos by (apply Z.pow_pos_nonneg; lia).
  destruct (decide (n_entries s + 1 >= entries_len s)) as [Hfull | Hroom].
  - rewrite shiftl_1, Hlen in Ha.
    destruct (decide (2 ^ p < 32768)) as [Hsmall | Hbig].
    + pose proof (pow2_le_15 p Hp Hsmall) as Hle.
      rewrite u16_small in Ha by lia.
      destruct (store _ _ _) as [es' |] eqn:Hst; [| done].
      simpl in Ha. injection Ha as <- <-. simpl.
      apply store_Some in Hst as [Hi ->].
      assert (p < 15) as Hp15.
      { apply (Z.pow_lt_mono_r_iff 2); [lia | lia | done]. }
      split; [| done]. exists (p + 1).
      rewrite Z.pow_add_r by lia. change (2 ^ 1) with 2.
      rewrite length_insert, length_realloc by lia.
      split_and!; lia.
    + assert (2 ^ p = 32768) as E.
      { assert (2 ^ p <= 2 ^ 15) by (apply Z.pow_le_mono_r; lia).
        change (2 ^ 15) with 32768 in *. lia. }
      rewrite E in Ha. change (u16 (2 * 32768)) with 0 in Ha.
      unfold store in Ha. rewrite decide_False in Ha; [done |].
      rewrite length_realloc by lia. lia.
  - destruct (store _ _ _) as [es' |] eqn:Hst; [| done].
    simpl in Ha. injection Ha as <- <-. simpl.
    apply store_Some in Hst as [Hi ->].
    split; [| done]. exists p. rewrite length_insert.
    split_and!; try lia.
    assert (2 ^ p <= 2 ^ 15) by (apply Z.pow_le_mono_r; lia).
    change (2 ^ 15) with 32768 in *. lia.
Qed.

Lemma store_ok_insert_all fuel kvs s :
  store_ok s -> 32768 <= n_entries s + Z.of_nat (length kvs) ->
  insert_all fuel s kvs = None.
Proof.
  revert s. induction kvs as [| [k v] kvs IH]; intros s Hs Hn; simpl in *.
  - destruct Hs as (p & _ & _ & _ & _ & ? & _). lia.
  - destruct (small_cuckoo_insert fuel s k v) as [s' |] eqn:Hi; [| done].
    simpl. destruct (store_ok_insert _ _ _ _ _ Hs Hi) as [Hs' Hn'].
    apply IH; [done | lia].
Qed.

(** C8, what the code does: starting from [small_cuckoo_new (0)], no
    sequence of 32767 insertions returns.  ([uint16_t entries_len] is
    doubled from [2 ^ 15] to 0 when entry [2 ^ 15 - 1] is appended.) *)
Theorem entry_store_overflow fuel s0 kvs :
  small_cuckoo_new 0 = Some s0 -> Z.of_nat (length kvs) = 32767 ->
  insert_all fuel s0 kvs = None.
Proof.
  intros Hnew Hlen. apply store_ok_insert_all; [by apply store_ok_new |].
  unfold small_cuckoo_new in Hnew.
  destruct (shl_int_1 _); [| done]. injection Hnew as <-. simpl. lia.
Qed.

(** ** Iteration *)

(** With [2 ^ 16] slots or more the [uint16_t] cursor is always below
    [table_size]: the loops of the iterator never end with "no". *)
Lemma has_next_large fuel it more it' :
  65536 <= table_size (iter_sc it) -> 0 <= iter_i it < 65536 ->
  small_cuckoo_iter_has_next fuel it = Some (more, it') ->
  more = true /\ iter_sc it' = iter_sc it /\ 0 <= iter_i it' < 65536.
Proof.
  revert it. induction fuel as [| fuel IH]; intros it Hts Hi H; [done |].
  simpl in H. rewrite decide_True in H by lia.
  destruct (load (table (iter_sc it)) (iter_i it)) as [j |]; [| done].
  simpl in H. destruct (decide (j = 0)).
  - apply IH in H; [done | done |]. simpl. apply u16_range.
  - by injection H as <- <-.
Qed.

Lemma next_large fuel it k v it' :
  0 <= iter_i it < 65536 ->
  small_cuckoo_iter_next fuel it = Some (k, v, it') ->
  iter_sc it' = iter_sc it /\ 0 <= iter_i it' < 65536.
Proof.
  revert it. induction fuel as [| fuel IH]; intros it Hi H; [done |].
  simpl in H. destruct (decide _); [| done].
  destruct (load (table (iter_sc it)) (iter_i it)) as [j |]; [| done].
  simpl in H. destruct (decide (j = 0)).
  - apply IH in H; [done |]. simpl. apply u16_range.
  - destruct (load (entries (iter_sc it)) j) as [e |]; [| done].
    simpl in H. injection H as <- <- <-. simpl. split; [done | apply u16_range].
Qed.

Lemma iterate_from_large steps fuel it kvs :
  65536 <= table_size (iter_sc it) -> 0 <= iter_i it < 65536 ->
  iterate_from steps fuel it <> Some (kvs, true).
Proof.
  revert it kvs. induction steps as [| steps IH]; intros it kvs Hts Hi; [done |].
  simpl.
  destruct (small_cuckoo_iter_has_next fuel it) as [[more it1] |] eqn:H1; [| done].
  apply has_next_large in H1 as (-> & Hsc1 & Hi1); [| done | done]. simpl.
  destruct (small_cuckoo_iter_next fuel it1) as [[[k v] it2] |] eqn:H2; [| done].
  apply next_large in H2 as (Hsc2 & Hi2); [| done]. simpl.
  destruct (iterate_from steps fuel it2) as [[kvs' ex] |] eqn:H3; [| done].
  simpl. intros [= <- ->]. eapply IH; [| | exact H3]; [| done].
  by rewrite Hsc2, Hsc1.
Qed.

(** A fresh iterator over a table of [2 ^ 16] slots or more is never
    exhausted, whatever the number of pairs it is asked for and whatever the
    fuel. *)
Lemma iterator_never_exhausted steps fuel s kvs :
  65536 <= table_size s -> iterate_all steps fuel s <> Some (kvs, true).
Proof. intros Hts. by apply iterate_from_large. Qed.

Lemma u16_succ i e : u16 (u16 (i + 1) + e) = u16 (i + (1 + e)).
Proof.
  unfold u16. rewrite Z.add_mod_idemp_l by lia. f_equal. lia.
Qed.

(** The scan of [small_cuckoo_iter_has_next] from cursor [i] stops at the
    occupied slot, [d] slots further modulo [2 ^ 16]. *)
Lemma has_next_scan (d : nat) fuel s i h j :
  one_slot s h j -> 0 <= i < 65536 ->
  u16 (i + Z.of_nat d) = h ->
  (forall e : nat, (e < d)%nat -> u16 (i + Z.of_nat e) <> h) ->
  (d < fuel)%nat ->
  small_cuckoo_iter_has_next fuel (SmallCuckooIter s i)
  = Some (true, SmallCuckooIter s h).
Proof.
  intros (Hh & Hts & Hj & Hnz & Hz).
  revert fuel i. induction d as [| d IH]; intros fuel i Hi Hd He Hf;
    (destruct fuel as [| fuel]; [lia |]); simpl;
    rewrite decide_True by lia.
  - rewrite Z.add_0_r, u16_small in Hd by done. subst i.
    rewrite Hj. simpl. by rewrite decide_False.
  - rewrite Hz; [| done |].
    2: { specialize (He 0%nat ltac:(lia)).
         by rewrite Z.add_0_r, u16_small in He. }
    simpl. apply IH; [apply u16_range | | | lia].
    + rewrite u16_succ. rewrite <- Hd. f_equal. lia.
    + intros e Hlt. rewrite u16_succ.
      specialize (He (S e) ltac:(lia)).
      by replace (1 + Z.of_nat e) with (Z.of_nat (S e)) by lia.
Qed.

Lemma next_scan (d : nat) fuel s i h j k v :
  one_slot s h j -> load (entries s) j = Some (Entry k v) ->
  0 <= i < 65536 ->
  u16 (i + Z.of_nat d) = h ->
  (forall e : nat, (e < d)%nat -> u16 (i + Z.of_nat e) <> h) ->
  (d < fuel)%nat ->
  small_cuckoo_iter_next fuel (SmallCuckooIter s i)
  = Some (k, v, SmallCuckooIter s (u16 (h + 1))).
Proof.
  intros (Hh & Hts & Hj & Hnz & Hz) Hent.
  revert fuel i. induction d as [| d IH]; intros fuel i Hi Hd He Hf;
    (destruct fuel as [| fuel]; [lia |]); simpl;
    rewrite decide_True by lia.
  - rewrite Z.add_0_r, u16_small in Hd by done. subst i.
    rewrite Hj. simpl. rewrite decide_False by done. by rewrite Hent.
  - rewrite Hz; [| done |].
    2: { specialize (He 0%nat ltac:(lia)).
         by rewrite Z.add_0_r, u16_small in He. }
    simpl. apply IH; [apply u16_range | | | lia].
    + rewrite u16_succ. rewrite <- Hd. f_equal. lia.
    + intros e Hlt. rewrite u16_succ.
      specialize (He (S e) ltac:(lia)).
      by replace (1 + Z.of_nat e) with (Z.of_nat (S e)) by lia.
Qed.

(** From any cursor the occupied slot is less than [2 ^ 16] slots ahead. *)
Lemma slot_ahead i h :
  0 <= i < 65536 -> 0 <= h < 65536 ->
  exists d : nat, Z.of_nat d < 65536 /\ u16 (i + Z.of_nat d) = h /\
    forall e : nat, (e < d)%nat -> u16 (i + Z.of_nat e) <> h.
Proof.
  intros Hi Hh. exists (Z.to_nat ((h - i) mod 65536)).
  pose proof (Z.mod_pos_bound (h - i) 65536 ltac:(lia)) as Hd.
  rewrite Z2Nat.id by lia. split; [lia |]. unfold u16.
  change (2 ^ 16) with 65536. split.
  - rewrite Z.add_mod_idemp_r by lia.
    replace (i + (h - i)) with h by lia. by apply Z.mod_small.
  - intros e He Heq.
    assert (Z.of_nat e < (h - i) mod 65536) as He' by lia. clear He.
    revert He' Heq.
    generalize (Z.of_nat e) (Nat2Z.is_nonneg e). intros x Hx He Heq.
    assert ((h - i) mod 65536 = x mod 65536) as E.
    { rewrite <- Heq. rewrite Zminus_mod_idemp_l. f_equal. lia. }
    rewrite (Z.mod_small x) in E by lia. lia.
Qed.

Lemma iterate_from_S steps fuel it :
  iterate_from (S steps) fuel it =
  ('(more, it) ← small_cuckoo_iter_has_next fuel it;
   if more : bool then
     '(k, v, it) ← small_cuckoo_iter_next fuel it;
     '(kvs, exhausted) ← iterate_from steps fuel it;
     Some ((k, v) :: kvs, exhausted)
   else Some ([], true)).
Proof. done. Qed.

Lemma iterate_one_slot (m fuel : nat) s i h j k v :
  one_slot s h j -> load (entries s) j = Some (Entry k v) ->
  65536 <= Z.of_nat fuel -> 0 <= i < 65536 ->
  iterate_from m fuel (SmallCuckooIter s i) = Some (replicate m (k, v), false).
Proof.
  intros Hs Hent Hfuel.
  revert i. induction m as [| m IH]; intros i Hi; [done |].
  pose proof Hs as (Hh & _).
  destruct (slot_ahead i h Hi Hh) as (d & Hd & Hat & Hbefore).
  rewrite iterate_from_S.
  rewrite (has_next_scan d fuel s i h j Hs Hi Hat Hbefore ltac:(lia)).
  cbn [mbind option_bind].
  rewrite (next_scan 0 fuel s h h j k v Hs Hent Hh); [| | | lia].
  - cbn [mbind option_bind]. rewrite IH; [done | apply u16_range].
  - rewrite Z.add_0_r. by apply u16_small.
  - intros e He. lia.
Qed.

(** An index whose first candidate slot is empty is placed there. *)
Lemma X_empty fn s i e :
  load (entries s) i = Some e ->
  load (table s) (fn (table_size s) (key e)) = Some 0 ->
  X fn s i
  = Some (with_table s (table_size s)
            (<[Z.to_nat (fn (table_size s) (key e)) := i]> (table s)), 0).
Proof.
  intros He Ht. unfold X. rewrite He. simpl. rewrite Ht. simpl.
  destruct (xor_swap i 0) as [E1 E2]. rewrite E2, E1.
  by rewrite (load_store _ _ _ _ Ht).
Qed.

Lemma insert_empty fuel s i e :
  load (entries s) i = Some e ->
  load (table s) (hash_1 (table_size s) (key e)) = Some 0 ->
  insert (S fuel) s i
  = Some (with_table s (table_size s)
            (<[Z.to_nat (hash_1 (table_size s) (key e)) := i]> (table s))).
Proof.
  intros He Ht. rewrite insert_S. change MAX_LOOPS with (S 19).
  rewrite eviction_loop_S, (X_empty _ _ _ _ He Ht). done.
Qed.

(** Appending when the entry store has room. *)
Lemma append_room s k v :
  0 < n_entries s -> n_entries s + 1 < entries_len s ->
  entries_len s <= 65536 ->
  n_entries s < Z.of_nat (length (entries s)) ->
  append s k v
  = Some (SmallCuckoo (table_size s) (table s) (n_entries s + 1) (entries_len s)
            (<[Z.to_nat (n_entries s) := Entry k v]> (entries s)), n_entries s).
Proof.
  intros Hpos Hroom Hlen Hin. unfold append.
  rewrite decide_True by lia. rewrite u16_small by lia.
  rewrite !decide_False by lia.
  unfold store. by rewrite decide_True by lia.
Qed.

(** C7, what the code does: a table made with hint 9 has [2 ^ 17] slots.
    After one insertion a fresh iterator delivers the pair as often as it is
    asked to, and is never exhausted. *)
Theorem iterator_wraps k v (m : nat) :
  exists s0 s,
    small_cuckoo_new 9 = Some s0 /\
    small_cuckoo_insert 1 s0 k v = Some s /\
    iterate_all m (Z.to_nat 65536) s = Some (replicate m (k, v), false) /\
    forall steps fuel kvs, iterate_all steps fuel s <> Some (kvs, true).
Proof.
  set (h := hash_1 131072 k).
  set (es := <[1%nat := Entry k v]> (malloc heap_entry 10)).
  exists (SmallCuckoo 131072 (calloc 131072) 1 10 (malloc heap_entry 10)),
         (SmallCuckoo 131072 (<[Z.to_nat h := 1]> (calloc 131072)) 2 10 es).
  assert (0 <= h < 65536) as Hh by apply u16_range.
  assert (length (calloc 131072) = Z.to_nat 131072) as Hlen
    by apply length_replicate.
  assert (forall x, 0 <= x < 131072 -> load (calloc 131072) x = Some 0) as Hz.
  { intros x Hx. apply load_Some. split; [lia |].
    apply lookup_replicate. split; [done | lia]. }
  assert (load es 1 = Some (Entry k v)) as Hes by done.
  split; [done |]. split.
  { unfold small_cuckoo_insert.
    rewrite append_room; cbn [n_entries entries_len entries table table_size];
      [| lia | lia | lia | unfold malloc; rewrite length_realloc; lia].
    cbn [mbind option_bind].
    rewrite (insert_empty _ _ _ (Entry k v)).
    - reflexivity.
    - exact Hes.
    - cbn [n_entries entries_len entries table table_size key]. apply Hz. fold h. lia. }
  assert (one_slot (SmallCuckoo 131072 (<[Z.to_nat h := 1]> (calloc 131072)) 2 10 es)
            h 1) as Hone.
  { split; [done |]. split; [cbn [table_size]; lia |].
    cbn [table]. split; [| split; [done |]].
    - apply load_Some. split; [lia |].
      apply list_lookup_insert_eq. lia.
    - intros x Hx Hne. apply load_Some. split; [lia |].
      rewrite list_lookup_insert_ne by lia.
      apply lookup_replicate. split; [done | lia]. }
  split.
  - apply (iterate_one_slot m _ _ 0 h 1 k v); [done | done | lia | lia].
  - intros steps fuel kvs. apply iterator_never_exhausted. cbn [table_size]. lia.
Qed.

(** ** Serialisation *)

Lemma length_le_bytes n x : length (le_bytes n x) = n.
Proof. revert x. induction n as [| n IH]; intros x; simpl; by rewrite ?IH. Qed.

Lemma WRITE_UNDER_8 c x :
  WRITE_UNDER c x 8 = le_bytes 4 (u32 x) ++ le_bytes 4 (u32 (stack_word c)).
Proof.
  unfold WRITE_UNDER. apply take_ge.
  by rewrite length_app, !length_le_bytes.
Qed.

Lemma length_WRITE_UNDER_8 c x : length (WRITE_UNDER c x 8) = 8%nat.
Proof. by rewrite WRITE_UNDER_8, length_app, !length_le_bytes. Qed.

Lemma serialize_entries_cons c e es :
  serialize_entries c (e :: es)
  = WRITE_UNDER c (key e) 8 ++ WRITE_UNDER (S c) (value e) 8
      ++ serialize_entries (S (S c)) es.
Proof. done. Qed.

Lemma length_serialize_entries c es :
  length (serialize_entries c es) = (16 * length es)%nat.
Proof.
  revert c. induction es as [| e es IH]; intros c; [done |].
  rewrite serialize_entries_cons, !length_app, !length_WRITE_UNDER_8, IH.
  cbn [length]. lia.
Qed.

(** Entry [j] takes the 16 bytes from offset [16 * j]: the low 32 bits of
    the key at the start, the low 32 bits of the value 8 bytes further. *)
Lemma serialize_entries_lookup c es j e :
  es !! j = Some e ->
  take 4 (drop (16 * j) (serialize_entries c es)) = le_bytes 4 (u32 (key e)) /\
  take 4 (drop (16 * j + 8) (serialize_entries c es)) = le_bytes 4 (u32 (value e)).
Proof.
  revert c j. induction es as [| e' es IH]; intros c j Hj; [done |].
  rewrite serialize_entries_cons. destruct j as [| j].
  - injection Hj as ->. rewrite !WRITE_UNDER_8. split.
    + rewrite drop_0, <- app_assoc.
      by rewrite take_app_length' by (by rewrite length_le_bytes).
    + rewrite drop_app_length' by (by rewrite length_app, !length_le_bytes).
      rewrite <- app_assoc.
      by rewrite take_app_length' by (by rewrite length_le_bytes).
  - simpl in Hj. destruct (IH (S (S c)) j Hj) as [IHk IHv].
    rewrite app_assoc.
    assert (length (WRITE_UNDER c (key e') 8 ++ WRITE_UNDER (S c) (value e') 8)
            = 16%nat) as Hl by (by rewrite length_app, !length_WRITE_UNDER_8).
    split.
    + replace (16 * S j)%nat with (16 + 16 * j)%nat by lia.
      rewrite drop_app_add' by done. exact IHk.
    + replace (16 * S j + 8)%nat with (16 + (16 * j + 8))%nat by lia.
      rewrite drop_app_add' by done. exact IHv.
Qed.

(** C3, as amended: the stream is the 2 bytes of [n_entries], little-endian,
    followed by 16 bytes for each of the [n_entries] entries of the store in
    storage order, the entry at index 0 first; the first 4 bytes of the 8 of
    a key or value are the low 32 bits of it, little-endian.  (The other 4
    bytes are not part of the statement.) *)
Theorem serialize_layout s bytes :
  small_cuckoo_serialize s = Some bytes ->
  Z.of_nat (length bytes) = 2 + 16 * n_entries s /\
  take 2 bytes = le_bytes 2 (u32 (n_entries s)) /\
  forall (j : nat) e,
    Z.of_nat j < n_entries s -> entries s !! j = Some e ->
    take 4 (drop (2 + 16 * j) bytes) = le_bytes 4 (u32 (key e)) /\
    take 4 (drop (2 + 16 * j + 8) bytes) = le_bytes 4 (u32 (value e)).
Proof.
  unfold small_cuckoo_serialize. intros H.
  destruct (decide _) as [Hn |]; [| done]. injection H as <-.
  split; [| split].
  - cbn [length]. rewrite length_serialize_entries, length_take. lia.
  - done.
  - intros j e Hj He.
    assert (take (Z.to_nat (n_entries s)) (entries s) !! j = Some e) as He'.
    { rewrite lookup_take_lt by lia. done. }
    destruct (serialize_entries_lookup 1 _ _ _ He') as [Hk Hv].
    rewrite <- Nat.add_assoc.
    change (drop (2 + ?n) (?a :: ?b :: ?l)) with (drop n l). done.
Qed.

(** ** Deserialisation *)

(** C4, what the code does: the indices are reinserted by [insert] in
    ascending order from 0, but the slot table they are reinserted into is
    the block that [malloc] returned, with whatever it holds. *)
Theorem deserialize_table_uninitialised fuel fd s :
  deserialize_read fd = Some s ->
  table s = (fun j => u16 (heap_slot j)) <$> seq 0 (Z.to_nat (table_size s)) /\
  small_cuckoo_deserialize fuel fd
  = reinsert fuel (Z.of_nat <$> seq 0 (Z.to_nat (n_entries s))) s.
Proof.
  intros H. split.
  - unfold deserialize_read in H.
    apply bind_Some in H as ([n fd'] & _ & H).
    apply bind_Some in H as (ts & _ & H).
    apply bind_Some in H as (es & _ & H).
    injection H as <-. cbn [table table_size]. unfold malloc, realloc.
    cbn [length]. rewrite Nat.sub_0_r, take_nil, app_nil_l.
    by rewrite <- list_fmap_compose.
  - unfold small_cuckoo_deserialize. by rewrite H.
Qed.

(** * Further properties

    ** bithacks.h *)

(** *** [ceil_pow2] *)


Lemma smear_step x x' w :
  0 < w ->
  (forall n, 0 <= n -> Z.testbit x' n = true <-> covers x w n) ->
  forall n, 0 <= n ->
    Z.testbit (Z.lor x' (Z.shiftr x' w)) n = true <-> covers x (2 * w) n.
Proof.
  intros Hw Hx n Hn.
  rewrite Z.lor_spec, Z.shiftr_spec by lia.
  rewrite orb_true_iff, !Hx by lia. unfold covers. split.
  - intros [(d & Hd & Hb)|(d & Hd & Hb)].
    + exists d. split; [lia|done].
    + exists (w + d). split; [lia|]. by rewrite Z.add_assoc.
  - intros (d & Hd & Hb). destruct (decide (d < w)).
    + left. exists d. split; [lia|done].
    + right. exists (d - w). split; [lia|].
      by replace (n + w + (d - w)) with (n + d) by lia.
Qed.

Lemma smear_covers y n :
  0 <= n ->
  Z.testbit
    (let x := y in
     let x := Z.lor x (Z.shiftr x 1) in
     let x := Z.lor x (Z.shiftr x 2) in
     let x := Z.lor x (Z.shiftr x 4) in
     let x := Z.lor x (Z.shiftr x 8) in
     Z.lor x (Z.shiftr x 16)) n = true <-> covers y 32 n.
Proof.
  revert n. cbv zeta.
  apply (smear_step y _ 16); [lia|].
  apply (smear_step y _ 8); [lia|].
  apply (smear_step y _ 4); [lia|].
  apply (smear_step y _ 2); [lia|].
  apply (smear_step y _ 1); [lia|].
  intros n Hn. unfold covers. split.
  - intros Hb. exists 0. split; [lia|]. by rewrite Z.add_0_r.
  - intros (d & Hd & Hb). by replace (n + d) with n in Hb by lia.
Qed.

(** Smearing [y], a number of [m] bits with [m <= 32], gives [m] ones. *)
Lemma smear_ones y m :
  0 <= m <= 32 -> 0 <= y < 2 ^ m -> (0 < m -> 2 ^ (m - 1) <= y) ->
  (let x := y in
   let x := Z.lor x (Z.shiftr x 1) in
   let x := Z.lor x (Z.shiftr x 2) in
   let x := Z.lor x (Z.shiftr x 4) in
   let x := Z.lor x (Z.shiftr x 8) in
   Z.lor x (Z.shiftr x 16)) = Z.ones m.
Proof.
  intros Hm Hy Hlow. apply Z.bits_inj'. intros n Hn.
  apply eq_true_iff_eq. rewrite smear_covers by done.
  assert (Habove : forall j, m <= j -> Z.testbit y j = false).
  { intros j Hj. destruct (decide (y = 0)) as [->|Hy0]; [apply Z.bits_0|].
    apply Z.bits_above_log2; [lia|].
    apply Z.lt_le_trans with m; [|done].
    apply Z.log2_lt_pow2; lia. }
  destruct (decide (n < m)) as [Hlt|Hge].
  - rewrite Z.ones_spec_low by lia. split; [done|]. intros _.
    exists (m - 1 - n). split; [lia|].
    replace (n + (m - 1 - n)) with (m - 1) by lia.
    assert (Hlog : Z.log2 y = m - 1).
    { apply Z.log2_unique; [lia|]. replace (Z.succ (m - 1)) with m by lia.
      split; [apply Hlow|]; lia. }
    rewrite <- Hlog. apply Z.bit_log2.
    assert (0 < 2 ^ (m - 1)) by (apply Z.pow_pos_nonneg; lia).
    specialize (Hlow ltac:(lia)). lia.
  - rewrite Z.ones_spec_high by lia. split; [|done].
    intros (d & Hd & Hb). rewrite Habove in Hb by lia. done.
Qed.

Lemma ceil_pow2_log2_up x :
  0 < x <= 2 ^ 32 -> ceil_pow2 x = 2 ^ Z.log2_up x.
Proof.
  intros Hx. unfold ceil_pow2.
  assert (Hu : u64 (x - 1) = x - 1) by (apply u64_small; lia).
  rewrite Hu.
  destruct (decide (x = 1)) as [->|Hx1]; [done|].
  assert (Hm : 0 < Z.log2_up x <= 32).
  { split; [apply Z.log2_up_pos; lia|].
    apply Z.log2_up_le_pow2; lia. }
  pose proof (Z.log2_up_spec x ltac:(lia)) as [Hlo Hhi].
  pose proof (smear_ones (x - 1) (Z.log2_up x)) as Hs.
  cbv zeta in Hs |- *. rewrite Hs.
  - rewrite Z.ones_equiv. replace (Z.pred (2 ^ Z.log2_up x) + 1) with (2 ^ Z.log2_up x) by lia.
    apply u64_small. split; [lia|].
    apply Z.lt_le_trans with (2 ^ 33); [|lia].
    apply Z.pow_lt_mono_r; lia.
  - lia.
  - lia.
  - intros _. replace (Z.log2_up x - 1) with (Z.pred (Z.log2_up x)) by lia. lia.
Qed.

Lemma ceil_pow2_bounds x :
  0 < x <= 2 ^ 32 -> x <= ceil_pow2 x /\ ceil_pow2 x < 2 * x.
Proof.
  intros Hx. rewrite ceil_pow2_log2_up by done.
  destruct (decide (x = 1)) as [->|Hx1]; [done|].
  pose proof (Z.log2_up_spec x ltac:(lia)) as [Hlo Hhi].
  assert (0 < Z.log2_up x) by (apply Z.log2_up_pos; lia).
  split; [done|].
  replace (Z.log2_up x) with (Z.succ (Z.pred (Z.log2_up x))) by lia.
  rewrite Z.pow_succ_r by lia. lia.
Qed.

(** X1: [ceil_pow2 x] is the least power of two that is at least [x], for
    [x] from 1 to [2 ^ 32]. *)
Theorem ceil_pow2_least_power x :
  0 < x <= 2 ^ 32 ->
  exists m, 0 <= m <= 32 /\ ceil_pow2 x = 2 ^ m /\
    x <= ceil_pow2 x /\ ceil_pow2 x < 2 * x /\
    forall m', 0 <= m' -> x <= 2 ^ m' -> ceil_pow2 x <= 2 ^ m'.
Proof.
  intros Hx. destruct (ceil_pow2_bounds x Hx) as [Hge Hlt].
  exists (Z.log2_up x).
  split; [split; [apply Z.log2_up_nonneg|apply Z.log2_up_le_pow2; lia]|].
  split; [by apply ceil_pow2_log2_up|]. split; [done|]. split; [done|].
  intros m' Hm' Hle. rewrite ceil_pow2_log2_up by done.
  apply Z.pow_le_mono_r; [lia|]. apply Z.log2_up_le_pow2; lia.
Qed.


(** *** [reverse_nibbles_64] *)

(** A check that holds at each of 0 .. 63 holds below 64. *)
Lemma below_64 (P : Z -> bool) :
  forallb P (Z.of_nat <$> seq 0 64) = true ->
  forall n, 0 <= n < 64 -> P n = true.
Proof.
  intros Hc n Hn. rewrite forallb_forall in Hc. apply Hc, list_elem_of_In.
  apply list_elem_of_fmap. exists (Z.to_nat n). split; [lia|].
  apply elem_of_seq. lia.
Qed.

(** One line of [reverse_nibbles_64]: the blocks of [w] bits under the mask
    [hi] move down and those under [lo] move up. *)
Lemma swap_bit v hi lo w n :
  0 <= n < 64 ->
  Z.testbit (Z.lor (Z.shiftr (Z.land v hi) w) (u64 (Z.shiftl (Z.land v lo) w))) n
  = (Z.testbit v (n + w) && Z.testbit hi (n + w))
    || (Z.testbit v (n - w) && Z.testbit lo (n - w)).
Proof.
  intros Hn. unfold u64.
  rewrite Z.lor_spec, Z.shiftr_spec, Z.mod_pow2_bits_low, Z.shiftl_spec by lia.
  by rewrite !Z.land_spec.
Qed.

Lemma swap_bit_high v hi lo w n :
  0 <= w -> 0 <= hi < 2 ^ 64 -> 64 <= n ->
  Z.testbit (Z.lor (Z.shiftr (Z.land v hi) w) (u64 (Z.shiftl (Z.land v lo) w))) n
  = false.
Proof.
  intros Hw Hhi Hn. unfold u64.
  rewrite Z.lor_spec, Z.shiftr_spec, Z.mod_pow2_bits_high by lia.
  rewrite Z.land_spec, orb_false_r.
  assert (Hb : Z.testbit hi (n + w) = false).
  { apply (Z.bounded_iff_bits_nonneg 64 hi); lia. }
  by rewrite Hb, andb_false_r.
Qed.


Lemma swap_line v hi lo w n :
  forallb (swaps hi lo w) (Z.of_nat <$> seq 0 64) = true ->
  0 <= n < 64 ->
  0 <= Z.lxor n w < 64 /\
  Z.testbit (Z.lor (Z.shiftr (Z.land v hi) w) (u64 (Z.shiftl (Z.land v lo) w))) n
  = Z.testbit v (Z.lxor n w).
Proof.
  intros Hc Hn. pose proof (below_64 _ Hc n Hn) as Hs. unfold swaps in Hs.
  rewrite swap_bit by done.
  apply andb_true_iff in Hs as [Hr Hs]. apply andb_true_iff in Hr as [Hr1 Hr2].
  split; [lia|].
  apply orb_true_iff in Hs as [Hs|Hs];
    apply andb_true_iff in Hs as [Hs He]; apply andb_true_iff in Hs as [Hh Hl];
    apply Z.eqb_eq in He; rewrite He.
  - apply negb_true_iff in Hl. rewrite Hh, Hl, andb_true_r, andb_false_r.
    apply orb_false_r.
  - apply negb_true_iff in Hh. rewrite Hh, Hl, andb_true_r, andb_false_r.
    done.
Qed.

Lemma reverse_nibbles_64_bit v n :
  0 <= n < 64 ->
  Z.testbit (reverse_nibbles_64 v) n = Z.testbit v (Z.lxor n 60).
Proof.
  intros Hn. unfold reverse_nibbles_64. cbv zeta.
  edestruct (swap_line) as [H32 ->]; [|exact Hn|]; [vm_compute; reflexivity|].
  edestruct (swap_line) as [H16 ->]; [|exact H32|]; [vm_compute; reflexivity|].
  edestruct (swap_line) as [H8 ->]; [|exact H16|]; [vm_compute; reflexivity|].
  edestruct (swap_line) as [H4 ->]; [|exact H8|]; [vm_compute; reflexivity|].
  rewrite !Z.lxor_assoc. reflexivity.
Qed.

Lemma reverse_nibbles_64_bit_high v n :
  64 <= n -> Z.testbit (reverse_nibbles_64 v) n = false.
Proof.
  intros Hn. unfold reverse_nibbles_64. cbv zeta.
  apply swap_bit_high; lia.
Qed.

Lemma lxor_60 n :
  0 <= n < 64 ->
  0 <= Z.lxor n 60 < 64 /\ Z.lxor n 60 = n mod 4 + 4 * (15 - n / 4).
Proof.
  intros Hn.
  pose proof (below_64
    (fun n => (0 <=? Z.lxor n 60) && (Z.lxor n 60 <? 64)
              && (Z.lxor n 60 =? n mod 4 + 4 * (15 - n / 4)))
    ltac:(vm_compute; reflexivity) n Hn) as Hc.
  cbv beta in Hc.
  apply andb_true_iff in Hc as [Hc He]. apply andb_true_iff in Hc as [H1 H2].
  lia.
Qed.

(** X2: [reverse_nibbles_64] reverses the order of the sixteen nibbles of a
    64-bit word, and is its own inverse. *)
Theorem reverse_nibbles_64_reverses v :
  0 <= v < 2 ^ 64 ->
  0 <= reverse_nibbles_64 v < 2 ^ 64 /\
  reverse_nibbles_64 (reverse_nibbles_64 v) = v /\
  forall j, 0 <= j < 16 ->
    Z.land (Z.shiftr (reverse_nibbles_64 v) (4 * j)) 15
    = Z.land (Z.shiftr v (4 * (15 - j))) 15.
Proof.
  clear word_hash heap_entry heap_slot stack_word. intros Hv.
  assert (Hpos : forall x, 0 <= reverse_nibbles_64 x).
  { intros x. unfold reverse_nibbles_64, u64. cbv zeta.
    apply Z.lor_nonneg. split.
    - apply Z.shiftr_nonneg, Z.land_nonneg. right. lia.
    - apply Z.mod_pos_bound. lia. }
  split; [|split].
  - split; [apply Hpos|].
    apply (Z.bounded_iff_bits_nonneg 64); [lia|apply Hpos|].
    intros l Hl. by apply reverse_nibbles_64_bit_high.
  - apply Z.bits_inj'. intros n Hn. destruct (decide (n < 64)) as [Hlt|Hge].
    + destruct (lxor_60 n) as [Hr _]; [lia|].
      rewrite !reverse_nibbles_64_bit by lia.
      by rewrite Z.lxor_assoc, Z.lxor_nilpotent, Z.lxor_0_r.
    + rewrite reverse_nibbles_64_bit_high by lia. symmetry.
      apply (Z.bounded_iff_bits_nonneg 64 v); lia.
  - intros j Hj. apply Z.bits_inj'. intros m Hm.
    rewrite !Z.land_spec, !Z.shiftr_spec by lia.
    destruct (decide (m < 4)) as [Hlt|Hge].
    + destruct (lxor_60 (m + 4 * j)) as [_ He]; [lia|].
      rewrite reverse_nibbles_64_bit, He by lia.
      replace ((m + 4 * j) mod 4 + 4 * (15 - (m + 4 * j) / 4))
        with (m + 4 * (15 - j)) by (Z.div_mod_to_equations; lia).
      done.
    + change 15 with (Z.ones 4). rewrite Z.ones_spec_high by lia.
      by rewrite !andb_false_r.
Qed.


(** *** [bitmap_next] *)

Lemma land_opp_odd q : Z.land (2 * q + 1) (- (2 * q + 1)) = 1.
Proof.
  replace (- (2 * q + 1)) with (2 * Z.lnot q + 1) by (unfold Z.lnot; lia).
  apply Z.bits_inj'. intros n Hn. rewrite Z.land_spec.
  destruct (decide (n = 0)) as [->|Hn0].
  - by rewrite !Z.testbit_odd_0.
  - replace n with (Z.succ (n - 1)) by lia.
    rewrite !Z.testbit_odd_succ by lia.
    rewrite Z.lnot_spec by lia.
    replace (Z.succ (n - 1)) with n by lia.
    rewrite andb_negb_r. symmetry. change 1 with (2 ^ 0).
    apply Z.pow2_bits_false. lia.
Qed.

(** A positive number is an odd number times a power of two. *)
Lemma lowest_bit (n : nat) p :
  0 < p < 2 ^ Z.of_nat n ->
  exists r q, 0 <= r < Z.of_nat n /\ 0 <= q /\ p = 2 ^ r * (2 * q + 1).
Proof.
  revert p. induction n as [|n IH]; intros p Hp.
  - change (2 ^ Z.of_nat 0) with 1 in Hp. lia.
  - rewrite Nat2Z.inj_succ, Z.pow_succ_r in Hp by lia.
    destruct (Z.even p) eqn:He.
    + apply Z.even_spec in He as [p' ->].
      destruct (IH p') as (r & q & Hr & Hq & ->); [lia|].
      exists (r + 1), q. split; [lia|]. split; [done|].
      rewrite Z.pow_add_r by lia. lia.
    + assert (Ho : Z.odd p = true) by (rewrite <- Z.negb_even, He; done).
      apply Z.odd_spec in Ho as [q ->].
      exists 0, q. split; [lia|]. split; [lia|]. lia.
Qed.

Lemma land_opp r q :
  0 <= r < 32 -> 0 <= q -> 2 ^ r * (2 * q + 1) < 2 ^ 32 ->
  Z.land (2 ^ r * (2 * q + 1)) (u32 (- (2 ^ r * (2 * q + 1)))) = 2 ^ r.
Proof.
  intros Hr Hq Hp. unfold u32.
  rewrite <- Z.land_ones by lia.
  rewrite Z.land_assoc.
  replace (- (2 ^ r * (2 * q + 1))) with (- (2 * q + 1) * 2 ^ r) by lia.
  rewrite (Z.mul_comm (2 ^ r)).
  rewrite <- !Z.shiftl_mul_pow2 by lia.
  rewrite <- Z.shiftl_land, land_opp_odd.
  rewrite Z.shiftl_mul_pow2, Z.mul_1_l by lia.
  rewrite Z.land_ones by lia.
  apply Z.mod_small. split; [lia|]. apply Z.pow_lt_mono_r; lia.
Qed.

Lemma ffs_pow2 r : 0 <= r < 32 -> ffs (2 ^ r) = r + 1.
Proof.
  intros Hr.
  assert (Hc : forallb (fun r => ffs (2 ^ r) =? r + 1) (Z.of_nat <$> seq 0 32) = true)
    by (vm_compute; reflexivity).
  rewrite forallb_forall in Hc. apply Z.eqb_eq, Hc, list_elem_of_In.
  apply list_elem_of_fmap. exists (Z.to_nat r). split; [lia|].
  apply elem_of_seq. lia.
Qed.

Lemma testbit_odd_multiple r q j :
  0 <= r -> 0 <= j <= r ->
  Z.testbit (2 ^ r * (2 * q + 1)) j = bool_decide (j = r).
Proof.
  intros Hr Hj. rewrite Z.mul_comm, Z.mul_pow2_bits by lia.
  case_bool_decide as Hd.
  - subst j. rewrite Z.sub_diag. apply Z.testbit_odd_0.
  - apply Z.testbit_neg_r. lia.
Qed.

(** X3: [bitmap_next] returns the index of the lowest bit set in the bitmap
    and clears that bit; on the empty bitmap it returns [0xFFFFFFFF] and
    leaves the bitmap empty. *)
Theorem bitmap_next_lowest_bit p :
  0 <= p < 2 ^ 32 ->
  (p = 0 /\ bitmap_next p = (0, 2 ^ 32 - 1)) \/
  (exists r, 0 <= r < 32 /\ bitmap_next p = (p - 2 ^ r, r) /\
     Z.testbit p r = true /\ Z.testbit (p - 2 ^ r) r = false /\
     (forall j, 0 <= j < r -> Z.testbit p j = false) /\
     (forall j, 0 <= j -> j <> r -> Z.testbit (p - 2 ^ r) j = Z.testbit p j)).
Proof.
  intros Hp. destruct (decide (p = 0)) as [->|Hp0]; [left; done|right].
  destruct (lowest_bit 32 p) as (r & q & Hr & Hq & ->); [lia|].
  change (Z.of_nat 32) with 32 in Hr.
  assert (Hx : Z.lxor (2 ^ r * (2 * q + 1)) (2 ^ r) = 2 ^ r * (2 * q + 1) - 2 ^ r).
  { replace (2 ^ r * (2 * q + 1) - 2 ^ r) with (2 * q * 2 ^ r) by lia.
    replace (2 ^ r * (2 * q + 1)) with ((2 * q + 1) * 2 ^ r) by lia.
    rewrite <- (Z.mul_1_l (2 ^ r)) at 2.
    rewrite <- !Z.shiftl_mul_pow2, <- Z.shiftl_lxor by lia. f_equal.
    apply Z.bits_inj'. intros n Hn. rewrite Z.lxor_spec.
    destruct (decide (n = 0)) as [->|Hn0].
    - by rewrite Z.testbit_odd_0, Z.testbit_even_0.
    - replace n with (Z.succ (n - 1)) by lia.
      rewrite Z.testbit_odd_succ, Z.testbit_even_succ by lia.
      change 1 with (2 ^ 0). rewrite Z.pow2_bits_false by lia.
      by rewrite xorb_false_r. }
  exists r. split; [done|]. split.
  { unfold bitmap_next. rewrite land_opp by (done || lia).
    rewrite Hx, ffs_pow2 by done. f_equal.
    replace (r + 1 - 1) with r by lia. apply u32_small. lia. }
  split; [rewrite testbit_odd_multiple by lia; by rewrite bool_decide_eq_true_2|].
  split.
  { rewrite <- Hx, Z.lxor_spec, testbit_odd_multiple, Z.pow2_bits_true by lia.
    by rewrite bool_decide_eq_true_2. }
  split.
  { intros j Hj. rewrite testbit_odd_multiple by lia.
    apply bool_decide_eq_false_2. lia. }
  intros j Hj Hne. rewrite <- Hx, Z.lxor_spec, Z.pow2_bits_false by lia.
  apply xorb_false_r.
Qed.


(** ** [fnv_hash] *)

Lemma fnv_step h :
  u64 (h + u64 (u64 (u64 (u64 (u64 (u64 (Z.shiftl h 1) + u64 (Z.shiftl h 4))
                                 + u64 (Z.shiftl h 5))
                            + u64 (Z.shiftl h 7))
                       + u64 (Z.shiftl h 8))
                  + u64 (Z.shiftl h 40)))
  = u64 (h * 1099511628211).
Proof.
  rewrite !Z.shiftl_mul_pow2 by lia. unfold u64.
  Z.div_mod_to_equations. lia.
Qed.

(** X4: the chain of shifts and additions of [fnv_hash] is the
    multiplication by the 64-bit FNV prime that its comment gives as the
    alternative: [fnv_hash] is FNV-1a, one exclusive-or and one
    multiplication modulo [2 ^ 64] per byte. *)
Theorem fnv_hash_multiplies data :
  fnv_hash data
  = foldl (fun h b => u64 (Z.lxor h b * 1099511628211)) 14695981039346656037 data /\
  0 <= fnv_hash data < 2 ^ 64.
Proof.
  unfold fnv_hash. generalize 14695981039346656037 (ltac:(lia) :
    0 <= 14695981039346656037 < 2 ^ 64).
  induction data as [|b data IH]; intros h Hh; [done|].
  cbn [foldl]. cbv zeta. rewrite fnv_step. apply IH.
  apply Z.mod_pos_bound. lia.
Qed.

(** ** Candidate slots *)

(** X5: in a table of [2 ^ m] slots the two candidate slots of a key are
    inside the table and below [2 ^ 16], the first is even and the second
    odd, so they are never the same slot. *)
Theorem candidate_slots m k :
  1 <= m <= 63 ->
  0 <= hash_1 (2 ^ m) k < 2 ^ m /\ 0 <= hash_2 (2 ^ m) k < 2 ^ m /\
  hash_1 (2 ^ m) k < 65536 /\ hash_2 (2 ^ m) k < 65536 /\
  Z.even (hash_1 (2 ^ m) k) = true /\ Z.odd (hash_2 (2 ^ m) k) = true /\
  hash_1 (2 ^ m) k <> hash_2 (2 ^ m) k.
Proof.
  intros Hm.
  split; [by apply hash_1_range|]. split; [by apply hash_2_range|].
  split; [apply u16_range|]. split; [apply u16_range|].
  split; [apply hash_1_even|]. split; [apply hash_2_odd|].
  intros He. pose proof (hash_1_even (2 ^ m) k) as H1.
  pose proof (hash_2_odd (2 ^ m) k) as H2.
  rewrite He, <- Z.negb_odd, H2 in H1. done.
Qed.

(** ** [small_cuckoo_new] *)

Lemma ceil_pow2_small x : 0 <= x <= 16 -> 0 <= ceil_pow2 x <= 16.
Proof.
  intros Hx. destruct (decide (x = 0)) as [->|Hx0]; [done|].
  rewrite ceil_pow2_log2_up by lia.
  assert (0 <= Z.log2_up x <= 4).
  { split; [apply Z.log2_up_nonneg|]. apply (Z.log2_up_le_pow2 x 4); lia. }
  split; [apply Z.pow_nonneg; lia|].
  change 16 with (2 ^ 4). apply Z.pow_le_mono_r; lia.
Qed.

Lemma ceil_pow2_large x : 16 < x <= 2 ^ 32 -> 32 <= ceil_pow2 x <= 2 ^ 32.
Proof.
  intros Hx. rewrite ceil_pow2_log2_up by lia.
  assert (4 < Z.log2_up x <= 32).
  { split; [apply Z.log2_up_lt_pow2; lia|]. apply Z.log2_up_le_pow2; lia. }
  split.
  - change 32 with (2 ^ 5). apply Z.pow_le_mono_r; lia.
  - apply Z.pow_le_mono_r; lia.
Qed.

(** The shift [1 << (ceil_pow2 (n) + 1)] that sizes the slot table. *)
Lemma size_shift_small n :
  0 <= n <= 16 ->
  shl_int_1 (u64 (ceil_pow2 n + 1)) = Some (2 ^ (ceil_pow2 n + 1)).
Proof.
  intros Hn. pose proof (ceil_pow2_small n Hn) as Hc.
  revert Hc. generalize (ceil_pow2 n). intros c Hc.
  unfold shl_int_1. rewrite (u64_small (c + 1)) by lia.
  rewrite decide_True by lia. by rewrite Z.shiftl_1_l.
Qed.

Lemma size_shift_large n :
  16 < n <= 2 ^ 32 -> shl_int_1 (u64 (ceil_pow2 n + 1)) = None.
Proof.
  intros Hn. pose proof (ceil_pow2_large n Hn) as Hc.
  revert Hc. generalize (ceil_pow2 n). intros c Hc.
  unfold shl_int_1. rewrite (u64_small (c + 1)) by lia.
  by rewrite decide_False by lia.
Qed.

Lemma size_range n :
  0 <= n <= 16 -> 1 < 2 ^ (ceil_pow2 n + 1) <= 2 ^ 17.
Proof.
  intros Hn. pose proof (ceil_pow2_small n Hn) as Hc.
  revert Hc. generalize (ceil_pow2 n). intros c Hc. split.
  - change 1 with (2 ^ 0) at 1. apply Z.pow_lt_mono_r; lia.
  - apply Z.pow_le_mono_r; lia.
Qed.

Lemma bind_Some_l {A B} (f : A -> option B) a : Some a ≫= f = f a.
Proof. done. Qed.


Lemma small_cuckoo_new_small initial_size :
  0 <= initial_size <= 16 ->
  small_cuckoo_new initial_size
  = Some (SmallCuckoo (2 ^ (ceil_pow2 initial_size + 1))
            (calloc (2 ^ (ceil_pow2 initial_size + 1))) 1 (1 + initial_size)
            (malloc heap_entry (1 + initial_size))).
Proof.
  intros Hx. unfold small_cuckoo_new.
  rewrite size_shift_small, bind_Some_l by done.
  by rewrite (u16_small (1 + initial_size)) by lia.
Qed.

Lemma small_cuckoo_new_large initial_size :
  16 < initial_size <= 2 ^ 32 -> small_cuckoo_new initial_size = None.
Proof.
  intros Hx. unfold small_cuckoo_new. by rewrite size_shift_large.
Qed.

Lemma new_small initial_size s :
  0 <= initial_size <= 2 ^ 32 -> small_cuckoo_new initial_size = Some s ->
  initial_size <= 16 /\
  s = SmallCuckoo (2 ^ (ceil_pow2 initial_size + 1))
        (calloc (2 ^ (ceil_pow2 initial_size + 1))) 1 (1 + initial_size)
        (malloc heap_entry (1 + initial_size)) /\
  1 < table_size s <= 2 ^ 17.
Proof.
  intros Hx H. destruct (decide (initial_size <= 16)) as [Hle|Hgt].
  - rewrite small_cuckoo_new_small in H by lia. injection H as <-.
    split; [done|]. split; [done|]. cbn [table_size]. apply size_range. lia.
  - rewrite small_cuckoo_new_large in H by lia. done.
Qed.


(** ** [insert] and [double_size] *)

(** X7: [insert] and [double_size] change the slot table and its size
    only: the entries, their number and the size of the entry store are
    as before. *)
Theorem insert_keeps_entry_store fuel s i s' :
  insert fuel s i = Some s' \/ double_size fuel s = Some s' ->
  entries s' = entries s /\ n_entries s' = n_entries s /\
  entries_len s' = entries_len s.
Proof.
  destruct (insert_same_store fuel) as (Hi & Hd & _).
  intros [H|H]; [apply Hi in H|apply Hd in H];
    destruct H as (Hn & Hl & He); done.
Qed.

(** X8: when [double_size] returns, the table has twice as many slots,
    holds the same entry indices as before, each once, and every one of them
    sits in a candidate slot of its key for the new size. *)
Theorem double_size_rehashes fuel s s' :
  table_ok s -> table_size s < 2 ^ 63 -> slot_invariant s ->
  double_size fuel s = Some s' ->
  table_size s' = 2 * table_size s /\ table_ok s' /\ slot_invariant s' /\
  occupied (table s') ≡ₚ occupied (table s).
Proof.
  intros Hok Hlt Hinv Hd.
  destruct (insert_correct fuel) as (_ & Hds & _).
  destruct (Hds s s' Hok Hd) as [[Hts _]|(Hok' & Hts & _ & Hocc & Hinv')]; [lia|].
  auto.
Qed.

(** ** Sequences of insertions *)

Lemma built_indexed s kvs : built s kvs -> indexed s kvs.
Proof.
  intros (Hok & Hinv & Hn & _ & _ & Hent & Hocc).
  do 4 (split; [done|]). done.
Qed.

Lemma insert_all_grows fuel kvs' s kvs s' :
  built s kvs -> insert_all fuel s kvs' = Some s' ->
  table_size s <= table_size s'.
Proof.
  revert s kvs. induction kvs' as [|[k v] kvs' IH]; intros s kvs Hb H.
  - injection H as <-. lia.
  - cbn [insert_all] in H. apply bind_Some in H as (s1 & H1 & H).
    pose proof (built_insert _ _ _ _ _ _ Hb H1) as Hb1.
    specialize (IH _ _ Hb1 H).
    unfold small_cuckoo_insert in H1.
    apply bind_Some in H1 as ([s2 i] & Ha & Hi).
    destruct (built_append _ _ _ _ _ _ Hb Ha) as (_ & Hok2 & _).
    destruct (insert_correct fuel) as (Hins & _).
    destruct (Hins _ _ _ Hok2 Hi) as (_ & Hle & _).
    assert (table_size s2 = table_size s).
    { unfold append in Ha. destruct (decide _); [|done].
      apply bind_Some in Ha as (es & _ & Ha). by injection Ha as <- _. }
    lia.
Qed.

(** X9: after [small_cuckoo_new] and any insertions that have returned,
    every occupied slot holds the index of a live entry and is a candidate
    slot of that entry's key, each of the indices 1 to [length kvs] is in
    exactly one slot, and the table has not shrunk. *)
Theorem inserts_keep_slot_invariant initial_size fuel kvs s0 s :
  small_cuckoo_new initial_size = Some s0 ->
  insert_all fuel s0 kvs = Some s ->
  slot_invariant s /\
  occupied (table s) ≡ₚ (Z.of_nat <$> seq 1 (length kvs)) /\
  table_ok s /\ table_size s0 <= table_size s.
Proof.
  intros Hnew Hins. pose proof (built_new _ _ Hnew) as Hb0.
  pose proof (built_insert_all _ _ _ _ _ Hb0 Hins) as Hb.
  pose proof (insert_all_grows _ _ _ _ _ Hb0 Hins) as Hle.
  destruct Hb as (Hok & Hinv & _ & _ & _ & _ & Hocc). auto.
Qed.

(** X10: after [small_cuckoo_new] and any insertions that have returned,
    the entry store is an allocation of [entries_len] cells that holds the
    reserved entry and one entry per insertion, in the order of insertion;
    there are fewer than 65535 of them. *)
Theorem entry_store_in_bounds initial_size fuel kvs s0 s :
  0 <= initial_size <= 2 ^ 32 ->
  small_cuckoo_new initial_size = Some s0 ->
  insert_all fuel s0 kvs = Some s ->
  n_entries s = 1 + Z.of_nat (length kvs) /\
  n_entries s <= entries_len s /\
  Z.of_nat (length (entries s)) = entries_len s /\ entries_len s < 65536 /\
  forall j k v, kvs !! j = Some (k, v) ->
    load (entries s) (1 + Z.of_nat j) = Some (Entry k v).
Proof.
  intros Hx Hnew Hins. pose proof (built_new _ _ Hnew) as Hb0.
  pose proof (built_insert_all _ _ _ _ _ Hb0 Hins) as Hb.
  change ([] ++ kvs) with kvs in Hb.
  destruct Hb as (_ & _ & Hn & Hlen & Hr & Hent & _).
  split; [done|]. split.
  - destruct (decide (kvs = [])) as [->|Hne].
    + injection Hins as <-.
      destruct (new_small _ _ Hx Hnew) as (Hle & -> & _).
      cbn [n_entries entries_len]. lia.
    + destruct (lookup_lt_is_Some_2 kvs (length kvs - 1)) as [[k v] Hj].
      { destruct kvs; [done|]. cbn [length]. lia. }
      apply Hent, lookup_lt_Some in Hj.
      assert (0 < length kvs)%nat by (destruct kvs; [done|cbn [length]; lia]).
      lia.
  - split; [done|]. split; [lia|].
    intros j k v Hj. apply load_Some. split; [lia|].
    replace (Z.to_nat (1 + Z.of_nat j)) with (S j) by lia. by apply Hent.
Qed.

(** ** [small_cuckoo_find] *)

Lemma indexed_slot s kvs j k v :
  indexed s kvs -> kvs !! j = Some (k, v) ->
  exists h : nat, table s !! h = Some (Z.of_nat (S j)) /\
    (Z.of_nat h = hash_1 (table_size s) k \/ Z.of_nat h = hash_2 (table_size s) k).
Proof.
  intros (Hok & Hinv & Hn & Hent & Hocc) Hj.
  assert (Z.of_nat (S j) ∈ occupied (table s)) as Hin.
  { rewrite Hocc. apply list_elem_of_fmap. exists (S j). split; [done |].
    apply elem_of_seq. apply lookup_lt_Some in Hj. lia. }
  apply elem_of_occupied in Hin as [Hnz Hin].
  apply list_elem_of_lookup in Hin as [h Hh].
  destruct (Hinv h _ Hh Hnz) as (_ & e & He & Hsel).
  apply load_Some in He as [_ He]. rewrite Nat2Z.id in He.
  rewrite (Hent _ _ _ Hj) in He. injection He as <-. simpl in Hsel.
  exists h. split; [done |]. destruct (Z.even _); auto.
Qed.

(** A probe of a slot of the table: the slot is empty, or it holds the
    index of a pair and the probe compares the key of that pair. *)
Lemma probe_indexed s kvs h k :
  indexed s kvs -> 0 <= h < table_size s ->
  exists t, table s !! Z.to_nat h = Some t /\
    ((t = 0 /\ probe s h k = Some None) \/
     (exists j k' v', t = Z.of_nat (S j) /\ kvs !! j = Some (k', v') /\
        probe s h k = Some (if decide (k' = k) then Some v' else None))).
Proof.
  intros (Hok & Hinv & Hn & Hent & _) Hh.
  destruct Hok as (m & Hm & Hts & Hlen).
  destruct (lookup_lt_is_Some_2 (table s) (Z.to_nat h) ltac:(lia)) as [t Ht].
  exists t. split; [done|].
  unfold probe, load. rewrite decide_True by lia. rewrite Ht. cbn [mbind option_bind].
  destruct (decide (t = 0)) as [->|Hnz]; [by left|right].
  destruct (Hinv _ t Ht Hnz) as (Hr & e & He & _).
  destruct (Z.to_nat t) as [|j] eqn:Et; [lia|].
  destruct (lookup_lt_is_Some_2 kvs j ltac:(lia)) as [[k' v'] Hj].
  exists j, k', v'. split; [lia|]. split; [done|].
  unfold load in He. rewrite decide_True, Et in He by lia.
  rewrite decide_True by lia. rewrite He. cbn [mbind option_bind].
  rewrite (Hent _ _ _ Hj) in He. injection He as <-. cbn [key value].
  by destruct (decide (k' = k)).
Qed.

(** [small_cuckoo_find] on a table that holds the pairs [kvs]: it returns,
    a value it delivers was inserted with the key, and it misses only keys
    that were never inserted. *)
Lemma find_indexed s kvs k :
  indexed s kvs -> 1 < table_size s ->
  exists r, small_cuckoo_find s k = Some r /\
    (forall v, r = Some v -> (k, v) ∈ kvs) /\
    (r = None -> k ∉ kvs.*1).
Proof.
  intros Hix Hts. pose proof Hix as (Hok & _).
  destruct Hok as (m & Hm & Hm2 & _).
  assert (1 <= m) as Hm1.
  { destruct (decide (m = 0)) as [->|]; [|lia]. rewrite Hm2 in Hts. done. }
  pose proof (hash_1_range m k ltac:(lia)) as Hr1.
  pose proof (hash_2_range m k ltac:(lia)) as Hr2.
  rewrite <- Hm2 in Hr1, Hr2.
  destruct (probe_indexed s kvs _ k Hix Hr1) as (t1 & Ht1 & Hp1).
  destruct (probe_indexed s kvs _ k Hix Hr2) as (t2 & Ht2 & Hp2).
  unfold small_cuckoo_find.
  assert (Hhit : forall j k' v' (r : option Z),
            kvs !! j = Some (k', v') ->
            r = (if decide (k' = k) then Some v' else None) ->
            forall v, r = Some v -> (k, v) ∈ kvs).
  { intros j k' v' r Hj -> v Hv. destruct (decide (k' = k)) as [->|]; [|done].
    injection Hv as <-. by apply list_elem_of_lookup_2 in Hj. }
  assert (Hmiss : forall h t,
            table s !! Z.to_nat h = Some t -> 0 <= h ->
            (t = 0 \/ exists j k' v', t = Z.of_nat (S j) /\
               kvs !! j = Some (k', v') /\ k' <> k) ->
            forall j v, kvs !! j = Some (k, v) ->
              table s !! Z.to_nat h <> Some (Z.of_nat (S j))).
  { intros h t Ht Hh Hc j v Hj Hs. rewrite Ht in Hs. injection Hs as ->.
    destruct Hc as [|(j' & k' & v' & Hjj & Hj' & Hne)]; [lia|].
    assert (j' = j) as -> by lia. rewrite Hj in Hj'. by injection Hj' as <-. }
  assert (Hnone :
            (t1 = 0 \/ exists j k' v', t1 = Z.of_nat (S j) /\
               kvs !! j = Some (k', v') /\ k' <> k) ->
            (t2 = 0 \/ exists j k' v', t2 = Z.of_nat (S j) /\
               kvs !! j = Some (k', v') /\ k' <> k) ->
            k ∉ kvs.*1).
  { intros c1 c2 Hin. apply list_elem_of_fmap in Hin as ([k0 v] & Hk & Hin).
    simpl in Hk. subst k0. apply list_elem_of_lookup in Hin as [j Hj].
    destruct (indexed_slot _ _ _ _ _ Hix Hj) as (h & Hh & [Hsel|Hsel]).
    - apply (Hmiss _ _ Ht1 ltac:(lia) c1 j v Hj).
      by rewrite <- Hsel, Nat2Z.id.
    - apply (Hmiss _ _ Ht2 ltac:(lia) c2 j v Hj).
      by rewrite <- Hsel, Nat2Z.id. }
  destruct Hp1 as [[Hz1 ->]|(j1 & k1 & v1 & Hj1 & Hl1 & ->)]; cbn [mbind option_bind].
  - destruct Hp2 as [[Hz2 ->]|(j2 & k2 & v2 & Hj2 & Hl2 & ->)].
    + exists None. split; [done|]. split; [done|]. intros _.
      apply Hnone; by left.
    + eexists. split; [done|]. split; [by eapply Hhit|].
      destruct (decide (k2 = k)) as [|Hne]; [done|]. intros _.
      apply Hnone; [by left|right; by exists j2, k2, v2].
  - destruct (decide (k1 = k)) as [->|Hne1].
    + exists (Some v1). split; [done|]. split; [|done].
      intros v Hv. injection Hv as <-. by apply list_elem_of_lookup_2 in Hl1.
    + destruct Hp2 as [[Hz2 ->]|(j2 & k2 & v2 & Hj2 & Hl2 & ->)].
      * exists None. split; [done|]. split; [done|]. intros _.
        apply Hnone; [right; by exists j1, k1, v1|by left].
      * eexists. split; [done|]. split; [by eapply Hhit|].
        destruct (decide (k2 = k)) as [|Hne]; [done|]. intros _.
        apply Hnone; [right; by exists j1, k1, v1|right; by exists j2, k2, v2].
Qed.

Lemma built_find initial_size fuel kvs s0 s :
  0 <= initial_size <= 2 ^ 32 ->
  small_cuckoo_new initial_size = Some s0 ->
  insert_all fuel s0 kvs = Some s ->
  indexed s kvs /\ 1 < table_size s.
Proof.
  intros Hx Hnew Hins. pose proof (built_new _ _ Hnew) as Hb0.
  pose proof (built_insert_all _ _ _ _ _ Hb0 Hins) as Hb.
  pose proof (insert_all_grows _ _ _ _ _ Hb0 Hins) as Hle.
  destruct (new_small _ _ Hx Hnew) as (_ & _ & Hts).
  split; [by apply built_indexed|lia].
Qed.

(** X11: [small_cuckoo_find] of a key that was never inserted returns
    [false], and reads no slot outside the table in doing so, whatever was
    inserted before. *)
Theorem find_absent_key initial_size fuel kvs s0 s k :
  0 <= initial_size <= 2 ^ 32 ->
  small_cuckoo_new initial_size = Some s0 ->
  insert_all fuel s0 kvs = Some s ->
  k ∉ kvs.*1 ->
  small_cuckoo_find s k = Some None.
Proof.
  intros Hx Hnew Hins Hk.
  destruct (built_find _ _ _ _ _ Hx Hnew Hins) as [Hix Hts].
  destruct (find_indexed s kvs k Hix Hts) as (r & Hf & Hsome & _).
  destruct r as [v|]; [|done].
  exfalso. apply Hk. apply list_elem_of_fmap. exists (k, v). split; [done|].
  by apply Hsome.
Qed.

(** X12: when a key was inserted, once or several times, [small_cuckoo_find]
    returns [true] with one of the values that were inserted with it; it
    never delivers a value that was not inserted with the key. *)
Theorem find_delivers_an_inserted_value initial_size fuel kvs s0 s k :
  0 <= initial_size <= 2 ^ 32 ->
  small_cuckoo_new initial_size = Some s0 ->
  insert_all fuel s0 kvs = Some s ->
  (k ∈ kvs.*1 ->
   exists v, (k, v) ∈ kvs /\ small_cuckoo_find s k = Some (Some v)) /\
  (forall v, small_cuckoo_find s k = Some (Some v) -> (k, v) ∈ kvs).
Proof.
  intros Hx Hnew Hins.
  destruct (built_find _ _ _ _ _ Hx Hnew Hins) as [Hix Hts].
  destruct (find_indexed s kvs k Hix Hts) as (r & Hf & Hsome & Hnone).
  split.
  - intros Hk. destruct r as [v|]; [|by destruct (Hnone eq_refl)].
    exists v. split; [by apply Hsome|done].
  - intros v Hv. rewrite Hf in Hv. injection Hv as ->. by apply Hsome.
Qed.

(** ** The stream read back *)

Lemma le_value_le_bytes n x :
  le_value (le_bytes n x) = x mod 2 ^ (8 * Z.of_nat n).
Proof.
  revert x. induction n as [|n IH]; intros x.
  - change (2 ^ (8 * Z.of_nat 0)) with 1. by rewrite Z.mod_1_r.
  - cbn [le_bytes]. unfold le_value in *. cbn [foldr]. rewrite IH.
    replace (8 * Z.of_nat (S n)) with (8 + 8 * Z.of_nat n) by lia.
    rewrite Z.pow_add_r by lia. change (2 ^ 8) with 256.
    rewrite Z.rem_mul_r by (try apply Z.pow_pos_nonneg; lia).
    unfold u8. change (2 ^ 8) with 256. by rewrite Z.mod_mod by lia.
Qed.

Lemma le_value_range bs : 0 <= le_value bs < 2 ^ (8 * Z.of_nat (length bs)).
Proof.
  induction bs as [|b bs IH]; [done|].
  unfold le_value in *. cbn [foldr length].
  replace (8 * Z.of_nat (S (length bs))) with (8 + 8 * Z.of_nat (length bs)) by lia.
  rewrite Z.pow_add_r by lia. change (2 ^ 8) with 256.
  pose proof (Z.mod_pos_bound b 256 ltac:(lia)). unfold u8 in *.
  change (2 ^ 8) with 256 in *.
  remember (2 ^ (8 * Z.of_nat (length bs))) as P eqn:HP. clear HP. lia.
Qed.

(** A field that [WRITE_UNDER] wrote comes back from [READ_AND] as its low
    32 bits, and the count as its low 16 bits. *)
Lemma READ_WRITE_8 c x rest :
  READ_AND 8 (WRITE_UNDER c x 8 ++ rest) = Some (u32 x, rest).
Proof.
  unfold READ_AND. rewrite decide_True
    by (rewrite length_app, length_WRITE_UNDER_8; lia).
  rewrite (drop_app_length' (WRITE_UNDER c x 8) rest 8)
    by (by rewrite length_WRITE_UNDER_8).
  rewrite WRITE_UNDER_8, <- app_assoc.
  change (8 `min` 4)%nat with 4%nat.
  rewrite (take_app_length' (le_bytes 4 (u32 x)) _ 4) by (by rewrite length_le_bytes).
  rewrite le_value_le_bytes. change (2 ^ (8 * Z.of_nat 4)) with (2 ^ 32).
  unfold u32. by rewrite Z.mod_mod by lia.
Qed.

Lemma READ_WRITE_2 c x rest :
  READ_AND 2 (WRITE_UNDER c x 2 ++ rest) = Some (u16 x, rest).
Proof.
  assert (Hw : WRITE_UNDER c x 2 = le_bytes 2 (u32 x)) by done.
  unfold READ_AND. rewrite Hw, decide_True
    by (rewrite length_app, length_le_bytes; lia).
  rewrite (drop_app_length' (le_bytes 2 (u32 x)) rest 2) by (by rewrite length_le_bytes).
  change (2 `min` 4)%nat with 2%nat.
  rewrite (take_app_length' (le_bytes 2 (u32 x)) rest 2) by (by rewrite length_le_bytes).
  rewrite le_value_le_bytes. change (2 ^ (8 * Z.of_nat 2)) with (2 ^ 16).
  unfold u32, u16. do 2 f_equal.
  change (2 ^ 32) with (2 ^ 16 * 2 ^ 16).
  rewrite Z.rem_mul_r by lia.
  rewrite Z.mul_comm, Z.mod_add by lia. by rewrite Z.mod_mod by lia.
Qed.

Lemma read_entries_S n fd :
  read_entries (S n) fd =
  ('(k, fd) ← READ_AND 8 fd;
   '(v, fd) ← READ_AND 8 fd;
   es ← read_entries n fd;
   Some (Entry k v :: es)).
Proof. done. Qed.

Lemma read_serialize c es rest :
  read_entries (length es) (serialize_entries c es ++ rest)
  = Some (low_words <$> es).
Proof.
  revert c. induction es as [|e es IH]; intros c; [done|].
  cbn [length]. rewrite read_entries_S, serialize_entries_cons, <- !app_assoc.
  rewrite READ_WRITE_8. cbn [mbind option_bind].
  rewrite READ_WRITE_8. cbn [mbind option_bind].
  rewrite IH. done.
Qed.

Lemma read_entries_length n fd es :
  read_entries n fd = Some es -> length es = n.
Proof.
  revert fd es. induction n as [|n IH]; intros fd es H.
  - by injection H as <-.
  - rewrite read_entries_S in H.
    apply bind_Some in H as ([k fd1] & _ & H).
    apply bind_Some in H as ([v fd2] & _ & H).
    apply bind_Some in H as (es' & Hes & H).
    injection H as <-. cbn [length]. f_equal. by eapply IH.
Qed.

Lemma READ_AND_Some n fd :
  (n <= length fd)%nat ->
  READ_AND n fd = Some (le_value (take (n `min` 4) fd), drop n fd).
Proof. intros H. unfold READ_AND. by rewrite decide_True. Qed.

Lemma READ_AND_None n fd : (length fd < n)%nat -> READ_AND n fd = None.
Proof. intros H. unfold READ_AND. by rewrite decide_False by lia. Qed.

Lemma read_entries_short n fd :
  (length fd < 16 * n)%nat -> read_entries n fd = None.
Proof.
  revert fd. induction n as [|n IH]; intros fd Hl; [lia|].
  rewrite read_entries_S.
  destruct (decide (8 <= length fd)%nat) as [H8|H8];
    [|by rewrite READ_AND_None by lia].
  rewrite (READ_AND_Some 8 fd) by done. cbn [mbind option_bind].
  destruct (decide (8 <= length (drop 8 fd))%nat) as [H16|H16];
    [|by rewrite READ_AND_None by lia].
  rewrite (READ_AND_Some 8 (drop 8 fd)) by done. cbn [mbind option_bind].
  rewrite IH; [done|].
  rewrite !length_drop in *. lia.
Qed.

(** What [deserialize_read] makes of the stream of a table. *)
Lemma read_back s bytes :
  small_cuckoo_serialize s = Some bytes -> n_entries s < 65536 ->
  deserialize_read bytes
  = (ts ← shl_int_1 (u64 (ceil_pow2 (n_entries s) + 1));
     Some (SmallCuckoo ts (u16 <$> malloc heap_slot ts) (n_entries s) 0
             (low_words <$> take (Z.to_nat (n_entries s)) (entries s)))).
Proof.
  unfold small_cuckoo_serialize. intros H Hn.
  destruct (decide _) as [Hr|]; [|done].
  assert (bytes = WRITE_UNDER 0 (n_entries s) 2
            ++ serialize_entries 1 (take (Z.to_nat (n_entries s)) (entries s)))
    as -> by congruence.
  clear H. unfold deserialize_read. rewrite READ_WRITE_2, bind_Some_l.
  cbv beta iota.
  rewrite (u16_small (u16 (n_entries s))) by apply u16_range.
  rewrite (u16_small (n_entries s)) by lia.
  generalize (shl_int_1 (u64 (ceil_pow2 (n_entries s) + 1))).
  intros [ts|]; [|done]. rewrite !bind_Some_l.
  pose proof (read_serialize 1 (take (Z.to_nat (n_entries s)) (entries s)) []) as Hrd.
  rewrite app_nil_r, length_take in Hrd.
  replace (Z.to_nat (n_entries s) `min` length (entries s))%nat
    with (Z.to_nat (n_entries s)) in Hrd by lia.
  rewrite Hrd. done.
Qed.

(** X13: the stream of a table with at most 16 entries (the reserved one
    included) is read back by [small_cuckoo_deserialize] up to its last
    loop as a table with the same number of entries, in the same order, each
    key and value cut to its low 32 bits; the slot table is the block that
    [malloc] returned and [entries_len] is 0. *)
Theorem serialize_read_back s bytes :
  small_cuckoo_serialize s = Some bytes -> n_entries s <= 16 ->
  deserialize_read bytes
  = Some (SmallCuckoo (2 ^ (ceil_pow2 (n_entries s) + 1))
            (u16 <$> malloc heap_slot (2 ^ (ceil_pow2 (n_entries s) + 1)))
            (n_entries s) 0
            (low_words <$> take (Z.to_nat (n_entries s)) (entries s))).
Proof.
  intros H Hn. rewrite (read_back s bytes H) by lia.
  unfold small_cuckoo_serialize in H. destruct (decide _) as [Hr|]; [|done].
  by rewrite size_shift_small, bind_Some_l by lia.
Qed.

(** ** [small_cuckoo_deserialize] on bad streams *)

(** X14: a stream that is shorter than its count announces (2 bytes and 16
    per entry) makes [small_cuckoo_deserialize] abort: no table is
    returned from a truncated stream. *)
Theorem deserialize_short_stream fuel fd :
  Z.of_nat (length fd) < 2 + 16 * le_value (take 2 fd) ->
  small_cuckoo_deserialize fuel fd = None.
Proof.
  intros Hl. unfold small_cuckoo_deserialize, deserialize_read.
  destruct (decide (2 <= length fd)%nat) as [H2|H2];
    [|by rewrite READ_AND_None by lia].
  rewrite (READ_AND_Some 2 fd), bind_Some_l by done.
  cbv beta iota. change (2 `min` 4)%nat with 2%nat.
  pose proof (le_value_range (take 2 fd)) as Hr.
  rewrite length_take in Hr.
  replace (2 `min` length fd)%nat with 2%nat in Hr by lia.
  change (2 ^ (8 * Z.of_nat 2)) with 65536 in Hr.
  rewrite (u16_small (le_value (take 2 fd))) by lia.
  generalize (shl_int_1 (u64 (ceil_pow2 (le_value (take 2 fd)) + 1))).
  intros [ts|]; [|done]. rewrite bind_Some_l.
  rewrite read_entries_short; [done|].
  rewrite length_drop. lia.
Qed.


Lemma reinsert_same_store fuel idx s s' :
  reinsert fuel idx s = Some s' -> same_store s s'.
Proof.
  revert s. induction idx as [|i idx IH]; intros s H.
  - injection H as <-. apply same_store_refl.
  - cbn [reinsert] in H. apply bind_Some in H as (s1 & H1 & H).
    destruct (insert_same_store fuel) as (Hi & _).
    eapply same_store_trans; [by eapply Hi|by apply IH].
Qed.

(** X16: a table that [small_cuckoo_deserialize] returned has
    [entries_len = 0], and [small_cuckoo_insert] on it does not return: the
    entry store is reallocated to no cell before the new entry is written. *)
Theorem deserialized_table_rejects_insert fuel fd s :
  small_cuckoo_deserialize fuel fd = Some s ->
  entries_len s = 0 /\
  forall fuel' k v, small_cuckoo_insert fuel' s k v = None.
Proof.
  unfold small_cuckoo_deserialize. intros H.
  apply bind_Some in H as (s1 & Hrd & H).
  apply reinsert_same_store in H as (Hn & Hlen & Hes).
  unfold deserialize_read in Hrd.
  apply bind_Some in Hrd as ([n fd'] & _ & Hrd).
  apply bind_Some in Hrd as (ts & _ & Hrd).
  apply bind_Some in Hrd as (es & _ & Hrd).
  injection Hrd as <-. cbn [n_entries entries_len entries] in *.
  split; [done|]. intros fuel' k v.
  unfold small_cuckoo_insert, append.
  destruct (decide (n_entries s > 0)) as [Hpos|]; [|done].
  pose proof (u16_range (n_entries s + 1)).
  rewrite Hlen. rewrite !decide_True by lia.
  change (u16 (Z.shiftl 0 1)) with 0.
  assert (Hre : realloc heap_entry (entries s) 0 = []).
  { unfold realloc. change (Z.to_nat 0) with 0%nat. by rewrite take_0. }
  rewrite Hre. unfold store. cbn [length].
  by rewrite decide_False by lia.
Qed.

(** ** The round trip through the stream *)

Lemma occupied_nonzero l : Forall (fun j => j <> 0) l -> occupied l = l.
Proof.
  induction 1 as [|j l Hj Hl IH]; [done|].
  rewrite occupied_cons, decide_False, IH by done. done.
Qed.

Lemma occupied_indices n :
  occupied (Z.of_nat <$> seq 0 (S n)) = Z.of_nat <$> seq 1 n.
Proof.
  cbn [seq fmap list_fmap]. rewrite occupied_cons, decide_True by done.
  apply occupied_nonzero. apply list.Forall_forall. intros j Hj.
  apply list_elem_of_fmap in Hj as (i & -> & Hi). apply elem_of_seq in Hi. lia.
Qed.

(** The last loop of [small_cuckoo_deserialize] on a well-formed table. *)
Lemma reinsert_post fuel idx s s' :
  table_ok s -> slot_invariant s -> Forall (hand_ok s) idx ->
  reinsert fuel idx s = Some s' ->
  table_ok s' /\ slot_invariant s' /\ same_store s s' /\
  table_size s <= table_size s' /\
  occupied (table s') ≡ₚ occupied idx ++ occupied (table s).
Proof.
  revert s. induction idx as [|i idx IH]; intros s Hok Hinv Hh H.
  - injection H as <-. split; [done|]. split; [done|].
    split; [apply same_store_refl|]. split; [lia|done].
  - cbn [reinsert] in H. apply bind_Some in H as (s1 & H1 & H).
    destruct (insert_correct fuel) as (Hins & _).
    destruct (Hins _ _ _ Hok H1) as (Hok1 & Hle1 & Hst1 & Hocc1 & Hinv1).
    apply list.Forall_cons in Hh as [Hi Hh].
    specialize (Hinv1 Hinv Hi).
    assert (Hh1 : Forall (hand_ok s1) idx).
    { revert Hh. apply List.Forall_impl. intros x. by apply hand_ok_same_store. }
    destruct (IH s1 Hok1 Hinv1 Hh1 H) as (Hok' & Hinv' & Hst' & Hle' & Hocc').
    split; [done|]. split; [done|].
    split; [by eapply same_store_trans|]. split; [lia|].
    rewrite Hocc', Hocc1, !occupied_cons.
    rewrite !(assoc_L (++)). f_equiv. apply Permutation_app_comm.
Qed.

Lemma malloc_zero ts :
  (forall j, u16 (heap_slot j) = 0) -> u16 <$> malloc heap_slot ts = calloc ts.
Proof.
  intros Hz. unfold malloc, realloc, calloc. cbn [length].
  rewrite take_nil, app_nil_l, Nat.sub_0_r, <- list_fmap_compose.
  generalize 0%nat. induction (Z.to_nat ts) as [|n IH]; intros a; [done|].
  cbn [seq fmap list_fmap replicate]. cbn [compose]. rewrite Hz. f_equal.
  apply IH.
Qed.

Lemma size_shift_pos n : 0 < n <= 2 ^ 32 -> 1 <= u64 (ceil_pow2 n + 1).
Proof.
  intros Hn. destruct (ceil_pow2_bounds n Hn) as [Hge Hlt].
  revert Hge Hlt. generalize (ceil_pow2 n). intros c Hge Hlt.
  rewrite u64_small by lia. lia.
Qed.

Lemma NoDup_fst_agree (kvs : list (Z * Z)) k v1 v2 :
  NoDup kvs.*1 -> (k, v1) ∈ kvs -> (k, v2) ∈ kvs -> v1 = v2.
Proof.
  intros Hnd H1 H2.
  apply list_elem_of_lookup in H1 as [j1 H1].
  apply list_elem_of_lookup in H2 as [j2 H2].
  assert (j1 = j2) as ->.
  { eapply NoDup_lookup; [exact Hnd| |]; rewrite list_lookup_fmap.
    - by rewrite H1.
    - by rewrite H2. }
  rewrite H1 in H2. by injection H2.
Qed.

(** Two tables that hold the same pairs, with distinct keys, answer
    [small_cuckoo_find] alike. *)
Lemma find_agree s1 s2 kvs k :
  indexed s1 kvs -> 1 < table_size s1 -> indexed s2 kvs -> 1 < table_size s2 ->
  NoDup kvs.*1 ->
  small_cuckoo_find s1 k = small_cuckoo_find s2 k.
Proof.
  intros Hi1 Ht1 Hi2 Ht2 Hnd.
  destruct (find_indexed s1 kvs k Hi1 Ht1) as (r1 & -> & Hs1 & Hn1).
  destruct (find_indexed s2 kvs k Hi2 Ht2) as (r2 & -> & Hs2 & Hn2).
  assert (Hkey : forall v, (k, v) ∈ kvs -> k ∈ kvs.*1).
  { intros v Hv. apply list_elem_of_fmap. by exists (k, v). }
  destruct r1 as [v1|], r2 as [v2|]; [| | |done].
  - do 2 f_equal. eapply NoDup_fst_agree; [exact Hnd| |]; auto.
  - destruct (Hn2 eq_refl). eapply Hkey, Hs1. done.
  - destruct (Hn1 eq_refl). eapply Hkey, Hs2. done.
Qed.

(** X17: a table of pairs with distinct keys whose keys and values fit in 32
    bits comes back from its stream as a table that answers
    [small_cuckoo_find] as the original does, when the block that [malloc]
    returns for the slot table happens to hold zeros and
    [small_cuckoo_deserialize] returns. *)
Theorem round_trip_of_32_bit_pairs initial_size fuel kvs s0 s bytes fuel' s' :
  (forall j, u16 (heap_slot j) = 0) ->
  0 <= initial_size <= 2 ^ 32 ->
  small_cuckoo_new initial_size = Some s0 ->
  insert_all fuel s0 kvs = Some s ->
  NoDup kvs.*1 ->
  Forall (fun kv => 0 <= kv.1 < 2 ^ 32 /\ 0 <= kv.2 < 2 ^ 32) kvs ->
  small_cuckoo_serialize s = Some bytes ->
  small_cuckoo_deserialize fuel' bytes = Some s' ->
  n_entries s' = n_entries s /\
  forall k, small_cuckoo_find s' k = small_cuckoo_find s k.
Proof.
  intros Hz Hx Hnew Hins Hnd H32 Hser Hde.
  destruct (built_find _ _ _ _ _ Hx Hnew Hins) as [Hix Hts].
  pose proof (built_insert_all _ _ _ _ _ (built_new _ _ Hnew) Hins) as Hb.
  change ([] ++ kvs) with kvs in Hb.
  destruct Hb as (_ & _ & Hn & Hlen & Hr & Hent & _).
  assert (Hfit : 0 <= n_entries s <= Z.of_nat (length (entries s))).
  { revert Hser. unfold small_cuckoo_serialize. by destruct (decide _). }
  revert Hde. unfold small_cuckoo_deserialize.
  rewrite (read_back s bytes Hser) by lia. intros Hde.
  apply bind_Some in Hde as (s1 & Hs1 & Hre).
  apply bind_Some in Hs1 as (ts & Hsh & Hs1).
  apply shl_int_1_Some in Hsh as [Hsh ->].
  pose proof (size_shift_pos (n_entries s) ltac:(lia)) as Hpos.
  revert Hsh Hpos Hs1. generalize (u64 (ceil_pow2 (n_entries s) + 1)).
  intros m Hsh Hpos Hs1. rewrite malloc_zero in Hs1 by done.
  injection Hs1 as <-.
  cbn [n_entries] in Hre.
  assert (Hok1 : table_ok
            (SmallCuckoo (2 ^ m) (calloc (2 ^ m)) (n_entries s) 0
               (low_words <$> take (Z.to_nat (n_entries s)) (entries s))))
    by (by apply (table_ok_calloc m); [lia| |]).
  assert (Hh1 : Forall
            (hand_ok
               (SmallCuckoo (2 ^ m) (calloc (2 ^ m)) (n_entries s) 0
                  (low_words <$> take (Z.to_nat (n_entries s)) (entries s))))
            (Z.of_nat <$> seq 0 (Z.to_nat (n_entries s)))).
  { apply list.Forall_forall. intros i Hi.
    apply list_elem_of_fmap in Hi as (j & -> & Hj).
    apply elem_of_seq in Hj. unfold hand_ok. cbn [n_entries]. lia. }
  destruct (reinsert_post _ _ _ _ Hok1
              (slot_invariant_calloc
                 (SmallCuckoo (2 ^ m) (calloc (2 ^ m)) (n_entries s) 0
                    (low_words <$> take (Z.to_nat (n_entries s)) (entries s)))
                 (2 ^ m))
              Hh1 Hre) as (Hok' & Hinv' & (Hn' & _ & Hes') & Hle' & Hocc').
  cbn [n_entries entries table table_size] in Hn', Hes', Hle', Hocc'.
  split; [done|]. intros k.
  apply (find_agree s' s kvs k); try done.
  - split; [done|]. split; [done|]. split; [lia|]. split.
    + intros j k' v' Hj. rewrite Hes', list_lookup_fmap.
      rewrite lookup_take_lt by (apply lookup_lt_Some in Hj; lia).
      rewrite (Hent _ _ _ Hj). cbn [fmap option_fmap option_map].
      rewrite Forall_lookup in H32. destruct (H32 _ _ Hj) as [Hk Hv].
      cbn [fst snd] in Hk, Hv. unfold low_words. cbn [key value].
      by rewrite !u32_small by done.
    + rewrite Hocc'. unfold calloc. rewrite occupied_replicate, app_nil_r.
      replace (Z.to_nat (n_entries s)) with (S (length kvs)) by lia.
      by rewrite occupied_indices.
  - assert (1 < 2 ^ m); [|lia].
    change 1 with (2 ^ 0) at 1. apply Z.pow_lt_mono_r; lia.
Qed.

(** ** The iterator *)

Lemma has_next_S fuel it :
  small_cuckoo_iter_has_next (S fuel) it =
  (if decide (iter_i it < table_size (iter_sc it)) then
     j ← load (table (iter_sc it)) (iter_i it);
     if decide (j = 0)
     then small_cuckoo_iter_has_next fuel
            (SmallCuckooIter (iter_sc it) (u16 (iter_i it + 1)))
     else Some (true, it)
   else Some (false, it)).
Proof. done. Qed.

Lemma next_S fuel it :
  small_cuckoo_iter_next (S fuel) it =
  (if decide (iter_i it < table_size (iter_sc it)) then
     j ← load (table (iter_sc it)) (iter_i it);
     if decide (j = 0)
     then small_cuckoo_iter_next fuel
            (SmallCuckooIter (iter_sc it) (u16 (iter_i it + 1)))
     else
       e ← load (entries (iter_sc it)) j;
       Some (key e, value e, SmallCuckooIter (iter_sc it) (u16 (iter_i it + 1)))
   else None).
Proof. done. Qed.

(** Where [small_cuckoo_iter_has_next] leaves the cursor: on an occupied
    slot when it says yes, at or past the end of the table when it says no. *)
Lemma has_next_result fuel it b it' :
  small_cuckoo_iter_has_next fuel it = Some (b, it') ->
  iter_sc it' = iter_sc it /\
  if b then
    iter_i it' < table_size (iter_sc it) /\
    exists j, load (table (iter_sc it)) (iter_i it') = Some j /\ j <> 0
  else ~ iter_i it' < table_size (iter_sc it).
Proof.
  revert it. induction fuel as [|fuel IH]; intros it H; [done|].
  rewrite has_next_S in H. destruct (decide _) as [Hlt|Hge].
  - apply bind_Some in H as (j & Hj & H).
    destruct (decide (j = 0)) as [->|Hnz].
    + apply IH in H. exact H.
    + injection H as <- <-. split; [done|]. split; [done|]. by exists j.
  - injection H as <- <-. done.
Qed.

(** X18: asking [small_cuckoo_iter_has_next] again gives the same answer and
    leaves the cursor where it is: a second call skips no pair. *)
Theorem has_next_is_idempotent fuel it b it' fuel' :
  small_cuckoo_iter_has_next fuel it = Some (b, it') ->
  small_cuckoo_iter_has_next (S fuel') it' = Some (b, it').
Proof.
  intros H. apply has_next_result in H as [Hsc H].
  rewrite has_next_S, Hsc. destruct b.
  - destruct H as (Hlt & j & Hj & Hnz).
    rewrite decide_True, Hj by done. cbn [mbind option_bind].
    by rewrite decide_False.
  - by rewrite decide_False.
Qed.

(** X19: after [small_cuckoo_iter_has_next] has said no,
    [small_cuckoo_iter_next] aborts; after it has said yes on a table that
    satisfies the slot invariant, [small_cuckoo_iter_next] delivers the key
    and value of the live entry in the slot under the cursor, without
    scanning further, and steps the cursor by one. *)
Theorem next_follows_has_next fuel it b it' :
  small_cuckoo_iter_has_next fuel it = Some (b, it') ->
  (b = false -> forall fuel', small_cuckoo_iter_next fuel' it' = None) /\
  (b = true -> slot_invariant (iter_sc it) ->
   forall fuel', exists j e,
     load (table (iter_sc it)) (iter_i it') = Some j /\
     0 < j < n_entries (iter_sc it) /\
     load (entries (iter_sc it)) j = Some e /\
     small_cuckoo_iter_next (S fuel') it'
     = Some (key e, value e,
             SmallCuckooIter (iter_sc it) (u16 (iter_i it' + 1)))).
Proof.
  intros H. apply has_next_result in H as [Hsc H]. split.
  - intros -> [|fuel']; [done|]. rewrite next_S, Hsc. by rewrite decide_False.
  - intros -> Hinv fuel'. destruct H as (Hlt & j & Hj & Hnz).
    pose proof Hj as Hj'. apply load_Some in Hj' as [_ Hj'].
    destruct (Hinv _ _ Hj' Hnz) as (Hr & e & He & _).
    exists j, e. split; [done|]. split; [done|]. split; [done|].
    rewrite next_S, Hsc, decide_True, Hj by done. cbn [mbind option_bind].
    rewrite decide_False, He by done. done.
Qed.

(** *** Tables of fewer than [2 ^ 16] slots *)

Lemma drop_cons_inv {A} (l : list A) c x rest :
  drop c l = x :: rest -> l !! c = Some x /\ drop (S c) l = rest.
Proof.
  intros H. split.
  - rewrite <- (Nat.add_0_r c), <- lookup_drop, H. done.
  - replace (S c) with (c + 1)%nat by lia. rewrite <- drop_drop, H. done.
Qed.

(** [small_cuckoo_iter_has_next] from slot [c]: it stops on the first
    occupied slot from [c] on, or at the end of the table. *)
Lemma has_next_skip s (rest : list Z) (c : nat) fuel :
  Z.of_nat (length (table s)) = table_size s -> table_size s < 65536 ->
  drop c (table s) = rest -> (length rest < fuel)%nat ->
  exists d : nat,
    small_cuckoo_iter_has_next fuel (SmallCuckooIter s (Z.of_nat c))
    = Some (bool_decide (occupied rest <> []),
            SmallCuckooIter s (Z.of_nat (c + d))) /\
    occupied (drop (c + d) (table s)) = occupied rest /\
    (occupied rest <> [] ->
     exists j, table s !! (c + d)%nat = Some j /\ j <> 0).
Proof.
  intros Hlen Hts. revert c fuel.
  induction rest as [|x rest IH]; intros c fuel Hdrop Hfuel.
  - destruct fuel as [|fuel]; [lia|]. exists 0%nat.
    assert (length (table s) <= c)%nat.
    { apply (f_equal length) in Hdrop. rewrite length_drop in Hdrop.
      cbn [length] in Hdrop. lia. }
    rewrite has_next_S. cbn [iter_i iter_sc].
    rewrite decide_False by lia. rewrite Nat.add_0_r, Hdrop.
    split; [by rewrite bool_decide_eq_false_2 by (intros Hn; by apply Hn)|].
    split; [done|]. intros Hn. by destruct Hn.
  - destruct fuel as [|fuel]; [cbn [length] in Hfuel; lia|].
    destruct (drop_cons_inv _ _ _ _ Hdrop) as [Hx Hdrop'].
    pose proof (lookup_lt_Some _ _ _ Hx) as Hc.
    rewrite has_next_S. cbn [iter_i iter_sc].
    rewrite decide_True by lia. rewrite load_nat, Hx. cbn [mbind option_bind].
    rewrite occupied_cons.
    destruct (decide (x = 0)) as [->|Hnz].
    + rewrite (u16_small (Z.of_nat c + 1)) by lia.
      replace (Z.of_nat c + 1) with (Z.of_nat (S c)) by lia.
      destruct (IH (S c) fuel Hdrop' ltac:(cbn [length] in Hfuel; lia))
        as (d & Hhn & Hocc & Hj).
      exists (S d). replace (c + S d)%nat with (S c + d)%nat by lia.
      rewrite app_nil_l. done.
    + exists 0%nat. rewrite Nat.add_0_r, Hdrop, occupied_cons.
      rewrite decide_False by done.
      split; [by rewrite bool_decide_eq_true_2|]. split; [done|].
      intros _. by exists x.
Qed.

Lemma next_here s (c : nat) j e fuel :
  Z.of_nat c < table_size s -> table s !! c = Some j -> j <> 0 ->
  load (entries s) j = Some e ->
  small_cuckoo_iter_next (S fuel) (SmallCuckooIter s (Z.of_nat c))
  = Some (key e, value e, SmallCuckooIter s (u16 (Z.of_nat c + 1))).
Proof.
  intros Hc Hj Hnz He. rewrite next_S. cbn [iter_i iter_sc].
  rewrite decide_True by done. rewrite load_nat, Hj. cbn [mbind option_bind].
  rewrite decide_False by done. rewrite He. done.
Qed.

(** A fresh run of the iterator from slot [c] delivers the pairs of the
    occupied slots from [c] on, in the order of the slots, and ends. *)
Lemma iterate_from_small s steps fuel (c : nat) :
  Z.of_nat (length (table s)) = table_size s -> table_size s < 65536 ->
  (forall h j, table s !! h = Some j -> j <> 0 -> is_Some (load (entries s) j)) ->
  (length (occupied (drop c (table s))) < steps)%nat ->
  (length (table s) < fuel)%nat ->
  iterate_from steps fuel (SmallCuckooIter s (Z.of_nat c))
  = Some (pair_at s <$> occupied (drop c (table s)), true).
Proof.
  intros Hlen Hts Hent. revert c.
  induction steps as [|steps IH]; intros c Hsteps Hfuel; [lia|].
  rewrite iterate_from_S.
  destruct (has_next_skip s (drop c (table s)) c fuel Hlen Hts eq_refl)
    as (d & Hhn & Hocc & Hj).
  { rewrite length_drop. lia. }
  rewrite Hhn, bind_Some_l. cbv beta iota.
  destruct (decide (occupied (drop c (table s)) = [])) as [He|Hne].
  - rewrite bool_decide_eq_false_2 by (intros Hn; by apply Hn).
    by rewrite He.
  - rewrite bool_decide_eq_true_2 by done.
    destruct (Hj Hne) as (j & Hjl & Hnz).
    destruct (Hent _ _ Hjl Hnz) as [e He].
    pose proof (lookup_lt_Some _ _ _ Hjl) as Hcd.
    destruct fuel as [|fuel]; [lia|].
    rewrite (next_here s (c + d) j e fuel) by (done || lia).
    rewrite bind_Some_l. cbv beta iota.
    rewrite (u16_small (Z.of_nat (c + d) + 1)) by lia.
    replace (Z.of_nat (c + d) + 1) with (Z.of_nat (S (c + d))) by lia.
    assert (Hsplit : occupied (drop c (table s))
                     = j :: occupied (drop (S (c + d)) (table s))).
    { rewrite <- Hocc, (drop_S _ _ _ Hjl), occupied_cons.
      by rewrite decide_False. }
    rewrite IH; [|rewrite Hsplit in Hsteps; cbn [length] in Hsteps; lia|lia].
    rewrite bind_Some_l. cbv beta iota. rewrite Hsplit.
    cbn [fmap list_fmap]. unfold pair_at at 2. rewrite He. done.
Qed.

Lemma pairs_of_entries s (kvs : list (Z * Z)) :
  (forall j k v, kvs !! j = Some (k, v) -> entries s !! S j = Some (Entry k v)) ->
  pair_at s <$> (Z.of_nat <$> seq 1 (length kvs)) = kvs.
Proof.
  intros Hent. apply list_eq. intros i. rewrite !list_lookup_fmap.
  destruct (kvs !! i) as [[k v]|] eqn:Hi.
  - rewrite lookup_seq_lt by (by eapply lookup_lt_Some).
    cbn [fmap option_fmap option_map]. f_equal.
    unfold pair_at, load. rewrite decide_True by lia.
    replace (Z.to_nat (Z.of_nat (1 + i))) with (S i) by lia.
    by rewrite (Hent _ _ _ Hi).
  - rewrite lookup_seq_ge by (by apply lookup_ge_None). done.
Qed.

(** X20: on a table of fewer than [2 ^ 16] slots made by [small_cuckoo_new]
    and insertions that have returned, a fresh iterator run to exhaustion
    delivers every inserted pair exactly once (in the order of the slots)
    and then [small_cuckoo_iter_has_next] says no. *)
Theorem iterator_delivers_each_pair_once initial_size fuel kvs s0 s steps ifuel :
  small_cuckoo_new initial_size = Some s0 ->
  insert_all fuel s0 kvs = Some s ->
  table_size s < 65536 ->
  (length kvs < steps)%nat -> table_size s < Z.of_nat ifuel ->
  exists l, iterate_all steps ifuel s = Some (l, true) /\ l ≡ₚ kvs.
Proof.
  intros Hnew Hins Hts Hsteps Hfuel.
  pose proof (built_insert_all _ _ _ _ _ (built_new _ _ Hnew) Hins) as Hb.
  change ([] ++ kvs) with kvs in Hb.
  destruct Hb as ((m & Hm & Hm2 & Hlen) & Hinv & Hn & _ & _ & Hent & Hocc).
  exists (pair_at s <$> occupied (table s)). split.
  - unfold iterate_all, small_cuckoo_iterate.
    change 0 with (Z.of_nat 0).
    rewrite (iterate_from_small s steps ifuel 0); try done.
    + intros h j Hh Hnz. destruct (Hinv _ _ Hh Hnz) as (_ & e & He & _).
      by exists e.
    + rewrite drop_0, Hocc, length_fmap, length_seq. done.
    + lia.
  - rewrite Hocc. by rewrite pairs_of_entries.
Qed.

(** *** An empty table of [2 ^ 17] slots *)

Lemma has_next_all_zero s fuel c :
  65536 <= table_size s ->
  (forall x, 0 <= x < 65536 -> load (table s) x = Some 0) ->
  0 <= c < 65536 ->
  small_cuckoo_iter_has_next fuel (SmallCuckooIter s c) = None.
Proof.
  intros Hts Hz. revert c. induction fuel as [|fuel IH]; intros c Hc; [done|].
  rewrite has_next_S. cbn [iter_i iter_sc].
  rewrite decide_True by lia. rewrite Hz by done. cbn [mbind option_bind].
  rewrite decide_True by done. apply IH. apply u16_range.
Qed.

Lemma ceil_pow2_9_16 n : 9 <= n <= 16 -> ceil_pow2 n = 16.
Proof.
  intros Hn. rewrite ceil_pow2_log2_up by lia.
  rewrite (Z.log2_up_unique n 4); [done|lia|].
  change (2 ^ Z.pred 4) with 8. change (2 ^ 4) with 16. lia.
Qed.

(** X21: on the empty table that [small_cuckoo_new] makes for a hint from 9
    to 16, which has [2 ^ 17] slots, [small_cuckoo_iter_has_next] does not
    return: the 16-bit cursor wraps before it reaches [table_size], and no
    slot stops the scan. *)
Theorem has_next_never_returns_on_empty_large_table initial_size s :
  9 <= initial_size <= 16 ->
  small_cuckoo_new initial_size = Some s ->
  table_size s = 131072 /\
  forall fuel, small_cuckoo_iter_has_next fuel (small_cuckoo_iterate s) = None.
Proof.
  intros Hn Hnew. rewrite small_cuckoo_new_small in Hnew by lia.
  injection Hnew as <-. rewrite (ceil_pow2_9_16 _ Hn).
  change (2 ^ (16 + 1)) with 131072. cbn [table_size].
  split; [done|]. intros fuel. unfold small_cuckoo_iterate.
  apply has_next_all_zero; cbn [table_size table]; [lia| |lia].
  intros x Hx. unfold load, calloc. rewrite decide_True by lia.
  apply lookup_replicate_2. lia.
Qed.

(** ** [small_cuckoo_free] *)

(** X22: a freed table is the zeroed structure, whatever the table was, and
    freeing it again changes nothing.  On it [small_cuckoo_insert] aborts,
    [small_cuckoo_find] reads through the null slot table,
    [small_cuckoo_iter_has_next] says no at once, [small_cuckoo_iter_next]
    aborts, and [small_cuckoo_serialize] writes a count of 0 and nothing
    else. *)
Theorem freed_table_is_unusable s :
  small_cuckoo_free (small_cuckoo_free s) = small_cuckoo_free s /\
  (forall fuel k v, small_cuckoo_insert fuel (small_cuckoo_free s) k v = None) /\
  (forall k, small_cuckoo_find (small_cuckoo_free s) k = None) /\
  (forall fuel,
     small_cuckoo_iter_has_next (S fuel) (small_cuckoo_iterate (small_cuckoo_free s))
     = Some (false, small_cuckoo_iterate (small_cuckoo_free s))) /\
  (forall fuel,
     small_cuckoo_iter_next fuel (small_cuckoo_iterate (small_cuckoo_free s)) = None) /\
  small_cuckoo_serialize (small_cuckoo_free s) = Some [0; 0].
Proof.
  split; [done|]. split.
  { intros fuel k v. unfold small_cuckoo_insert, append, small_cuckoo_free.
    cbn [n_entries]. by rewrite decide_False by lia. }
  split.
  { assert (Hnil : forall i, load (@nil Z) i = None)
      by (intros i; unfold load; by destruct (decide _)).
    intros k. unfold small_cuckoo_find, probe, small_cuckoo_free.
    cbn [table]. by rewrite !Hnil. }
  split.
  { intros fuel. rewrite has_next_S. unfold small_cuckoo_iterate, small_cuckoo_free.
    cbn [iter_i iter_sc table_size]. by rewrite decide_False by lia. }
  split.
  { intros [|fuel]; [done|]. rewrite next_S.
    unfold small_cuckoo_iterate, small_cuckoo_free.
    cbn [iter_i iter_sc table_size]. by rewrite decide_False by lia. }
  unfold small_cuckoo_serialize, small_cuckoo_free. cbn [n_entries entries].
  rewrite decide_True by (cbn [length]; lia). done.
Qed.

(** ** The first insertion *)

Lemma store_in_range {A} (l : list A) i x :
  0 <= i < Z.of_nat (length l) -> store l i x = Some (<[Z.to_nat i := x]> l).
Proof. intros H. unfold store. by rewrite decide_True. Qed.

(** X23: the first [small_cuckoo_insert] into a table that [small_cuckoo_new]
    made always returns, with one round of the loop and no growth: the new
    entry is entry 1, its index goes into the [hash_1] slot of the key, and
    [small_cuckoo_find] then finds the value. *)
Theorem first_insert_returns initial_size s0 k v :
  0 <= initial_size <= 2 ^ 32 ->
  small_cuckoo_new initial_size = Some s0 ->
  exists s,
    small_cuckoo_insert 1 s0 k v = Some s /\
    table_size s = table_size s0 /\ n_entries s = 2 /\
    table s = <[Z.to_nat (hash_1 (table_size s0) k) := 1]> (table s0) /\
    load (entries s) 1 = Some (Entry k v) /\
    small_cuckoo_find s k = Some (Some v).
Proof.
  intros Hx Hnew. pose proof (built_new _ _ Hnew) as Hb0.
  destruct (new_small _ _ Hx Hnew) as (Hle & Hs0 & Hts).
  assert (Happ : exists s1,
            append s0 k v = Some (s1, 1) /\ table s1 = table s0 /\
            table_size s1 = table_size s0 /\ n_entries s1 = 2 /\
            load (entries s1) 1 = Some (Entry k v)).
  { rewrite Hs0. unfold append. cbn [n_entries entries_len entries table table_size].
    rewrite decide_True by lia. change (u16 (1 + 1)) with 2.
    assert (Hlk : forall es : list entry, 1 < Z.of_nat (length es) ->
              load (<[Z.to_nat 1 := Entry k v]> es) 1 = Some (Entry k v)).
    { intros es Hes. unfold load. rewrite decide_True by lia.
      apply list_lookup_insert_eq. lia. }
    destruct (decide (2 >= 1 + initial_size)) as [Hfull|Hroom].
    - rewrite store_in_range.
      + rewrite bind_Some_l. eexists. split; [done|].
        cbn [table table_size n_entries entries]. do 3 (split; [done|]).
        apply Hlk. rewrite length_realloc.
        * rewrite Z.shiftl_mul_pow2, u16_small by lia. lia.
        * apply u16_range.
      + rewrite length_realloc by apply u16_range.
        rewrite Z.shiftl_mul_pow2, u16_small by lia. lia.
    - rewrite store_in_range.
      + rewrite bind_Some_l. eexists. split; [done|].
        cbn [table table_size n_entries entries]. do 3 (split; [done|]).
        apply Hlk. unfold malloc. rewrite length_realloc by lia. lia.
      + unfold malloc. rewrite length_realloc by lia. lia. }
  destruct Happ as (s1 & Happ & Ht1 & Hts1 & Hn1 & He1).
  assert (Hslot : load (table s1) (hash_1 (table_size s1) k) = Some 0).
  { destruct Hb0 as ((m & Hm & Hm2 & Hlen) & _).
    assert (1 <= m) as Hm1.
    { destruct (decide (m = 0)) as [->|]; [|lia]. rewrite Hm2 in Hts.
      change (2 ^ 0) with 1 in Hts. lia. }
    pose proof (hash_1_range m k ltac:(lia)) as Hr.
    rewrite Ht1, Hts1, Hm2. unfold load. rewrite decide_True by lia.
    rewrite Hs0. cbn [table]. unfold calloc. apply lookup_replicate_2.
    rewrite Hs0 in Hm2. cbn [table_size] in Hm2. rewrite Hm2. lia. }
  assert (Hins : small_cuckoo_insert 1 s0 k v
                 = Some (with_table s1 (table_size s1)
                           (<[Z.to_nat (hash_1 (table_size s1) k) := 1]>
                              (table s1)))).
  { unfold small_cuckoo_insert. rewrite Happ, bind_Some_l. cbv beta iota.
    apply (insert_empty 0 s1 1 (Entry k v)); done. }
  rewrite Ht1, Hts1 in Hins.
  eexists. split; [exact Hins|]. cbn [table_size n_entries table entries with_table].
  do 4 (split; [done|]).
  apply (find_built _ [(k, v)] 0 k v).
  - apply (built_insert 1 s0 [] k v); done.
  - apply NoDup_singleton.
  - done.
Qed.

End SmallCuckoo.

(** ** The first selector *)

Lemma byte_of_low56 k j :
  0 <= j <= 6 -> byte_of (k mod 2 ^ 56) j = byte_of k j.
Proof.
  intros Hj. unfold byte_of. apply Z.bits_inj'. intros n Hn.
  rewrite !Z.land_spec, !Z.shiftr_spec by done.
  destruct (decide (n < 8)) as [Hlt | Hge].
  - by rewrite Z.mod_pow2_bits_low by lia.
  - change 255 with (Z.ones 8). rewrite Z.ones_spec_high by lia.
    by rewrite !andb_false_r.
Qed.

Lemma larsons_hash_low56 k : larsons_hash (k mod 2 ^ 56) = larsons_hash k.
Proof. unfold larsons_hash. by rewrite !byte_of_low56 by lia. Qed.

(** C10: [hash_1] reads the low 7 bytes of the key only, so two keys that
    agree on them have the same even slot in a table of any size. *)
Theorem hash_1_ignores_top_byte n k k' :
  k mod 2 ^ 56 = k' mod 2 ^ 56 -> hash_1 n k = hash_1 n k'.
Proof.
  intros E. unfold hash_1.
  by rewrite <- (larsons_hash_low56 k), E, larsons_hash_low56.
Qed.

Lemma hash_1_ignores_top_byte_witness :
  1 mod 2 ^ 56 = (1 + 255 * 2 ^ 56) mod 2 ^ 56 /\
  hash_1 1024 1 = hash_1 1024 (1 + 255 * 2 ^ 56).
Proof.
  split; [reflexivity |].
  apply (hash_1_ignores_top_byte 1024 1 (1 + 255 * 2 ^ 56)). reflexivity.
Defined.

(** * The claims at concrete inputs

    Memory that holds zeros where it is not initialised is the most
    favourable case for the code; the tables below are built in it. *)

Definition zeroed_entries : nat -> entry := fun _ => Entry 0 0.
Definition zeroed_words : nat -> Z := fun _ => 0.

(** Three keys that have the same low 15 bits under [larsons_hash], under
    [jenkins] and under [crc32] (after the fold of [hash_2]). *)
Definition colliding_pairs : list (Z * Z) :=
  [(12198136859, 1); (50759940350, 2); (54909425369, 3)].

(** The table with the single pair (42, 100), and its serialisation. *)
Definition single_pair : small_cuckoo :=
  SmallCuckoo 2 [1; 0] 2 2 [Entry 0 0; Entry 42 100].

Definition single_pair_bytes : list Z :=
  [2; 0] ++ replicate 16 0 ++ [42; 0; 0; 0; 0; 0; 0; 0; 100; 0; 0; 0; 0; 0; 0; 0].

(** A block of memory that holds 9 in its third 16-bit cell. *)
Definition used_words : nat -> Z := fun j => if decide (j = 2%nat) then 9 else 0.

(** The table after [small_cuckoo_new (0)] and two insertions of the key 7,
    and the same with a third pair with key 7 appended to the entry store. *)
Definition twice_7 : small_cuckoo :=
  SmallCuckoo 2 [2; 1] 3 4 [Entry 0 0; Entry 7 1; Entry 7 2; Entry 0 0].


(** The table made with hint 0 when the keys 1 and 2 are in it and the pair
    [(3, 30)] has been stored as entry 3. *)
Definition keys_123 : small_cuckoo :=
  SmallCuckoo 2 [2; 1] 4 8
    [Entry 0 0; Entry 1 10; Entry 2 20; Entry 3 30;
     Entry 0 0; Entry 0 0; Entry 0 0; Entry 0 0].

Lemma same_slots_colliding word_hash :
  folded word_hash 12198136859 mod 2 ^ 15 = folded word_hash 50759940350 mod 2 ^ 15 ->
  folded word_hash 12198136859 mod 2 ^ 15 = folded word_hash 54909425369 mod 2 ^ 15 ->
  forall heap_entry initial_size,
    ~ finds_all word_hash heap_entry initial_size colliding_pairs.
Proof.
  intros E2 E3 heap_entry initial_size (fuel & s0 & s & Hnew & Hall & _).
  apply (built_new word_hash) in Hnew.
  pose proof (built_insert_all _ _ _ _ _ _ _ Hnew Hall) as Hb.
  apply (three_in_two_slots word_hash s _ 0 1 2
           12198136859 50759940350 54909425369 1 2 3 Hb);
    try done.
  - apply same_slots_low15; [vm_compute; reflexivity | exact E2].
  - apply same_slots_low15; [vm_compute; reflexivity | exact E3].
Qed.

(** C1 fails as stated: three distinct keys that share both candidate slots
    in a table of any size.  The third insertion never returns, in the build
    with [jenkins] and in the build with [crc32], so no [find] follows. *)
Lemma colliding_keys_never_found :
  NoDup colliding_pairs.*1 /\
  (forall heap_entry initial_size,
     ~ finds_all jenkins heap_entry initial_size colliding_pairs) /\
  (forall heap_entry initial_size,
     ~ finds_all crc32 heap_entry initial_size colliding_pairs).
Proof.
  split; [by compute_done |].
  split; apply same_slots_colliding; vm_compute; reflexivity.
Qed.

Lemma find_after_inserts_witness :
  small_cuckoo_new zeroed_entries 0
  = Some (SmallCuckoo 2 [0; 0] 1 1 [Entry 0 0]) /\
  insert_all jenkins zeroed_entries 10
    (SmallCuckoo 2 [0; 0] 1 1 [Entry 0 0]) [(1, 10); (2, 20); (3, 30)]
  = Some (SmallCuckoo 4 [3; 1; 2; 0] 4 8
            (Entry 0 0 :: Entry 1 10 :: Entry 2 20 :: Entry 3 30
               :: replicate 4 (Entry 0 0))) /\
  small_cuckoo_find jenkins
    (SmallCuckoo 4 [3; 1; 2; 0] 4 8
       (Entry 0 0 :: Entry 1 10 :: Entry 2 20 :: Entry 3 30
          :: replicate 4 (Entry 0 0))) 2
  = Some (Some 20).
Proof.
  assert (small_cuckoo_new zeroed_entries 0
          = Some (SmallCuckoo 2 [0; 0] 1 1 [Entry 0 0])) as Hnew
    by (vm_compute; reflexivity).
  assert (insert_all jenkins zeroed_entries 10
            (SmallCuckoo 2 [0; 0] 1 1 [Entry 0 0]) [(1, 10); (2, 20); (3, 30)]
          = Some (SmallCuckoo 4 [3; 1; 2; 0] 4 8
                    (Entry 0 0 :: Entry 1 10 :: Entry 2 20 :: Entry 3 30
                       :: replicate 4 (Entry 0 0)))) as Hall
    by (vm_compute; reflexivity).
  split; [exact Hnew |]. split; [exact Hall |].
  apply (find_after_inserts jenkins zeroed_entries 0 10
           [(1, 10); (2, 20); (3, 30)] _ _ 2 20 Hnew Hall).
  - compute_done.
  - compute_done.
Defined.

(** C3 fails as stated: the table with the single pair (42, 100) is what
    [small_cuckoo_new (0)] and one insertion make, and its stream has 34
    bytes, not 18: the entry at index 0 is written too. *)
Lemma single_pair_stream_has_34_bytes :
  (s ← small_cuckoo_new zeroed_entries 0;
   small_cuckoo_insert jenkins zeroed_entries 1 s 42 100) = Some single_pair /\
  forall stack_word,
    exists bytes,
      small_cuckoo_serialize stack_word single_pair = Some bytes /\
      length bytes = 34%nat /\ length bytes <> 18%nat.
Proof.
  split; [vm_compute; reflexivity |].
  intros stack_word. eexists. split; [reflexivity |]. split; [reflexivity | done].
Qed.

Lemma serialize_layout_witness :
  small_cuckoo_serialize zeroed_words single_pair = Some single_pair_bytes /\
  Z.of_nat (length single_pair_bytes) = 2 + 16 * n_entries single_pair /\
  take 2 single_pair_bytes = le_bytes 2 (u32 (n_entries single_pair)) /\
  forall (j : nat) e,
    Z.of_nat j < n_entries single_pair -> entries single_pair !! j = Some e ->
    take 4 (drop (2 + 16 * j) single_pair_bytes) = le_bytes 4 (u32 (key e)) /\
    take 4 (drop (2 + 16 * j + 8) single_pair_bytes) = le_bytes 4 (u32 (value e)).
Proof.
  assert (small_cuckoo_serialize zeroed_words single_pair = Some single_pair_bytes)
    as H by (vm_compute; reflexivity).
  split; [exact H |].
  exact (serialize_layout zeroed_words single_pair single_pair_bytes H).
Defined.

Lemma deserialize_table_uninitialised_witness :
  deserialize_read used_words single_pair_bytes
  = Some (SmallCuckoo 8 [0; 0; 9; 0; 0; 0; 0; 0] 2 0 [Entry 0 0; Entry 42 100]) /\
  table (SmallCuckoo 8 [0; 0; 9; 0; 0; 0; 0; 0] 2 0 [Entry 0 0; Entry 42 100])
  = (fun j => u16 (used_words j)) <$> seq 0 (Z.to_nat 8) /\
  small_cuckoo_deserialize jenkins used_words 5 single_pair_bytes
  = reinsert jenkins 5 (Z.of_nat <$> seq 0 (Z.to_nat 2))
      (SmallCuckoo 8 [0; 0; 9; 0; 0; 0; 0; 0] 2 0 [Entry 0 0; Entry 42 100]).
Proof.
  assert (deserialize_read used_words single_pair_bytes
          = Some (SmallCuckoo 8 [0; 0; 9; 0; 0; 0; 0; 0] 2 0
                    [Entry 0 0; Entry 42 100])) as H
    by (vm_compute; reflexivity).
  split; [exact H |].
  exact (deserialize_table_uninitialised jenkins used_words 5 single_pair_bytes _ H).
Defined.

(** C6, what the code does: the table read back from the stream of the
    single pair (42, 100), into a block of memory that held 9 in one cell, is
    reachable and has a slot that holds 9, which is the index of no entry.
    In both builds. *)
Theorem deserialized_table_breaks_slot_invariant :
  small_cuckoo_deserialize jenkins used_words 5 single_pair_bytes
  = Some (SmallCuckoo 8 [0; 0; 9; 0; 1; 0; 0; 0] 2 0 [Entry 0 0; Entry 42 100]) /\
  small_cuckoo_deserialize crc32 used_words 5 single_pair_bytes
  = Some (SmallCuckoo 8 [0; 0; 9; 0; 1; 0; 0; 0] 2 0 [Entry 0 0; Entry 42 100]) /\
  (forall word_hash,
     ~ slot_invariant word_hash
         (SmallCuckoo 8 [0; 0; 9; 0; 1; 0; 0; 0] 2 0 [Entry 0 0; Entry 42 100])) /\
  reachable jenkins zeroed_entries used_words
    (SmallCuckoo 8 [0; 0; 9; 0; 1; 0; 0; 0] 2 0 [Entry 0 0; Entry 42 100]).
Proof.
  assert (small_cuckoo_deserialize jenkins used_words 5 single_pair_bytes
          = Some (SmallCuckoo 8 [0; 0; 9; 0; 1; 0; 0; 0] 2 0
                    [Entry 0 0; Entry 42 100])) as H
    by (vm_compute; reflexivity).
  split; [exact H |]. split; [vm_compute; reflexivity |]. split.
  - intros word_hash Hinv.
    destruct (Hinv 2%nat 9 eq_refl ltac:(done)) as [Hj _]. simpl in Hj. lia.
  - by eapply reachable_deserialize.
Qed.

(** C2, what the code does: the key [2 ^ 32 + 42] comes back as 42.  The
    table read back does not hold the pair that was written, and [find] on
    the key that was inserted fails. *)
Theorem round_trip_truncates_keys :
  exists s bytes s',
    (s0 ← small_cuckoo_new zeroed_entries 0;
     small_cuckoo_insert jenkins zeroed_entries 1 s0 (2 ^ 32 + 42) 100) = Some s /\
    small_cuckoo_find jenkins s (2 ^ 32 + 42) = Some (Some 100) /\
    small_cuckoo_serialize zeroed_words s = Some bytes /\
    small_cuckoo_deserialize jenkins zeroed_words 5 bytes = Some s' /\
    entries s' = [Entry 0 0; Entry 42 100] /\
    small_cuckoo_find jenkins s' (2 ^ 32 + 42) = Some None.
Proof.
  exists (SmallCuckoo 2 [1; 0] 2 2 [Entry 0 0; Entry (2 ^ 32 + 42) 100]),
         single_pair_bytes,
         (SmallCuckoo 8 [0; 0; 0; 0; 1; 0; 0; 0] 2 0 [Entry 0 0; Entry 42 100]).
  split; [vm_compute; reflexivity |].
  split; [vm_compute; reflexivity |].
  split; [vm_compute; reflexivity |].
  split; [vm_compute; reflexivity |].
  split; vm_compute; reflexivity.
Qed.




Lemma entry_store_overflow_witness :
  small_cuckoo_new zeroed_entries 0 = Some (SmallCuckoo 2 [0; 0] 1 1 [Entry 0 0]) /\
  Z.of_nat (length (replicate (Z.to_nat 32767) (5, 5))) = 32767 /\
  insert_all jenkins zeroed_entries 1 (SmallCuckoo 2 [0; 0] 1 1 [Entry 0 0])
    (replicate (Z.to_nat 32767) (5, 5)) = None.
Proof.
  assert (small_cuckoo_new zeroed_entries 0
          = Some (SmallCuckoo 2 [0; 0] 1 1 [Entry 0 0])) as Hnew
    by (vm_compute; reflexivity).
  assert (Z.of_nat (length (replicate (Z.to_nat 32767) (5, 5))) = 32767) as Hlen.
  { rewrite length_replicate. apply Z2Nat.id. lia. }
  split; [exact Hnew |]. split; [exact Hlen |].
  exact (entry_store_overflow jenkins zeroed_entries 1 _ _ Hnew Hlen).
Defined.

Lemma insert_appends_witness :
  Z.of_nat (length (entries (SmallCuckoo 2 [0; 0] 1 1 [Entry 0 0]))) <= 65535 /\
  small_cuckoo_insert jenkins zeroed_entries 1
    (SmallCuckoo 2 [0; 0] 1 1 [Entry 0 0]) 7 1
  = Some (SmallCuckoo 2 [1; 0] 2 2 [Entry 0 0; Entry 7 1]) /\
  small_cuckoo_insert jenkins zeroed_entries 1
    (SmallCuckoo 2 [1; 0] 2 2 [Entry 0 0; Entry 7 1]) 7 2 = Some twice_7 /\
  n_entries twice_7 = 1 + 2 /\
  load (entries twice_7) 1 = Some (Entry 7 1) /\
  load (entries twice_7) (1 + 1) = Some (Entry 7 2).
Proof.
  assert (Z.of_nat (length (entries (SmallCuckoo 2 [0; 0] 1 1 [Entry 0 0])))
          <= 65535) as Hlen by (simpl; lia).
  assert (small_cuckoo_insert jenkins zeroed_entries 1
            (SmallCuckoo 2 [0; 0] 1 1 [Entry 0 0]) 7 1
          = Some (SmallCuckoo 2 [1; 0] 2 2 [Entry 0 0; Entry 7 1])) as H1
    by (vm_compute; reflexivity).
  assert (small_cuckoo_insert jenkins zeroed_entries 1
            (SmallCuckoo 2 [1; 0] 2 2 [Entry 0 0; Entry 7 1]) 7 2
          = Some twice_7) as H2 by (vm_compute; reflexivity).
  split; [exact Hlen |]. split; [exact H1 |]. split; [exact H2 |].
  destruct (insert_appends jenkins zeroed_entries 1 _ 7 1 _ Hlen H1)
    as (_ & _ & _ & _ & Htwice).
  exact (Htwice 1%nat 2 twice_7 H2).
Defined.

Lemma ceil_pow2_least_power_witness :
  0 < 5 <= 2 ^ 32 /\
  exists m, 0 <= m <= 32 /\ ceil_pow2 5 = 2 ^ m /\
    5 <= ceil_pow2 5 /\ ceil_pow2 5 < 2 * 5 /\
    forall m', 0 <= m' -> 5 <= 2 ^ m' -> ceil_pow2 5 <= 2 ^ m'.
Proof. split; [lia|]. apply ceil_pow2_least_power. lia. Defined.

Lemma reverse_nibbles_64_reverses_witness :
  0 <= 0x0123456789abcdef < 2 ^ 64 /\
  reverse_nibbles_64 0x0123456789abcdef = 0xfedcba9876543210 /\
  (0 <= reverse_nibbles_64 0x0123456789abcdef < 2 ^ 64 /\
   reverse_nibbles_64 (reverse_nibbles_64 0x0123456789abcdef)
   = 0x0123456789abcdef /\
   forall j, 0 <= j < 16 ->
     Z.land (Z.shiftr (reverse_nibbles_64 0x0123456789abcdef) (4 * j)) 15
     = Z.land (Z.shiftr 0x0123456789abcdef (4 * (15 - j))) 15).
Proof.
  split; [lia|]. split; [reflexivity|].
  exact (reverse_nibbles_64_reverses 0x0123456789abcdef ltac:(lia)).
Defined.

Lemma bitmap_next_lowest_bit_witness :
  0 <= 12 < 2 ^ 32 /\ bitmap_next 12 = (8, 2) /\
  ((12 = 0 /\ bitmap_next 12 = (0, 2 ^ 32 - 1)) \/
   (exists r, 0 <= r < 32 /\ bitmap_next 12 = (12 - 2 ^ r, r) /\
      Z.testbit 12 r = true /\ Z.testbit (12 - 2 ^ r) r = false /\
      (forall j, 0 <= j < r -> Z.testbit 12 j = false) /\
      (forall j, 0 <= j -> j <> r -> Z.testbit (12 - 2 ^ r) j = Z.testbit 12 j))).
Proof.
  split; [lia|]. split; [reflexivity|]. apply bitmap_next_lowest_bit. lia.
Defined.

(** ** The further properties at concrete inputs *)

(** The table after the pairs [(1, 10); (2, 20); (3, 30)] were inserted into
    a table made with hint 0. *)
Definition pairs_123 : small_cuckoo :=
  SmallCuckoo 4 [3; 1; 2; 0] 4 8
    [Entry 0 0; Entry 1 10; Entry 2 20; Entry 3 30;
     Entry 0 0; Entry 0 0; Entry 0 0; Entry 0 0].

Lemma candidate_slots_witness :
  1 <= 10 <= 63 /\
  hash_1 (2 ^ 10) 42 = 604 /\ hash_2 jenkins (2 ^ 10) 42 = 925 /\
  (0 <= hash_1 (2 ^ 10) 42 < 2 ^ 10 /\ 0 <= hash_2 jenkins (2 ^ 10) 42 < 2 ^ 10 /\
   hash_1 (2 ^ 10) 42 < 65536 /\ hash_2 jenkins (2 ^ 10) 42 < 65536 /\
   Z.even (hash_1 (2 ^ 10) 42) = true /\
   Z.odd (hash_2 jenkins (2 ^ 10) 42) = true /\
   hash_1 (2 ^ 10) 42 <> hash_2 jenkins (2 ^ 10) 42).
Proof.
  split; [lia |]. split; [vm_compute; reflexivity |].
  split; [vm_compute; reflexivity |].
  exact (candidate_slots jenkins 10 42 ltac:(lia)).
Defined.


Lemma insert_keeps_entry_store_witness :
  insert jenkins 5 keys_123 3 = Some pairs_123 /\
  entries pairs_123 = entries keys_123 /\
  n_entries pairs_123 = n_entries keys_123 /\
  entries_len pairs_123 = entries_len keys_123.
Proof.
  assert (insert jenkins 5 keys_123 3 = Some pairs_123) as H
    by (vm_compute; reflexivity).
  split; [exact H |].
  exact (insert_keeps_entry_store jenkins 5 keys_123 3 pairs_123 (or_introl H)).
Defined.

Lemma slot_invariant_keys_13 word_hash :
  slot_invariant word_hash (with_table keys_123 2 [1; 3]).
Proof.
  intros h j Hh Hnz. destruct h as [| [| h]]; [| | done].
  - injection Hh as <-. split; [done |]. exists (Entry 1 10).
    split; [reflexivity |]. vm_compute. reflexivity.
  - injection Hh as <-. split; [done |]. exists (Entry 3 30).
    split; [reflexivity |]. unfold hash_2. cbn [table_size with_table key Z.even Z.of_nat Pos.of_succ_nat].
    change (u64 (Z.shiftr 2 1 - 1)) with 0. by rewrite Z.land_0_r.
Qed.

Lemma double_size_rehashes_witness :
  table_ok (with_table keys_123 2 [1; 3]) /\
  table_size (with_table keys_123 2 [1; 3]) < 2 ^ 63 /\
  slot_invariant jenkins (with_table keys_123 2 [1; 3]) /\
  double_size jenkins 4 (with_table keys_123 2 [1; 3])
  = Some (with_table keys_123 4 [3; 1; 0; 0]) /\
  (table_size (with_table keys_123 4 [3; 1; 0; 0])
   = 2 * table_size (with_table keys_123 2 [1; 3]) /\
   table_ok (with_table keys_123 4 [3; 1; 0; 0]) /\
   slot_invariant jenkins (with_table keys_123 4 [3; 1; 0; 0]) /\
   occupied (table (with_table keys_123 4 [3; 1; 0; 0]))
   ≡ₚ occupied (table (with_table keys_123 2 [1; 3]))).
Proof.
  assert (table_ok (with_table keys_123 2 [1; 3])) as Hok
    by (exists 1; split; [lia |]; split; reflexivity).
  assert (double_size jenkins 4 (with_table keys_123 2 [1; 3])
          = Some (with_table keys_123 4 [3; 1; 0; 0])) as Hd
    by (vm_compute; reflexivity).
  split; [exact Hok |]. split; [vm_compute; reflexivity |].
  split; [apply slot_invariant_keys_13 |]. split; [exact Hd |].
  exact (double_size_rehashes jenkins 4 _ _ Hok ltac:(vm_compute; reflexivity)
           (slot_invariant_keys_13 jenkins) Hd).
Defined.

Lemma new_then_123 :
  small_cuckoo_new zeroed_entries 0 = Some (SmallCuckoo 2 [0; 0] 1 1 [Entry 0 0]) /\
  insert_all jenkins zeroed_entries 10 (SmallCuckoo 2 [0; 0] 1 1 [Entry 0 0])
    [(1, 10); (2, 20); (3, 30)] = Some pairs_123.
Proof. split; vm_compute; reflexivity. Qed.

Lemma inserts_keep_slot_invariant_witness :
  small_cuckoo_new zeroed_entries 0 = Some (SmallCuckoo 2 [0; 0] 1 1 [Entry 0 0]) /\
  insert_all jenkins zeroed_entries 10 (SmallCuckoo 2 [0; 0] 1 1 [Entry 0 0])
    [(1, 10); (2, 20); (3, 30)] = Some pairs_123 /\
  (slot_invariant jenkins pairs_123 /\
   occupied (table pairs_123)
   ≡ₚ (Z.of_nat <$> seq 1 (length [(1, 10); (2, 20); (3, 30)])) /\
   table_ok pairs_123 /\
   table_size (SmallCuckoo 2 [0; 0] 1 1 [Entry 0 0]) <= table_size pairs_123).
Proof.
  split; [exact (proj1 new_then_123) |]. split; [exact (proj2 new_then_123) |].
  exact (inserts_keep_slot_invariant jenkins zeroed_entries 0 10 _ _ _
           (proj1 new_then_123) (proj2 new_then_123)).
Defined.

Lemma entry_store_in_bounds_witness :
  0 <= 0 <= 2 ^ 32 /\
  small_cuckoo_new zeroed_entries 0 = Some (SmallCuckoo 2 [0; 0] 1 1 [Entry 0 0]) /\
  insert_all jenkins zeroed_entries 10 (SmallCuckoo 2 [0; 0] 1 1 [Entry 0 0])
    [(1, 10); (2, 20); (3, 30)] = Some pairs_123 /\
  (n_entries pairs_123 = 1 + Z.of_nat (length [(1, 10); (2, 20); (3, 30)]) /\
   n_entries pairs_123 <= entries_len pairs_123 /\
   Z.of_nat (length (entries pairs_123)) = entries_len pairs_123 /\
   entries_len pairs_123 < 65536 /\
   forall (j : nat) k v, [(1, 10); (2, 20); (3, 30)] !! j = Some (k, v) ->
     load (entries pairs_123) (1 + Z.of_nat j) = Some (Entry k v)).
Proof.
  split; [lia |].
  split; [exact (proj1 new_then_123) |]. split; [exact (proj2 new_then_123) |].
  exact (entry_store_in_bounds jenkins zeroed_entries 0 10 _ _ _ ltac:(lia)
           (proj1 new_then_123) (proj2 new_then_123)).
Defined.

Lemma key_4_absent : 4 ∉ [(1, 10); (2, 20); (3, 30)].*1.
Proof.
  intros H. cbn [fmap list_fmap fst] in H.
  repeat (apply elem_of_cons in H as [H | H]; [done |]).
  by apply elem_of_nil in H.
Qed.

Lemma find_absent_key_witness :
  0 <= 0 <= 2 ^ 32 /\
  small_cuckoo_new zeroed_entries 0 = Some (SmallCuckoo 2 [0; 0] 1 1 [Entry 0 0]) /\
  insert_all jenkins zeroed_entries 10 (SmallCuckoo 2 [0; 0] 1 1 [Entry 0 0])
    [(1, 10); (2, 20); (3, 30)] = Some pairs_123 /\
  (4 ∉ [(1, 10); (2, 20); (3, 30)].*1) /\
  small_cuckoo_find jenkins pairs_123 4 = Some None.
Proof.
  split; [lia |].
  split; [exact (proj1 new_then_123) |]. split; [exact (proj2 new_then_123) |].
  split; [exact key_4_absent |].
  exact (find_absent_key jenkins zeroed_entries 0 10 _ _ _ 4 ltac:(lia)
           (proj1 new_then_123) (proj2 new_then_123) key_4_absent).
Defined.

Lemma find_delivers_an_inserted_value_witness :
  0 <= 0 <= 2 ^ 32 /\
  small_cuckoo_new zeroed_entries 0 = Some (SmallCuckoo 2 [0; 0] 1 1 [Entry 0 0]) /\
  insert_all jenkins zeroed_entries 10 (SmallCuckoo 2 [0; 0] 1 1 [Entry 0 0])
    [(1, 10); (2, 20); (3, 30)] = Some pairs_123 /\
  small_cuckoo_find jenkins pairs_123 2 = Some (Some 20) /\
  ((2 ∈ [(1, 10); (2, 20); (3, 30)].*1 ->
    exists v, (2, v) ∈ [(1, 10); (2, 20); (3, 30)] /\
      small_cuckoo_find jenkins pairs_123 2 = Some (Some v)) /\
   (forall v, small_cuckoo_find jenkins pairs_123 2 = Some (Some v) ->
      (2, v) ∈ [(1, 10); (2, 20); (3, 30)])).
Proof.
  split; [lia |].
  split; [exact (proj1 new_then_123) |]. split; [exact (proj2 new_then_123) |].
  split; [vm_compute; reflexivity |].
  exact (find_delivers_an_inserted_value jenkins zeroed_entries 0 10 _ _ _ 2
           ltac:(lia) (proj1 new_then_123) (proj2 new_then_123)).
Defined.

Lemma serialize_read_back_witness :
  small_cuckoo_serialize zeroed_words single_pair = Some single_pair_bytes /\
  n_entries single_pair <= 16 /\
  deserialize_read zeroed_words single_pair_bytes
  = Some (SmallCuckoo 8 (replicate 8 0) 2 0 [Entry 0 0; Entry 42 100]) /\
  deserialize_read zeroed_words single_pair_bytes
  = Some (SmallCuckoo (2 ^ (ceil_pow2 (n_entries single_pair) + 1))
            (u16 <$> malloc zeroed_words (2 ^ (ceil_pow2 (n_entries single_pair) + 1)))
            (n_entries single_pair) 0
            (low_words <$> take (Z.to_nat (n_entries single_pair))
                             (entries single_pair))).
Proof.
  assert (small_cuckoo_serialize zeroed_words single_pair = Some single_pair_bytes)
    as H by (vm_compute; reflexivity).
  split; [exact H |]. split; [vm_compute; discriminate |].
  split; [vm_compute; reflexivity |].
  exact (serialize_read_back zeroed_words zeroed_words single_pair
           single_pair_bytes H ltac:(vm_compute; discriminate)).
Defined.

Lemma deserialize_short_stream_witness :
  Z.of_nat (length [2; 0; 1; 2; 3]) < 2 + 16 * le_value (take 2 [2; 0; 1; 2; 3]) /\
  small_cuckoo_deserialize jenkins zeroed_words 5 [2; 0; 1; 2; 3] = None.
Proof.
  split; [vm_compute; reflexivity |].
  exact (deserialize_short_stream jenkins zeroed_words 5 [2; 0; 1; 2; 3]
           ltac:(vm_compute; reflexivity)).
Defined.

Lemma deserialized_table_rejects_insert_witness :
  small_cuckoo_deserialize jenkins zeroed_words 5 single_pair_bytes
  = Some (SmallCuckoo 8 [0; 0; 0; 0; 1; 0; 0; 0] 2 0 [Entry 0 0; Entry 42 100]) /\
  entries_len (SmallCuckoo 8 [0; 0; 0; 0; 1; 0; 0; 0] 2 0 [Entry 0 0; Entry 42 100])
  = 0 /\
  forall fuel' k v,
    small_cuckoo_insert jenkins zeroed_entries fuel'
      (SmallCuckoo 8 [0; 0; 0; 0; 1; 0; 0; 0] 2 0 [Entry 0 0; Entry 42 100]) k v
    = None.
Proof.
  assert (small_cuckoo_deserialize jenkins zeroed_words 5 single_pair_bytes
          = Some (SmallCuckoo 8 [0; 0; 0; 0; 1; 0; 0; 0] 2 0
                    [Entry 0 0; Entry 42 100])) as H
    by (vm_compute; reflexivity).
  split; [exact H |].
  exact (deserialized_table_rejects_insert jenkins zeroed_entries zeroed_words
           5 single_pair_bytes _ H).
Defined.

(** The stream of [pairs_123], and the table that
    [small_cuckoo_deserialize] makes of it in zeroed memory. *)
Definition pairs_123_bytes : list Z :=
  [4; 0] ++ replicate 16 0
    ++ [1; 0; 0; 0; 0; 0; 0; 0; 10; 0; 0; 0; 0; 0; 0; 0]
    ++ [2; 0; 0; 0; 0; 0; 0; 0; 20; 0; 0; 0; 0; 0; 0; 0]
    ++ [3; 0; 0; 0; 0; 0; 0; 0; 30; 0; 0; 0; 0; 0; 0; 0].

Definition pairs_123_read : small_cuckoo :=
  SmallCuckoo 32
    (replicate 8 0 ++ [1; 0; 2; 0; 3; 0] ++ replicate 18 0) 4 0
    [Entry 0 0; Entry 1 10; Entry 2 20; Entry 3 30].

(** The table that [small_cuckoo_deserialize] makes of the stream of
    [single_pair] in zeroed memory. *)
Definition single_pair_read : small_cuckoo :=
  SmallCuckoo 8 [0; 0; 0; 0; 1; 0; 0; 0] 2 0 [Entry 0 0; Entry 42 100].

Lemma round_trip_of_32_bit_pairs_witness :
  (forall j, u16 (zeroed_words j) = 0) /\
  NoDup [(1, 10); (2, 20); (3, 30)].*1 /\
  small_cuckoo_serialize zeroed_words pairs_123 = Some pairs_123_bytes /\
  small_cuckoo_deserialize jenkins zeroed_words 10 pairs_123_bytes
  = Some pairs_123_read /\
  n_entries pairs_123_read = n_entries pairs_123 /\
  forall k,
    small_cuckoo_find jenkins pairs_123_read k = small_cuckoo_find jenkins pairs_123 k.
Proof.
  assert (NoDup [(1, 10); (2, 20); (3, 30)].*1) as Hnd.
  { cbn [fmap list_fmap fst]. repeat constructor; intros H;
      repeat (apply elem_of_cons in H as [H | H]; [done |]);
      by apply elem_of_nil in H. }
  assert (small_cuckoo_serialize zeroed_words pairs_123 = Some pairs_123_bytes)
    as Hser by (vm_compute; reflexivity).
  assert (small_cuckoo_deserialize jenkins zeroed_words 10 pairs_123_bytes
          = Some pairs_123_read) as Hde by (vm_compute; reflexivity).
  split; [intros j; reflexivity |]. split; [exact Hnd |].
  split; [exact Hser |]. split; [exact Hde |].
  apply (round_trip_of_32_bit_pairs jenkins zeroed_entries zeroed_words
           zeroed_words 0 10 [(1, 10); (2, 20); (3, 30)]
           (SmallCuckoo 2 [0; 0] 1 1 [Entry 0 0]) pairs_123
           pairs_123_bytes 10 pairs_123_read).
  - intros j. reflexivity.
  - lia.
  - exact (proj1 new_then_123).
  - exact (proj2 new_then_123).
  - exact Hnd.
  - repeat constructor; cbn [fst snd]; lia.
  - exact Hser.
  - exact Hde.
Defined.

Lemma has_next_is_idempotent_witness :
  small_cuckoo_iter_has_next 8 (small_cuckoo_iterate single_pair_read)
  = Some (true, SmallCuckooIter single_pair_read 4) /\
  small_cuckoo_iter_has_next 1 (SmallCuckooIter single_pair_read 4)
  = Some (true, SmallCuckooIter single_pair_read 4).
Proof.
  assert (small_cuckoo_iter_has_next 8 (small_cuckoo_iterate single_pair_read)
          = Some (true, SmallCuckooIter single_pair_read 4)) as H
    by (vm_compute; reflexivity).
  split; [exact H |].
  exact (has_next_is_idempotent 8 _ true _ 0 H).
Defined.

Lemma slot_invariant_single_pair_read :
  slot_invariant jenkins single_pair_read.
Proof.
  intros h j Hh Hnz.
  destruct h as [| [| [| [| [| [| [| [| h]]]]]]]]; try done;
    injection Hh as <-; try done.
  split; [done |]. exists (Entry 42 100). split; vm_compute; reflexivity.
Qed.

Lemma next_follows_has_next_witness :
  small_cuckoo_iter_has_next 8 (small_cuckoo_iterate single_pair_read)
  = Some (true, SmallCuckooIter single_pair_read 4) /\
  slot_invariant jenkins single_pair_read /\
  small_cuckoo_iter_next 1 (SmallCuckooIter single_pair_read 4)
  = Some (42, 100, SmallCuckooIter single_pair_read 5) /\
  exists j e,
    load (table single_pair_read) 4 = Some j /\
    0 < j < n_entries single_pair_read /\
    load (entries single_pair_read) j = Some e /\
    small_cuckoo_iter_next 1 (SmallCuckooIter single_pair_read 4)
    = Some (key e, value e, SmallCuckooIter single_pair_read (u16 (4 + 1))).
Proof.
  assert (small_cuckoo_iter_has_next 8 (small_cuckoo_iterate single_pair_read)
          = Some (true, SmallCuckooIter single_pair_read 4)) as H
    by (vm_compute; reflexivity).
  split; [exact H |]. split; [exact slot_invariant_single_pair_read |].
  split; [vm_compute; reflexivity |].
  exact (proj2 (next_follows_has_next jenkins 8 _ true _ H) eq_refl
           slot_invariant_single_pair_read 0%nat).
Defined.

Lemma iterator_delivers_each_pair_once_witness :
  small_cuckoo_new zeroed_entries 0 = Some (SmallCuckoo 2 [0; 0] 1 1 [Entry 0 0]) /\
  insert_all jenkins zeroed_entries 10 (SmallCuckoo 2 [0; 0] 1 1 [Entry 0 0])
    [(1, 10); (2, 20); (3, 30)] = Some pairs_123 /\
  table_size pairs_123 < 65536 /\
  iterate_all 4 5 pairs_123 = Some ([(3, 30); (1, 10); (2, 20)], true) /\
  exists l,
    iterate_all 4 5 pairs_123 = Some (l, true) /\
    l ≡ₚ [(1, 10); (2, 20); (3, 30)].
Proof.
  split; [exact (proj1 new_then_123) |]. split; [exact (proj2 new_then_123) |].
  split; [vm_compute; reflexivity |]. split; [vm_compute; reflexivity |].
  apply (iterator_delivers_each_pair_once jenkins zeroed_entries 0 10
           [(1, 10); (2, 20); (3, 30)]
           (SmallCuckoo 2 [0; 0] 1 1 [Entry 0 0]) pairs_123 4 5
           (proj1 new_then_123) (proj2 new_then_123)).
  - vm_compute. reflexivity.
  - cbn [length]. lia.
  - vm_compute. reflexivity.
Defined.

Lemma has_next_never_returns_on_empty_large_table_witness :
  9 <= 9 <= 16 /\
  exists s,
    small_cuckoo_new zeroed_entries 9 = Some s /\
    table_size s = 131072 /\
    forall fuel, small_cuckoo_iter_has_next fuel (small_cuckoo_iterate s) = None.
Proof.
  split; [lia |]. eexists. split; [apply small_cuckoo_new_small; lia |].
  apply (has_next_never_returns_on_empty_large_table zeroed_entries 9);
    [lia | apply small_cuckoo_new_small; lia].
Defined.

Lemma first_insert_returns_witness :
  0 <= 0 <= 2 ^ 32 /\
  small_cuckoo_new zeroed_entries 0 = Some (SmallCuckoo 2 [0; 0] 1 1 [Entry 0 0]) /\
  small_cuckoo_insert jenkins zeroed_entries 1
    (SmallCuckoo 2 [0; 0] 1 1 [Entry 0 0]) 42 100 = Some single_pair /\
  exists s,
    small_cuckoo_insert jenkins zeroed_entries 1
      (SmallCuckoo 2 [0; 0] 1 1 [Entry 0 0]) 42 100 = Some s /\
    table_size s = table_size (SmallCuckoo 2 [0; 0] 1 1 [Entry 0 0]) /\
    n_entries s = 2 /\
    table s
    = <[Z.to_nat (hash_1 (table_size (SmallCuckoo 2 [0; 0] 1 1 [Entry 0 0])) 42) := 1]>
        (table (SmallCuckoo 2 [0; 0] 1 1 [Entry 0 0])) /\
    load (entries s) 1 = Some (Entry 42 100) /\
    small_cuckoo_find jenkins s 42 = Some (Some 100).
Proof.
  split; [lia |]. split; [exact (proj1 new_then_123) |].
  split; [vm_compute; reflexivity |].
  exact (first_insert_returns jenkins zeroed_entries 0 _ 42 100 ltac:(lia)
           (proj1 new_then_123)).
Defined.
